(** * The Circle: browser scripts and the [memory_media] join table

    A shallow embedding of the parts of the family-memory application that
    its specification makes statements about:

    - [static/js/capture.js]   ([saveMemory]),
    - [static/js/timeline.js]  (the search filter of [loadMemoriesWithSearch]),
    - [static/js/export.js]    ([escapeHtml], chapter editing),
    - the media manager script ([MediaManager]: file selection and upload),
    - the React component [MediaLinker] ([moveUp], [moveDown]),
    - [migration_add_memory_media.sql] (the [memory_media] table).

    JavaScript strings are sequences of UTF-16 code units, asynchronous
    functions are split at their [await] points into the part that runs
    before the suspension and the part that runs when the awaited promise
    settles, and arrays that are shared between a suspended function and an
    event handler live in an explicit store. *)

From Stdlib Require Import DecimalN.
From stdpp Require Import base list strings gmap.

#[local] Set Warnings "-register-all,-clear-no-such-hyp".
Open Scope N_scope.

(** ** JavaScript values *)

Module JS.

(** A string is a list of UTF-16 code units. *)
Abbreviation jsstring := (list N).

(** An ASCII literal of the scripts as a list of code units. *)
Definition lit (s : string) : jsstring :=
  map Ascii.N_of_ascii (String.list_ascii_of_string s).

(** The double quote, which a literal cannot hold. *)
Definition dq : jsstring := [34].

(** [String.prototype.includes]: [t] occurs in [s] as a contiguous block. *)
Fixpoint startsWith (s t : jsstring) : bool :=
  match t, s with
  | [], _ => true
  | _ :: _, [] => false
  | c :: t', d :: s' => (c =? d) && startsWith s' t'
  end.

Fixpoint includes (s t : jsstring) : bool :=
  startsWith s t ||
  match s with
  | [] => false
  | _ :: s' => includes s' t
  end.

(** What a regular expression of the shape [/lit$/] tests. *)
Definition endsWith (s t : jsstring) : bool :=
  startsWith (rev s) (rev t).

(** ECMAScript [WhiteSpace] and [LineTerminator] code points, all of them in
    the basic plane: the characters [String.prototype.trim] strips. *)
Definition isWhiteSpace (c : N) : bool :=
  (c =? 9) || (c =? 10) || (c =? 11) || (c =? 12) || (c =? 13) || (c =? 32)
  || (c =? 160) || (c =? 5760) || ((8192 <=? c) && (c <=? 8202))
  || (c =? 8232) || (c =? 8233) || (c =? 8239) || (c =? 8287)
  || (c =? 12288) || (c =? 65279).

Fixpoint trimStart (s : jsstring) : jsstring :=
  match s with
  | c :: s' => if isWhiteSpace c then trimStart s' else s
  | [] => []
  end.

Definition trim (s : jsstring) : jsstring :=
  rev (trimStart (rev (trimStart s))).

(** [Number.prototype.toString] on an integer-valued number. *)
Fixpoint uint_units (d : Decimal.uint) : jsstring :=
  match d with
  | Decimal.Nil => []
  | Decimal.D0 d => 48 :: uint_units d
  | Decimal.D1 d => 49 :: uint_units d
  | Decimal.D2 d => 50 :: uint_units d
  | Decimal.D3 d => 51 :: uint_units d
  | Decimal.D4 d => 52 :: uint_units d
  | Decimal.D5 d => 53 :: uint_units d
  | Decimal.D6 d => 54 :: uint_units d
  | Decimal.D7 d => 55 :: uint_units d
  | Decimal.D8 d => 56 :: uint_units d
  | Decimal.D9 d => 57 :: uint_units d
  end.

Definition decimal (n : N) : jsstring := uint_units (N.to_uint n).

Definition numberToString (z : Z) : jsstring :=
  match z with
  | Zneg p => 45 :: decimal (Npos p)
  | _ => decimal (Z.to_N z)
  end.

(** [toLowerCase] restricted to the ASCII letters.  The statements below
    are proved for an arbitrary lower-casing function; this one serves to
    run the definitions on ASCII inputs. *)
Definition toLowerCase_ascii (s : jsstring) : jsstring :=
  map (fun c => if (65 <=? c) && (c <=? 90) then c + 32 else c) s.

(** Values that [JSON.parse] produces, and [undefined] for a property that
    is not there. Numbers are the integer-valued ones. *)
Inductive value :=
  | VUndefined
  | VNull
  | VBool (b : bool)
  | VNum (z : Z)
  | VStr (s : jsstring)
  | VArr (l : list value)
  | VObj (fields : list (jsstring * value)).

(** [ToBoolean]. *)
Definition truthy (v : value) : bool :=
  match v with
  | VUndefined | VNull => false
  | VBool b => b
  | VNum z => negb (z =? 0)%Z
  | VStr s => negb (bool_decide (s = []))
  | VArr _ | VObj _ => true
  end.

(** The last binding of a key wins, as in [JSON.parse]. *)
Fixpoint lookup_field (k : jsstring) (fields : list (jsstring * value))
  : option value :=
  match fields with
  | [] => None
  | (k', v) :: rest =>
      match lookup_field k rest with
      | Some w => Some w
      | None => if bool_decide (k' = k) then Some v else None
      end
  end.

(** [v.k] for a key [k] that no built-in prototype defines ([status],
    [message], [success]): a [TypeError] ([None]) on [null] and [undefined],
    [undefined] on the other values that do not have the property. *)
Definition getProp (v : value) (k : jsstring) : option value :=
  match v with
  | VUndefined | VNull => None
  | VObj fields => Some (default VUndefined (lookup_field k fields))
  | _ => Some VUndefined
  end.

(** [v === 'k'] for a string literal. *)
Definition strictEqStr (v : value) (s : jsstring) : bool :=
  match v with
  | VStr s' => bool_decide (s' = s)
  | _ => false
  end.

(** The result of [await fetch(...)] followed by [await response.json()].
    Nothing runs between the two suspensions, so they are one step. *)
Inductive outcome :=
  | FetchRejected (message : jsstring)
  | JsonRejected (ok : bool) (message : jsstring)
  | Json (ok : bool) (data : value).

(** [Array.prototype.join] with the separator [','] on strings. *)
Definition join_comma (l : list jsstring) : jsstring :=
  match l with
  | [] => []
  | x :: rest => x ++ flat_map (fun y => 44 :: y) rest
  end.

(** [ToString] of a value of the server's JSON: an array gives its
    elements joined with commas, [null] and [undefined] among them as the
    empty string, and an object gives ['[object Object]']. *)
Fixpoint ToString (v : value) : jsstring :=
  match v with
  | VUndefined => lit "undefined"
  | VNull => lit "null"
  | VBool true => lit "true"
  | VBool false => lit "false"
  | VNum z => numberToString z
  | VStr s => s
  | VArr l =>
      join_comma
        (map (fun e => match e with
                       | VUndefined | VNull => []
                       | _ => ToString e
                       end) l)
  | VObj _ => lit "[object Object]"
  end.

(** The string that an assignment to the [value] of a [textarea] or an
    [input] converts its right-hand side to; the attribute takes [null]
    for the empty string. *)
Definition domValue (v : value) : jsstring :=
  match v with
  | VNull => []
  | _ => ToString v
  end.

(** What one reads from the [value] of a [textarea] after a string was
    assigned to it: the pair CR LF and a single CR are line feeds. *)
Fixpoint normalizeNewlines (s : jsstring) : jsstring :=
  match s with
  | [] => []
  | c :: rest =>
      if c =? 13 then
        10 :: match rest with
              | d :: rest' =>
                  if d =? 10 then normalizeNewlines rest'
                  else normalizeNewlines rest
              | [] => []
              end
      else c :: normalizeNewlines rest
  end.

(** The value sanitization of an [input] of the type [text]: line breaks
    are taken out. *)
Definition stripNewlines (s : jsstring) : jsstring :=
  List.filter (fun c => negb ((c =? 10) || (c =? 13))) s.

End JS.

Import JS.

(** ** [capture.js]: saving a memory *)

Module Capture.

(** The part of the page that [saveMemory] reads and writes. *)
Record page := {
  memory_text : jsstring;       (* value of #memory-text *)
  memory_date : jsstring;       (* value of #memory-date *)
  editingId : option jsstring;  (* dataset.editingId of #memory-text *)
  saveBtn : option jsstring;    (* innerHTML of the save button, if any *)
  edit_notice : bool;           (* an .edit-notice element is present *)
  active_tab : jsstring;        (* the .tab-content that is active *)
  has_loadMemories : bool;      (* typeof loadMemories === 'function' *)
  has_mediaManager : bool;      (* window.mediaManager with loadMediaGallery *)
  has_loadComments : bool       (* typeof loadComments === 'function' *)
}.

Inductive alert_text :=
  | PleaseWrite                      (* 'Please write a memory before saving' *)
  | MemoryUpdated                    (* 'Memory updated!' *)
  | MemorySaved                      (* 'Memory saved!' *)
  | ErrorWithMessage (message : value) (* 'Error: ' + data.message *)
  | FailedToSave.                    (* 'Failed to save memory. Please try again.' *)

Inductive request :=
  | PutMemory (id text date : jsstring)   (* PUT /api/memories/${editingId} *)
  | PostSave (text date : jsstring).      (* POST /api/memories/save *)

Inductive effect :=
  | Alert (a : alert_text)
  | Fetch (r : request)
  | ConsoleError
  | LoadMemories
  | ScheduleGalleryLoad
  | LoadComments.

(** The alerts that report a failure. *)
Definition error_alert (a : alert_text) : bool :=
  match a with
  | ErrorWithMessage _ | FailedToSave => true
  | _ => false
  end.

Definition is_fetch (e : effect) : bool :=
  match e with Fetch _ => true | _ => false end.

(** [window.showTab] of app.js, called without a DOM event. *)
Definition showTab (tabName : jsstring) (p : page) : page * list effect :=
  let p' := {| memory_text := memory_text p; memory_date := memory_date p;
               editingId := editingId p; saveBtn := saveBtn p;
               edit_notice := edit_notice p; active_tab := tabName;
               has_loadMemories := has_loadMemories p;
               has_mediaManager := has_mediaManager p;
               has_loadComments := has_loadComments p |} in
  if bool_decide (tabName = lit "timeline") then
    (p', if has_loadMemories p then [LoadMemories] else [])
  else if bool_decide (tabName = lit "media") then
    (p', if has_mediaManager p then [ScheduleGalleryLoad] else [])
  else if bool_decide (tabName = lit "comments") then
    (p', if has_loadComments p then [LoadComments] else [])
  else (p', []).

Definition saveBtn_label : jsstring :=
  lit "<i class=" ++ dq ++ lit "fas fa-save" ++ dq ++ lit "></i> Save Memory".

(** [saveMemory] up to its first [await]: the request it issues and whether
    it is an update, or [None] when it returns at once. *)
Definition saveMemory_begin (p : page) : list effect * option bool :=
  let text := trim (memory_text p) in
  let date := trim (memory_date p) in
  if bool_decide (text = []) then ([Alert PleaseWrite], None)
  else
    match editingId p with
    | Some id => ([Fetch (PutMemory id text date)], Some true)
    | None => ([Fetch (PostSave text date)], Some false)
    end.

(** The [catch] clause. *)
Definition saveMemory_catch (p : page) : page * list effect :=
  (p, [ConsoleError; Alert FailedToSave]).

(** [saveMemory] from the point where the response has arrived, on the page
    as it is then. *)
Definition saveMemory_resume (isEditing : bool) (o : outcome) (p : page)
  : page * list effect :=
  match o with
  | FetchRejected _ | JsonRejected _ _ => saveMemory_catch p
  | Json _ data =>
      match getProp data (lit "status") with
      | None => saveMemory_catch p
      | Some status =>
          if strictEqStr status (lit "success") then
            let cleared :=
              {| memory_text := []; memory_date := []; editingId := None;
                 saveBtn := (fun _ => saveBtn_label) <$> saveBtn p;
                 edit_notice := false; active_tab := active_tab p;
                 has_loadMemories := has_loadMemories p;
                 has_mediaManager := has_mediaManager p;
                 has_loadComments := has_loadComments p |} in
            let '(p', shown) := showTab (lit "timeline") cleared in
            (p', Alert (if isEditing then MemoryUpdated else MemorySaved)
                 :: (if has_loadMemories p then [LoadMemories] else [])
                 ++ shown)
          else
            (p, [Alert (ErrorWithMessage
                          (default VUndefined (getProp data (lit "message"))))])
      end
  end.

(** A call of [saveMemory] during which nothing else touches the page. *)
Definition saveMemory (o : outcome) (p : page) : page * list effect :=
  match saveMemory_begin p with
  | (effs, None) => (p, effs)
  | (effs, Some isEditing) =>
      let '(p', effs') := saveMemory_resume isEditing o p in
      (p', effs ++ effs')
  end.

(** The server reports success: the body parses and its [status] field is
    the string ['success']. *)
Definition success_response (o : outcome) : bool :=
  match o with
  | Json _ (VObj fields) =>
      strictEqStr (default VUndefined (lookup_field (lit "status") fields))
                  (lit "success")
  | _ => false
  end.

(** A form that holds a new memory, and the body of a 500 answer. *)
Definition example_page : page :=
  {| memory_text := lit " Our first house on Mill Lane ";
     memory_date := lit "1973";
     editingId := None;
     saveBtn := Some saveBtn_label;
     edit_notice := false;
     active_tab := lit "capture";
     has_loadMemories := true;
     has_mediaManager := false;
     has_loadComments := false |}.

Definition example_error : outcome :=
  Json false (VObj [(lit "status", VStr (lit "error"));
                    (lit "message", VStr (lit "database is locked"))]).

Definition blank_page : page :=
  {| memory_text := [32; 9; 10; 160];
     memory_date := lit "1973";
     editingId := Some (lit "12");
     saveBtn := None;
     edit_notice := true;
     active_tab := lit "capture";
     has_loadMemories := true;
     has_mediaManager := false;
     has_loadComments := false |}.

End Capture.

(** ** [timeline.js]: the search filter *)

Module Timeline.

(** The [year] of a memory record as the server sends it. *)
Inductive year_value :=
  | YearNull
  | YearNum (z : Z)
  | YearStr (s : jsstring).

(** A memory record of [/api/memories/get]; [category] is [None] when the
    field is [null] or missing. *)
Record memory := {
  id : Z;
  text : jsstring;
  category : option jsstring;
  year : year_value
}.

Definition nonEmpty (s : jsstring) : bool := negb (bool_decide (s = [])).

Section Filter.

Variable toLowerCase : jsstring -> jsstring.

(** The arrow function given to [memories.filter]. *)
Definition matches (searchTerm : jsstring) (m : memory) : bool :=
  let searchLower := toLowerCase searchTerm in
  includes (toLowerCase (text m)) searchLower
  || match category m with
     | Some c => nonEmpty c && includes (toLowerCase c) searchLower
     | None => false
     end
  || match year m with
     | YearNull => false
     | YearNum z => negb (z =? 0)%Z && includes (numberToString z) searchTerm
     | YearStr s => nonEmpty s && includes s searchTerm
     end.

(** [filteredMemories] of [loadMemoriesWithSearch]. *)
Definition filteredMemories (searchTerm : jsstring) (memories : list memory)
  : list memory :=
  if nonEmpty searchTerm then List.filter (matches searchTerm) memories
  else memories.

(** The words of the specification. [t] occurs in [s]: *)
Definition contains (s t : jsstring) : Prop :=
  exists before after, s = before ++ t ++ after.

(** ... without regard to case: *)
Definition contains_ci (s t : jsstring) : Prop :=
  contains (toLowerCase s) (toLowerCase t).

(** The string representation of a year that is there. *)
Definition year_string (y : year_value) : option jsstring :=
  match y with
  | YearNull => None
  | YearNum z => Some (numberToString z)
  | YearStr s => Some s
  end.

(** A year that JavaScript takes for true: present, not [0], not ['']. *)
Definition year_truthy (y : year_value) : Prop :=
  match y with
  | YearNull => False
  | YearNum z => z <> 0%Z
  | YearStr s => s <> []
  end.

(** The selection as the specification words it. *)
Definition specified_match (searchTerm : jsstring) (m : memory) : Prop :=
  contains_ci (text m) searchTerm
  \/ (exists c, category m = Some c /\ contains_ci c searchTerm)
  \/ (exists s, year_string (year m) = Some s /\ contains s searchTerm).

(** The same with the year restricted to the years that count as true. *)
Definition amended_match (searchTerm : jsstring) (m : memory) : Prop :=
  contains_ci (text m) searchTerm
  \/ (exists c, category m = Some c /\ contains_ci c searchTerm)
  \/ (year_truthy (year m)
      /\ exists s, year_string (year m) = Some s /\ contains s searchTerm).

End Filter.

(** Memories to run the filter on. *)
Definition year_zero : memory :=
  {| id := 7; text := lit "Picnic by the lake";
     category := None; year := YearNum 0 |}.

Definition first_job : memory :=
  {| id := 3; text := lit "My first job at the Mill";
     category := Some (lit "Work"); year := YearNum 1973 |}.

(** *** Loading a memory into the form: [editMemory] and [cancelEdit] *)

Inductive edit_alert :=
  | ErrorLoading (message : value)  (* 'Error loading memory: ' + data.message *)
  | FailedToLoad.                   (* 'Failed to load memory for editing' *)

Inductive edit_effect :=
  | FetchMemory (memoryId : jsstring)   (* GET /api/memories/${memoryId} *)
  | EditAlert (a : edit_alert)
  | EditConsoleError
  | Shown (e : Capture.effect).         (* what [showTab] did *)

Definition updateBtn_label : jsstring :=
  lit "<i class=" ++ dq ++ lit "fas fa-save" ++ dq ++ lit "></i> Update Memory".

Section EditMemory.

(** The value sanitization of [#memory-date], which depends on the type of
    the [input], and whether the page has a [#capture .form-group]. *)
Variable sanitize : jsstring -> jsstring.
Variable formGroup : bool.

(** [memoryId] is the argument in the form in which the template literal
    and [dataset] render it. *)
Definition editMemory_begin (memoryId : jsstring) : list edit_effect :=
  [FetchMemory memoryId].

(** The [catch] callback. *)
Definition editMemory_catch (p : Capture.page)
  : Capture.page * list edit_effect :=
  (p, [EditConsoleError; EditAlert FailedToLoad]).

(** The callbacks of [editMemory], on the page as it is when the response
    has arrived. *)
Definition editMemory_resume (memoryId : jsstring) (o : outcome)
  (p : Capture.page) : Capture.page * list edit_effect :=
  match o with
  | FetchRejected _ | JsonRejected _ _ => editMemory_catch p
  | Json _ data =>
      match getProp data (lit "status") with
      | None => editMemory_catch p
      | Some status =>
          if strictEqStr status (lit "success") then
            let memory := default VUndefined (getProp data (lit "memory")) in
            let '(p1, shown) := Capture.showTab (lit "capture") p in
            match getProp memory (lit "text"),
                  getProp memory (lit "memory_date") with
            | Some memoryText, Some memoryDate =>
                ({| Capture.memory_text := normalizeNewlines (domValue memoryText);
                    Capture.memory_date :=
                      sanitize (if truthy memoryDate then ToString memoryDate
                                else []);
                    Capture.editingId := Some memoryId;
                    Capture.saveBtn :=
                      (fun _ => updateBtn_label) <$> Capture.saveBtn p1;
                    Capture.edit_notice := Capture.edit_notice p1 || formGroup;
                    Capture.active_tab := Capture.active_tab p1;
                    Capture.has_loadMemories := Capture.has_loadMemories p1;
                    Capture.has_mediaManager := Capture.has_mediaManager p1;
                    Capture.has_loadComments := Capture.has_loadComments p1 |},
                 Shown <$> shown)
            | _, _ =>
                (p1, (Shown <$> shown) ++ [EditConsoleError; EditAlert FailedToLoad])
            end
          else
            (p, [EditAlert (ErrorLoading
                              (default VUndefined (getProp data (lit "message"))))])
      end
  end.

End EditMemory.

Definition cancelEdit (p : Capture.page) : Capture.page :=
  {| Capture.memory_text := [];
     Capture.memory_date := [];
     Capture.editingId := None;
     Capture.saveBtn := (fun _ => Capture.saveBtn_label) <$> Capture.saveBtn p;
     Capture.edit_notice := false;
     Capture.active_tab := Capture.active_tab p;
     Capture.has_loadMemories := Capture.has_loadMemories p;
     Capture.has_mediaManager := Capture.has_mediaManager p;
     Capture.has_loadComments := Capture.has_loadComments p |}.

(** The user changes what the two inputs of the form hold. *)
Definition typed (memoryText memoryDate : jsstring) (p : Capture.page)
  : Capture.page :=
  {| Capture.memory_text := memoryText;
     Capture.memory_date := memoryDate;
     Capture.editingId := Capture.editingId p;
     Capture.saveBtn := Capture.saveBtn p;
     Capture.edit_notice := Capture.edit_notice p;
     Capture.active_tab := Capture.active_tab p;
     Capture.has_loadMemories := Capture.has_loadMemories p;
     Capture.has_mediaManager := Capture.has_mediaManager p;
     Capture.has_loadComments := Capture.has_loadComments p |}.

(** The server sends the memory: the body parses, its [status] is
    ['success'] and its [memory] is neither missing nor [null]. *)
Definition sends_memory (o : outcome) : bool :=
  match o with
  | Json _ (VObj fields) =>
      strictEqStr (default VUndefined (lookup_field (lit "status") fields))
                  (lit "success")
      && match default VUndefined (lookup_field (lit "memory") fields) with
         | VUndefined | VNull => false
         | _ => true
         end
  | _ => false
  end.

(** *** The form over time *)

(** The form, and the calls of [saveMemory] (each with its [isEditing]) and
    of [editMemory] (each with its [memoryId]) that await their response. *)
Record session := {
  form : Capture.page;
  saves : list bool;
  edits : list jsstring
}.

Inductive form_event :=
  | Typed (memoryText memoryDate : jsstring)
  | ClickSave                                (* saveMemory() *)
  | SaveSettled (n : nat) (o : outcome)
  | ClickEdit (memoryId : jsstring)          (* editMemory(memoryId) *)
  | EditSettled (n : nat) (o : outcome)
  | ClickCancel.                             (* cancelEdit() *)

Section Session.

Variable sanitize : jsstring -> jsstring.
Variable formGroup : bool.

Definition form_step (s : session) (e : form_event) : session :=
  match e with
  | Typed memoryText memoryDate =>
      {| form := typed memoryText memoryDate (form s);
         saves := saves s; edits := edits s |}
  | ClickSave =>
      match (Capture.saveMemory_begin (form s)).2 with
      | Some isEditing =>
          {| form := form s; saves := saves s ++ [isEditing]; edits := edits s |}
      | None => s
      end
  | SaveSettled n o =>
      match saves s !! n with
      | Some isEditing =>
          {| form := (Capture.saveMemory_resume isEditing o (form s)).1;
             saves := delete n (saves s); edits := edits s |}
      | None => s
      end
  | ClickEdit memoryId =>
      {| form := form s; saves := saves s; edits := edits s ++ [memoryId] |}
  | EditSettled n o =>
      match edits s !! n with
      | Some memoryId =>
          {| form := (editMemory_resume sanitize formGroup memoryId o (form s)).1;
             saves := saves s; edits := delete n (edits s) |}
      | None => s
      end
  | ClickCancel =>
      {| form := cancelEdit (form s); saves := saves s; edits := edits s |}
  end.

Definition form_run (s : session) (events : list form_event) : session :=
  fold_left form_step events s.

End Session.

(** What the form shows of its mode: the notice is there only while a
    memory is edited, and always then when the page has the place for it,
    and the button says [Update Memory] while a memory is edited and
    [Save Memory] otherwise. *)
Definition mode_shown (formGroup : bool) (p : Capture.page) : Prop :=
  (Capture.edit_notice p = true -> is_Some (Capture.editingId p))
  /\ (formGroup = true -> is_Some (Capture.editingId p) ->
      Capture.edit_notice p = true)
  /\ (forall label, Capture.saveBtn p = Some label ->
        label = match Capture.editingId p with
                | Some _ => updateBtn_label
                | None => Capture.saveBtn_label
                end).

(** An answer to [editMemory], and the strings to run it on. *)
Definition example_memory : outcome :=
  Json true
    (VObj [(lit "status", VStr (lit "success"));
           (lit "memory",
            VObj [(lit "id", VNum 12);
                  (lit "text", VStr (lit "We moved to Leeds." ++ [13; 10]
                                     ++ lit "It rained."));
                  (lit "memory_date", VNull)])]).

(** A form that the user opens, loads a memory into, changes and saves,
    and what the user does. *)
Definition example_session : session :=
  {| form := Capture.example_page; saves := []; edits := [] |}.

Definition example_clicks : list form_event :=
  [ClickEdit (lit "12"); EditSettled 0 example_memory;
   Typed (lit "We moved to Leeds in 1962.") (lit "1962");
   ClickSave; ClickCancel; SaveSettled 0 Capture.example_error].

End Timeline.

(** ** [export.js]: escaping *)

Module ExportJs.

(** What the callers pass for [text]: a scalar of the server's JSON, or
    [undefined] for a field that is not there. *)
Inductive text_arg :=
  | TUndefined
  | TNull
  | TBool (b : bool)
  | TNum (z : Z)
  | TStr (s : jsstring).

(** [!text]. *)
Definition falsy (text : text_arg) : bool :=
  match text with
  | TUndefined | TNull => true
  | TBool b => negb b
  | TNum z => (z =? 0)%Z
  | TStr s => bool_decide (s = [])
  end.

(** The string that the [textContent] setter stores; the attribute is a
    nullable string, for which [null] and [undefined] stand for no text. *)
Definition toString (text : text_arg) : jsstring :=
  match text with
  | TUndefined | TNull => []
  | TBool true => lit "true"
  | TBool false => lit "false"
  | TNum z => numberToString z
  | TStr s => s
  end.

(** The HTML fragment serialisation of a text node, which is what reading
    [innerHTML] of a [div] that holds one text node returns: the four
    replacements of the standard's string escaping outside attributes. *)
Definition escape_unit (c : N) : jsstring :=
  if c =? 38 then lit "&amp;"
  else if c =? 60 then lit "&lt;"
  else if c =? 62 then lit "&gt;"
  else if c =? 160 then lit "&nbsp;"
  else [c].

Definition serialize_text (s : jsstring) : jsstring :=
  flat_map escape_unit s.

Definition escapeHtml (text : text_arg) : jsstring :=
  if falsy text then [] else serialize_text (toString text).


(** *** The biography preview: chapters and their edits *)

Inductive model := deepseek | claude.

#[global] Instance model_eq_dec : EqDecision model.
Proof. solve_decision. Defined.

Definition model_name (m : model) : jsstring :=
  match m with
  | deepseek => lit "deepseek"
  | claude => lit "claude"
  end.

(** [`${model}-chapter-${chapterIndex}`] *)
Definition chapterId (m : model) (chapterIndex : nat) : jsstring :=
  model_name m ++ lit "-chapter-" ++ decimal (N.of_nat chapterIndex).

(** A chapter of the server's answer; a field is [None] when it is missing
    or [null]. *)
Record chapter := {
  title : option jsstring;
  narrative : option jsstring
}.

Inductive display := Unset | DisplayNone | DisplayBlock | DisplayFlex.

(** The children of a [.chapter-narrative]: the text of the chapter, or the
    edit form with the text its [textarea] was created with, the current
    value of the [textarea] and the text of the counter. *)
Inductive narrative_content :=
  | Text (t : jsstring)
  | EditContainer (textarea_text textarea_value char_count : jsstring).

(** A [.chapter-preview] element. *)
Record chapter_preview := {
  heading : jsstring;
  narrativeEl : narrative_content;
  editBtn : display;
  footerEl : display;
  footer_small : jsstring
}.

(** The modal and [biographyState]; the i-th child of a chapters container
    is the element with the id [chapterId model i]. *)
Record biography := {
  modal : display;
  deepseek_chapters : list chapter_preview;
  claude_chapters : list chapter_preview;
  unsaved_warning : option display;
  originalTexts : gmap jsstring jsstring;
  hasUnsavedEdits : bool
}.

Definition chapters_of (m : model) (b : biography) : list chapter_preview :=
  match m with
  | deepseek => deepseek_chapters b
  | claude => claude_chapters b
  end.

Definition set_chapters (m : model) (l : list chapter_preview) (b : biography)
  : biography :=
  {| modal := modal b;
     deepseek_chapters := match m with deepseek => l | claude => deepseek_chapters b end;
     claude_chapters := match m with claude => l | deepseek => claude_chapters b end;
     unsaved_warning := unsaved_warning b;
     originalTexts := originalTexts b;
     hasUnsavedEdits := hasUnsavedEdits b |}.

Definition set_originalTexts (t : gmap jsstring jsstring) (b : biography)
  : biography :=
  {| modal := modal b;
     deepseek_chapters := deepseek_chapters b;
     claude_chapters := claude_chapters b;
     unsaved_warning := unsaved_warning b;
     originalTexts := t;
     hasUnsavedEdits := hasUnsavedEdits b |}.

(** [updateUnsavedWarning] after an assignment to [hasUnsavedEdits]. *)
Definition set_hasUnsavedEdits (u : bool) (b : biography) : biography :=
  {| modal := modal b;
     deepseek_chapters := deepseek_chapters b;
     claude_chapters := claude_chapters b;
     unsaved_warning :=
       (fun _ => if u then DisplayBlock else DisplayNone) <$> unsaved_warning b;
     originalTexts := originalTexts b;
     hasUnsavedEdits := u |}.

(** What the HTML parser makes of [escapeHtml(text)] in markup that is
    assigned to [innerHTML].  The serialisation of [escapeHtml] changes
    [&], [<], [>] and U+00A0 only, and the parser turns these four back.
    The parser reads CR LF and a single CR as a line feed, and in the
    content of an element of the body it drops U+0000. *)
Definition parsedText (s : jsstring) : jsstring :=
  List.filter (fun c => negb (c =? 0)) (normalizeNewlines s).

(** In the content of a [textarea] the parser replaces U+0000 by U+FFFD
    and leaves out a line feed that comes first. *)
Definition parsedTextarea (s : jsstring) : jsstring :=
  match map (fun c => if c =? 0 then 65533 else c) (normalizeNewlines s) with
  | 10 :: rest => rest
  | t => t
  end.

(** A text without CR and without U+0000, which the parser leaves as it
    is. *)
Definition plainText (s : jsstring) : Prop :=
  Forall (fun c => c <> 13 /\ c <> 0) s.

(** [n + ' characters'] *)
Definition characters (s : jsstring) : jsstring :=
  decimal (N.of_nat (length s)) ++ lit " characters".

(** A line break followed by [k] spaces of the template's indentation. *)
Definition nl (k : nat) : jsstring := 10 :: replicate k 32.

(** [narrativeEl.textContent]: the text nodes in document order. *)
Definition textContent (c : narrative_content) : jsstring :=
  match c with
  | Text t => t
  | EditContainer textarea_text _ char_count =>
      nl 8 ++ nl 12 ++ textarea_text ++ nl 12 ++ nl 16
      ++ nl 20 ++ lit " Save" ++ nl 16 ++ nl 16
      ++ nl 20 ++ lit " Cancel" ++ nl 16 ++ nl 16
      ++ char_count ++ nl 12 ++ nl 8 ++ nl 4
  end.

Definition editChapter (m : model) (chapterIndex : nat) (b : biography)
  : biography :=
  match chapters_of m b !! chapterIndex with
  | None => b
  | Some chapterEl =>
      let currentText := textContent (narrativeEl chapterEl) in
      let texts :=
        match originalTexts b !! chapterId m chapterIndex with
        | Some (_ :: _) => originalTexts b
        | _ => <[chapterId m chapterIndex := currentText]> (originalTexts b)
        end in
      let editing :=
        {| heading := heading chapterEl;
           narrativeEl :=
             EditContainer (parsedTextarea currentText)
                           (parsedTextarea currentText)
                           (characters currentText);
           editBtn := DisplayNone;
           footerEl := DisplayNone;
           footer_small := footer_small chapterEl |} in
      set_chapters m (<[chapterIndex := editing]> (chapters_of m b))
                   (set_originalTexts texts b)
  end.

(** The [input] listener of the [textarea], after the user changed its
    value to [value]. *)
Definition textareaInput (m : model) (chapterIndex : nat) (value : jsstring)
  (b : biography) : biography :=
  match chapters_of m b !! chapterIndex with
  | Some chapterEl =>
      match narrativeEl chapterEl with
      | EditContainer textarea_text _ _ =>
          let typed :=
            {| heading := heading chapterEl;
               narrativeEl :=
                 EditContainer textarea_text value (characters value);
               editBtn := editBtn chapterEl;
               footerEl := footerEl chapterEl;
               footer_small := footer_small chapterEl |} in
          set_hasUnsavedEdits true
            (set_chapters m (<[chapterIndex := typed]> (chapters_of m b)) b)
      | Text _ => b
      end
  | None => b
  end.

(** The chapter shown again with the text [t]. *)
Definition shown (chapterEl : chapter_preview) (t : jsstring) : chapter_preview :=
  {| heading := heading chapterEl;
     narrativeEl := Text t;
     editBtn := DisplayBlock;
     footerEl := DisplayBlock;
     footer_small := characters t |}.

Definition saveChapterEdit (m : model) (chapterIndex : nat) (b : biography)
  : biography :=
  match chapters_of m b !! chapterIndex with
  | Some chapterEl =>
      match narrativeEl chapterEl with
      | EditContainer _ newText _ =>
          set_originalTexts
            (<[chapterId m chapterIndex := newText]> (originalTexts b))
            (set_chapters m
               (<[chapterIndex := shown chapterEl newText]> (chapters_of m b)) b)
      | Text _ => b
      end
  | None => b
  end.

Definition checkUnsavedEdits (b : biography) : biography :=
  set_hasUnsavedEdits false b.

Definition cancelChapterEdit (m : model) (chapterIndex : nat) (b : biography)
  : biography :=
  match chapters_of m b !! chapterIndex with
  | Some chapterEl =>
      let originalText :=
        default [] (originalTexts b !! chapterId m chapterIndex) in
      checkUnsavedEdits
        (set_chapters m
           (<[chapterIndex := shown chapterEl originalText]> (chapters_of m b)) b)
  | None => b
  end.

(** The [forEach] of [displayVersion], from the chapter with the index
    [index] on: the entries it writes to [originalTexts] ... *)
Fixpoint recordTexts (m : model) (index : nat) (chapters : list chapter)
  (texts : gmap jsstring jsstring) : gmap jsstring jsstring :=
  match chapters with
  | [] => texts
  | c :: rest =>
      recordTexts m (S index) rest
        (<[chapterId m index := default [] (narrative c)]> texts)
  end.

(** ... and the elements that the generated markup creates: the heading
    and the narrative hold the escaped title and narrative as the parser
    reads them, the footer the length of the narrative itself. *)
Fixpoint previews (index : nat) (chapters : list chapter) : list chapter_preview :=
  match chapters with
  | [] => []
  | c :: rest =>
      {| heading :=
           parsedText
             match title c with
             | Some ((_ :: _) as t) => t
             | _ => lit "Chapter " ++ decimal (N.of_nat (S index))
             end;
         narrativeEl := Text (parsedText (default [] (narrative c)));
         editBtn := Unset;
         footerEl := Unset;
         footer_small := characters (default [] (narrative c)) |}
      :: previews (S index) rest
  end.

Definition displayVersion (m : model) (chapters : list chapter) (b : biography)
  : biography :=
  match chapters with
  | [] => set_chapters m [] b
  | _ :: _ =>
      set_chapters m (previews 0 chapters)
        (set_originalTexts (recordTexts m 0 chapters (originalTexts b)) b)
  end.

(** One version of the server's answer: an error message that counts as
    true, or the chapters. *)
Record version := {
  error : option jsstring;
  chapters : option (list chapter)
}.

Record preview_data := {
  data_deepseek : option version;
  data_claude : option version
}.

(** The modal with new content that has no chapters in it; the warning
    element is part of the preview markup only. *)
Definition emptied (warning : option display) (b : biography) : biography :=
  {| modal := modal b;
     deepseek_chapters := [];
     claude_chapters := [];
     unsaved_warning := warning;
     originalTexts := originalTexts b;
     hasUnsavedEdits := hasUnsavedEdits b |}.

Definition displayOne (m : model) (v : option version) (b : biography)
  : biography :=
  match v with
  | Some {| error := None; chapters := cs |} => displayVersion m (default [] cs) b
  | Some {| error := Some [] ; chapters := cs |} => displayVersion m (default [] cs) b
  | _ => b
  end.

Definition displayBiographyPreview (data : preview_data) (b : biography)
  : biography :=
  match data_deepseek data, data_claude data with
  | None, None => emptied None b
  | d, c =>
      displayOne claude c (displayOne deepseek d (emptied (Some DisplayNone) b))
  end.

(** [generateBiography] up to its [await]. *)
Definition generateBiography_begin (b : biography) : biography :=
  {| modal := DisplayFlex;
     deepseek_chapters := [];
     claude_chapters := [];
     unsaved_warning := None;
     originalTexts := ∅;
     hasUnsavedEdits := false |}.

(** [closeBiographyPreview]; [confirmed] is the answer to the dialog. *)
Definition closeBiographyPreview (confirmed : bool) (b : biography) : biography :=
  if hasUnsavedEdits b && negb confirmed then b
  else
    {| modal := DisplayNone;
       deepseek_chapters := deepseek_chapters b;
       claude_chapters := claude_chapters b;
       unsaved_warning := unsaved_warning b;
       originalTexts := ∅;
       hasUnsavedEdits := false |}.

(** What can happen to the preview. *)
Inductive action :=
  | Generate
  | Display (data : preview_data)
  | Edit (m : model) (chapterIndex : nat)
  | Input (m : model) (chapterIndex : nat) (value : jsstring)
  | Save (m : model) (chapterIndex : nat)
  | Cancel (m : model) (chapterIndex : nat)
  | Close (confirmed : bool).

Definition perform (b : biography) (a : action) : biography :=
  match a with
  | Generate => generateBiography_begin b
  | Display data => displayBiographyPreview data b
  | Edit m i => editChapter m i b
  | Input m i value => textareaInput m i value b
  | Save m i => saveChapterEdit m i b
  | Cancel m i => cancelChapterEdit m i b
  | Close confirmed => closeBiographyPreview confirmed b
  end.

(** The page as loaded. *)
Definition loaded : biography :=
  {| modal := Unset;
     deepseek_chapters := [];
     claude_chapters := [];
     unsaved_warning := None;
     originalTexts := ∅;
     hasUnsavedEdits := false |}.

Definition reachable (b : biography) : Prop :=
  exists actions, b = fold_left perform actions loaded.

(** A session of editing one chapter: [editChapter], any changes of the
    [textarea], [cancelChapterEdit]. *)
Definition edit_then_cancel (m : model) (chapterIndex : nat)
  (values : list jsstring) (b : biography) : biography :=
  cancelChapterEdit m chapterIndex
    (fold_left (fun b' value => textareaInput m chapterIndex value b')
               values (editChapter m chapterIndex b)).

(** The text that the chapter shows, when it is not being edited. *)
Definition shown_text (m : model) (chapterIndex : nat) (b : biography)
  : option jsstring :=
  match narrativeEl <$> chapters_of m b !! chapterIndex with
  | Some (Text t) => Some t
  | _ => None
  end.

(** Every chapter that shows its text shows the text that [originalTexts]
    holds for it, when it holds one, or this text as the parser read it. *)
Definition texts_agree (b : biography) : Prop :=
  forall m i t held,
    shown_text m i b = Some t ->
    originalTexts b !! chapterId m i = Some held ->
    t = held \/ t = parsedText held.

(** A preview to run the editing on. *)
Definition example_data : preview_data :=
  {| data_deepseek :=
       Some {| error := None;
               chapters :=
                 Some [{| title := Some (lit "Early years");
                          narrative := Some (lit "Born in 1950 in Leeds.") |};
                       {| title := None; narrative := None |}] |};
     data_claude := Some {| error := Some (lit "timeout"); chapters := None |} |}.

Definition example_preview : biography :=
  fold_left perform [Generate; Display example_data] loaded.

(** A preview of one chapter whose narrative has a line break of the form
    CR LF: the two lines [a] and [b]. *)
Definition line_break_data : preview_data :=
  {| data_deepseek :=
       Some {| error := None;
               chapters :=
                 Some [{| title := Some (lit "Early years");
                          narrative := Some [97; 13; 10; 98] |}] |};
     data_claude := None |}.

Definition line_break_preview : biography :=
  fold_left perform [Generate; Display line_break_data] loaded.

(** *** Saving a version: [validateChapters] and [selectVersion] *)

(** [typeof v === 'string' && v.trim().length > 0] *)
Definition nonBlankString (v : value) : bool :=
  match v with
  | VStr s => negb (bool_decide (trim s = []))
  | _ => false
  end.

(** The arrow function given to [chapters.every]. *)
Definition validChapter (chapter : value) : bool :=
  truthy chapter
  && nonBlankString (default VUndefined (getProp chapter (lit "title")))
  && nonBlankString (default VUndefined (getProp chapter (lit "narrative"))).

Definition validateChapters (chapters : value) : bool :=
  match chapters with
  | VArr l => forallb validChapter l
  | _ => false
  end.

(** An object that [selectVersion] pushes to [chapters]. *)
Record saved_chapter := {
  saved_title : jsstring;
  saved_narrative : jsstring
}.

Definition chapterValue (c : saved_chapter) : value :=
  VObj [(lit "title", VStr (saved_title c));
        (lit "narrative", VStr (saved_narrative c))].

(** The [forEach] over the [.chapter-preview] elements, from the element
    with the index [index] on. *)
Fixpoint collect (index : nat) (chapterElements : list chapter_preview)
  : list saved_chapter :=
  match chapterElements with
  | [] => []
  | el :: rest =>
      {| saved_title :=
           match heading el with
           | [] => lit "Chapter " ++ decimal (N.of_nat (S index))
           | _ :: _ => heading el
           end;
         saved_narrative := textContent (narrativeEl el) |}
      :: collect (S index) rest
  end.

(** What follows ['Error saving selection: '] in the alert. *)
Inductive save_error :=
  | ServerSaid (message : value)       (* data.message *)
  | UnknownError                       (* 'Unknown error' *)
  | Rejection (message : jsstring)     (* error.message of a rejected promise *)
  | TypeErrorMessage.                  (* of a property read on null *)

Inductive select_alert :=
  | NoChaptersToSave       (* 'No chapters to save for this version.' *)
  | SomeChaptersEmpty      (* 'Some chapters are empty. Please edit ...' *)
  | ErrorSaving (e : save_error).

Inductive select_effect :=
  | PostSaveEdits (chapters : list saved_chapter) (m : model)
      (* POST /api/export/biography/save-edits *)
  | SelectAlert (a : select_alert)
  | SelectConsoleError.

(** [biographyState.selectedChapters], [biographyState.currentModel] and
    [window.selectedBiographyChapters]. *)
Record selection := {
  selectedChapters : option (list saved_chapter);
  currentModel : option model;
  selectedBiographyChapters : option (list saved_chapter)
}.

(** [selectVersion] up to its [await]: what it does and, when it posts
    them, the chapters.  [confirmed] is the answer to the dialog, which is
    asked for only when there are unsaved edits. *)
Definition selectVersion_begin (m : model) (confirmed : bool) (b : biography)
  : list select_effect * option (list saved_chapter) :=
  if hasUnsavedEdits b && negb confirmed then ([], None)
  else
    match chapters_of m b with
    | [] => ([SelectAlert NoChaptersToSave], None)
    | _ :: _ =>
        let chapters := collect 0 (chapters_of m b) in
        if validateChapters (VArr (chapterValue <$> chapters))
        then ([PostSaveEdits chapters m], Some chapters)
        else ([SelectAlert SomeChaptersEmpty], None)
    end.

Definition selectVersion_catch (e : save_error) (b : biography) (s : selection)
  : biography * selection * list select_effect :=
  (b, s, [SelectConsoleError; SelectAlert (ErrorSaving e)]).

(** [selectVersion] from the point where the response has arrived;
    [actions] tells whether the modal has a [.biography-actions] then, the
    element that [showBiographyPDFOption] fills and that holds the
    warning about unsaved edits. *)
Definition selectVersion_resume (m : model) (chapters : list saved_chapter)
  (o : outcome) (actions : bool) (b : biography) (s : selection)
  : biography * selection * list select_effect :=
  match o with
  | FetchRejected message | JsonRejected _ message =>
      selectVersion_catch (Rejection message) b s
  | Json _ data =>
      match getProp data (lit "status"), getProp data (lit "message") with
      | Some status, Some message =>
          if strictEqStr status (lit "success") then
            ({| modal := modal b;
                deepseek_chapters := deepseek_chapters b;
                claude_chapters := claude_chapters b;
                unsaved_warning := if actions then None else unsaved_warning b;
                originalTexts := originalTexts b;
                hasUnsavedEdits := false |},
             {| selectedChapters := Some chapters;
                currentModel := Some m;
                selectedBiographyChapters :=
                  if actions then Some chapters
                  else selectedBiographyChapters s |},
             [])
          else
            selectVersion_catch
              (if truthy message then ServerSaid message else UnknownError) b s
      | _, _ => selectVersion_catch TypeErrorMessage b s
      end
  end.

(** The chapters of the server's answer as they are: each with its
    narrative and with its title or, when it has none, [Chapter n]. *)
Fixpoint generated (index : nat) (chapters : list chapter) : list saved_chapter :=
  match chapters with
  | [] => []
  | c :: rest =>
      {| saved_title :=
           match title c with
           | Some ((_ :: _) as t) => t
           | _ => lit "Chapter " ++ decimal (N.of_nat (S index))
           end;
         saved_narrative := default [] (narrative c) |}
      :: generated (S index) rest
  end.

(** The chapters as the parser read them from the markup: the narrative
    and the title as parsed, and [Chapter n] for a chapter without a title
    or with a title of which the parser left nothing. *)
Fixpoint displayed (index : nat) (chapters : list chapter) : list saved_chapter :=
  match chapters with
  | [] => []
  | c :: rest =>
      {| saved_title :=
           match parsedText (default [] (title c)) with
           | (_ :: _) as t => t
           | [] => lit "Chapter " ++ decimal (N.of_nat (S index))
           end;
         saved_narrative := parsedText (default [] (narrative c)) |}
      :: displayed (S index) rest
  end.

(** A string has a character that [trim] leaves. *)
Definition nonBlank (s : jsstring) : Prop :=
  Exists (fun c => isWhiteSpace c = false) s.

(** Chapters to display and to select, and the first of them while the
    user edits it. *)
Definition example_chapters : list chapter :=
  [{| title := Some (lit "Early years");
      narrative := Some (lit "Born in 1950 in Leeds.") |};
   {| title := None; narrative := Some (lit "The band played on.") |}].

Definition example_editing : biography :=
  textareaInput deepseek 0 (lit "Born in Leeds.")
    (editChapter deepseek 0 (displayVersion deepseek example_chapters loaded)).

Definition example_edited : chapter_preview :=
  {| heading := lit "Early years";
     narrativeEl :=
       EditContainer (lit "Born in 1950 in Leeds.") (lit "Born in Leeds.")
                     (characters (lit "Born in Leeds."));
     editBtn := DisplayNone;
     footerEl := DisplayNone;
     footer_small := characters (lit "Born in 1950 in Leeds.") |}.

(** *** The PDF exports: [generatePDF] and [generateFamilyAlbum] *)

(** What is generated: [type === 'full' ? 'Complete' : 'Summary'] for
    [generatePDF], the album for [generateFamilyAlbum]. *)
Inductive document_kind := Complete | Summary | Album.

Definition pdf_kind (type : jsstring) : document_kind :=
  if bool_decide (type = lit "full") then Complete else Summary.

Definition is_album (k : document_kind) : bool :=
  match k with Album => true | _ => false end.

(** [a.download] *)
Definition download_name (k : document_kind) : jsstring :=
  match k with
  | Complete => lit "family_story_full.pdf"
  | Summary => lit "family_story_summary.pdf"
  | Album => lit "family_album.pdf"
  end.

(** The content of [#export-status]. *)
Inductive status_banner :=
  | Spinner (k : document_kind)
      (* 'Generating Complete PDF...', 'Creating Family Album PDF...' *)
  | GeneratedSuccessfully (k : document_kind)
  | ServerError (message : jsstring)       (* 'Error: ' + message *)
  | RequestTimeout (album : bool)
      (* 'Request timeout. The PDF is taking too long to generate.' *)
  | FailedToGenerate (album : bool).
      (* 'Failed to generate PDF. Make sure the server is running.' *)

(** The banners of the [catch] clause. *)
Definition is_failure_banner (s : status_banner) : bool :=
  match s with
  | RequestTimeout _ | FailedToGenerate _ => true
  | _ => false
  end.

Inductive export_effect :=
  | SetAbortTimeout (ms : N)      (* setTimeout(() => controller.abort(), ms) *)
  | PostGenerate (url : jsstring)
  | ClearAbortTimeout             (* clearTimeout(timeoutId) in the try block *)
  | ClearGlobalTimeout            (* clearTimeout(timeoutId) in the catch clause *)
  | Download (filename : jsstring)
  | ExportConsoleError.

(** How the promise of the call is settled. *)
Inductive settlement := Fulfilled | ReferenceError.

(** What comes back: the request is rejected, or the response is there and
    its body is read with [blob()] when [response.ok] and with [json()]
    otherwise.  [abort] tells whether the [name] of the error is
    ['AbortError'], as it is when the timer aborts the request. *)
Inductive response :=
  | RequestRejected (abort : bool)
  | OkBlob
  | OkBlobRejected (abort : bool)
  | NotOkJson (body : value)
  | NotOkJsonRejected (abort : bool).

Record export_result := {
  banner : status_banner;
  export_effects : list export_effect;
  promise : settlement
}.

(** The [catch] clause.  [timeoutId] is declared with [const] in the block
    of [try], which the [catch] clause is not part of: there the name is
    looked up in the scopes around the function, where only a global
    binding can provide it.  [timeoutId_bound] tells whether the page has
    one; without it [clearTimeout(timeoutId)] throws a [ReferenceError]
    and the rest of the clause does not run. *)
Definition export_catch (timeoutId_bound album abort : bool)
  (before : status_banner) (done : list export_effect) : export_result :=
  if timeoutId_bound then
    {| banner := if abort then RequestTimeout album else FailedToGenerate album;
       export_effects := done ++ [ExportConsoleError; ClearGlobalTimeout];
       promise := Fulfilled |}
  else
    {| banner := before;
       export_effects := done ++ [ExportConsoleError];
       promise := ReferenceError |}.

(** The two functions from the point where the request is settled; they
    differ in their texts only. *)
Definition export_resume (timeoutId_bound : bool) (k : document_kind)
  (r : response) : export_result :=
  let catch := export_catch timeoutId_bound (is_album k) in
  match r with
  | RequestRejected abort => catch abort (Spinner k) []
  | OkBlob =>
      {| banner := GeneratedSuccessfully k;
         export_effects := [ClearAbortTimeout; Download (download_name k)];
         promise := Fulfilled |}
  | OkBlobRejected abort => catch abort (Spinner k) [ClearAbortTimeout]
  | NotOkJson body =>
      match getProp body (lit "message") with
      | Some message =>
          {| banner :=
               ServerError
                 (ToString (if truthy message then message
                            else VStr (lit "Unknown error")));
             export_effects := [ClearAbortTimeout];
             promise := Fulfilled |}
      | None => catch false (Spinner k) [ClearAbortTimeout]
      end
  | NotOkJsonRejected abort => catch abort (Spinner k) [ClearAbortTimeout]
  end.

(** [generatePDF] up to its first [await] ... *)
Definition generatePDF_begin (type : jsstring)
  : status_banner * list export_effect :=
  (Spinner (pdf_kind type),
   [SetAbortTimeout 300000; PostGenerate (lit "/api/pdf/generate/" ++ type)]).

(** ... and from there on. *)
Definition generatePDF_resume (timeoutId_bound : bool) (type : jsstring)
  (r : response) : export_result :=
  export_resume timeoutId_bound (pdf_kind type) r.

Definition generateFamilyAlbum_begin : status_banner * list export_effect :=
  (Spinner Album,
   [SetAbortTimeout 300000; PostGenerate (lit "/api/pdf/generate/album")]).

Definition generateFamilyAlbum_resume (timeoutId_bound : bool) (r : response)
  : export_result :=
  export_resume timeoutId_bound Album r.

End ExportJs.

(** ** The media manager: selecting and uploading files *)

Module Media.

(** A [File] of the browser. *)
Record File := {
  name : jsstring;
  type : jsstring;
  size : N
}.

Definition allowedTypes : list jsstring :=
  map lit ["image/jpeg"; "image/png"; "image/gif"; "image/webp";
           "application/pdf"; "audio/mpeg"; "audio/wav";
           "video/mp4"; "video/quicktime"]%string.

(** The alternatives of [/\.(jpg|jpeg|...|avi)$/]. *)
Definition extensions : list jsstring :=
  map lit ["jpg"; "jpeg"; "png"; "gif"; "webp"; "pdf"; "mp3"; "wav";
           "mp4"; "mov"; "avi"]%string.

Definition maxSize : N := 50 * 1024 * 1024.

(** The inputs of the upload form, [''] for an input that is not there. *)
Record details := {
  title : jsstring;
  description : jsstring;
  memoryDate : jsstring;
  year : jsstring;
  people : jsstring
}.

Definition no_details : details :=
  {| title := []; description := []; memoryDate := []; year := []; people := [] |}.

(** The [FormData] posted to [/api/media/upload]. *)
Record upload := {
  media : File;
  form_title : jsstring;
  form_description : jsstring;
  form_memory_date : jsstring;
  form_year : jsstring;
  form_people : jsstring;
  original_filename : jsstring;
  file_size : N
}.

(** What follows the file name in an entry of [errors]. *)
Inductive reason :=
  | ServerMessage (message : value)   (* result.message *)
  | UploadFailed                      (* 'Upload failed' *)
  | Thrown (message : jsstring)       (* error.message of a rejected promise *)
  | ThrownTypeError.                  (* error.message of a property read on null *)

Inductive message :=
  | NoValidFiles
  | ExceedLimit (names : list jsstring)
  | PleaseSelect
  | Uploaded (successCount : nat)
  | FailedToUpload (errorCount : nat) (errors : list (jsstring * reason)).

Inductive message_type := success | error.

Inductive console :=
  | AlreadyInProgress
  | Starting (files : nat)
  | Uploading (file : jsstring)
  | Success (file : jsstring)
  | Failed (file : jsstring) (r : reason)
  | Error (file : jsstring) (r : reason)
  | Summary (m : message).

Inductive effect :=
  | ShowMessage (m : message) (t : message_type)
  | FetchUpload (u : upload)
  | Console (c : console)
  | ClearTimeout (timer : nat)
  | SetTimeout (timer : nat)
  | LoadMediaGallery.

(** Arrays live in a store and are named by their position in it. *)
Abbreviation loc := nat.

Definition deref (store : list (list File)) (l : loc) : list File :=
  default [] (store !! l).

Record manager := {
  selectedFiles : loc;
  uploadInProgress : bool;
  galleryLoadTimeout : option nat;
  uploadBtn_disabled : bool;
  uploadBtn_innerHTML : jsstring;
  uploadForm_display : bool;      (* 'block' rather than 'none' *)
  form : details;
  preview : list File             (* the items of the preview container *)
}.

(** The local variables of a call of [handleUpload] that is in its loop:
    the array and the position of the iterator of [for ... of], the tallies,
    and what was read before the loop. *)
Record task := {
  iterated : loc;
  nextIndex : nat;
  successCount : nat;
  errorCount : nat;
  errors : list (jsstring * reason);
  originalBtnText : jsstring;
  entered : details
}.

(** The calls of [handleUpload] that are suspended at their [await], each
    with the file whose upload it awaits. *)
Record world := {
  store : list (list File);
  mgr : manager;
  tasks : list (File * task);
  log : list effect;
  timers : nat
}.

Definition uploadingLabel : jsstring :=
  lit "<i class=" ++ dq ++ lit "fas fa-spinner fa-spin" ++ dq
  ++ lit "></i> Uploading...".

(** The state that the constructor leaves, with the label of the button. *)
Definition constructed (label : jsstring) : world :=
  {| store := [[]];
     mgr := {| selectedFiles := 0%nat; uploadInProgress := false;
               galleryLoadTimeout := None; uploadBtn_disabled := false;
               uploadBtn_innerHTML := label; uploadForm_display := false;
               form := no_details; preview := [] |};
     tasks := [];
     log := [];
     timers := 0%nat |}.

Definition selected (w : world) : list File :=
  deref (store w) (selectedFiles (mgr w)).

Definition emit (effs : list effect) (w : world) : world :=
  {| store := store w; mgr := mgr w; tasks := tasks w;
     log := log w ++ effs; timers := timers w |}.

Definition set_mgr (m : manager) (w : world) : world :=
  {| store := store w; mgr := m; tasks := tasks w;
     log := log w; timers := timers w |}.

Definition set_tasks (ts : list (File * task)) (w : world) : world :=
  {| store := store w; mgr := mgr w; tasks := ts;
     log := log w; timers := timers w |}.

(** [this.selectedFiles = files] for an array that was just created. *)
Definition assign_selectedFiles (files : list File) (w : world) : world :=
  {| store := store w ++ [files];
     mgr := {| selectedFiles := length (store w);
               uploadInProgress := uploadInProgress (mgr w);
               galleryLoadTimeout := galleryLoadTimeout (mgr w);
               uploadBtn_disabled := uploadBtn_disabled (mgr w);
               uploadBtn_innerHTML := uploadBtn_innerHTML (mgr w);
               uploadForm_display := uploadForm_display (mgr w);
               form := form (mgr w); preview := preview (mgr w) |};
     tasks := tasks w; log := log w; timers := timers w |}.

Definition set_store (st : list (list File)) (w : world) : world :=
  {| store := st; mgr := mgr w; tasks := tasks w;
     log := log w; timers := timers w |}.

Definition with_preview (items : list File) (shown : bool) (m : manager)
  : manager :=
  {| selectedFiles := selectedFiles m;
     uploadInProgress := uploadInProgress m;
     galleryLoadTimeout := galleryLoadTimeout m;
     uploadBtn_disabled := uploadBtn_disabled m;
     uploadBtn_innerHTML := uploadBtn_innerHTML m;
     uploadForm_display := shown;
     form := form m; preview := items |}.

Definition with_upload (inProgress : bool) (label : jsstring) (m : manager)
  : manager :=
  {| selectedFiles := selectedFiles m;
     uploadInProgress := inProgress;
     galleryLoadTimeout := galleryLoadTimeout m;
     uploadBtn_disabled := inProgress;
     uploadBtn_innerHTML := label;
     uploadForm_display := uploadForm_display m;
     form := form m; preview := preview m |}.

Definition with_timeout (t : option nat) (m : manager) : manager :=
  {| selectedFiles := selectedFiles m;
     uploadInProgress := uploadInProgress m;
     galleryLoadTimeout := t;
     uploadBtn_disabled := uploadBtn_disabled m;
     uploadBtn_innerHTML := uploadBtn_innerHTML m;
     uploadForm_display := uploadForm_display m;
     form := form m; preview := preview m |}.

Definition with_form (d : details) (shown : bool) (m : manager) : manager :=
  {| selectedFiles := selectedFiles m;
     uploadInProgress := uploadInProgress m;
     galleryLoadTimeout := galleryLoadTimeout m;
     uploadBtn_disabled := uploadBtn_disabled m;
     uploadBtn_innerHTML := uploadBtn_innerHTML m;
     uploadForm_display := shown;
     form := d; preview := preview m |}.

Definition showMessage (m : message) (t : message_type) (w : world) : world :=
  emit [ShowMessage m t] w.

Definition showPreview (w : world) : world :=
  match selected w with
  | [] => set_mgr (with_preview [] false (mgr w)) w
  | _ :: _ => set_mgr (with_preview (selected w) true (mgr w)) w
  end.

Section WithLowerCase.

Variable toLowerCase : jsstring -> jsstring.

(** [file.name.toLowerCase().match(/\.(jpg|...|avi)$/)] is not [null]. *)
Definition matchesExtension (fileName : jsstring) : bool :=
  existsb (fun e => endsWith (toLowerCase fileName) (46 :: e)) extensions.

Definition allowedFile (f : File) : bool :=
  bool_decide (type f ∈ allowedTypes) || matchesExtension (name f).

Definition handleFileSelect (files : list File) (w : world) : world :=
  let validFiles := List.filter allowedFile files in
  match validFiles with
  | [] => showMessage NoValidFiles error w
  | _ :: _ =>
      let oversizedFiles := List.filter (fun f => maxSize <? size f) validFiles in
      let w' :=
        match oversizedFiles with
        | _ :: _ =>
            assign_selectedFiles
              (List.filter (fun f => size f <=? maxSize) validFiles)
              (showMessage (ExceedLimit (map name oversizedFiles)) error w)
        | [] => assign_selectedFiles validFiles w
        end in
      match selected w' with
      | _ :: _ => showPreview w'
      | [] => w'
      end
  end.

End WithLowerCase.

(** [this.selectedFiles.splice(index, 1)] changes the array in place. *)
Definition removeFile (index : nat) (w : world) : world :=
  showPreview
    (set_store (<[selectedFiles (mgr w) := delete index (selected w)]> (store w)) w).

Definition debouncedGalleryRefresh (w : world) : world :=
  let cleared :=
    match galleryLoadTimeout (mgr w) with
    | Some timer => emit [ClearTimeout timer] w
    | None => w
    end in
  {| store := store cleared;
     mgr := with_timeout (Some (timers cleared)) (mgr cleared);
     tasks := tasks cleared;
     log := log cleared ++ [SetTimeout (timers cleared)];
     timers := S (timers cleared) |}.

(** The callback of the timer, which only the pending timer runs. *)
Definition galleryTimer (w : world) : world :=
  match galleryLoadTimeout (mgr w) with
  | Some _ => set_mgr (with_timeout None (mgr w)) (emit [LoadMediaGallery] w)
  | None => w
  end.

Definition formData (d : details) (f : File) : upload :=
  {| media := f;
     form_title := match title d with [] => name f | _ :: _ => title d end;
     form_description := description d;
     form_memory_date := memoryDate d;
     form_year := year d;
     form_people := people d;
     original_filename := name f;
     file_size := size f |}.

Definition succeeded (t : task) : task :=
  {| iterated := iterated t; nextIndex := nextIndex t;
     successCount := S (successCount t); errorCount := errorCount t;
     errors := errors t;
     originalBtnText := originalBtnText t; entered := entered t |}.

Definition failed (f : File) (r : reason) (t : task) : task :=
  {| iterated := iterated t; nextIndex := nextIndex t;
     successCount := successCount t; errorCount := S (errorCount t);
     errors := errors t ++ [(name f, r)];
     originalBtnText := originalBtnText t; entered := entered t |}.

(** The rest of the loop body once the upload of [f] has settled. *)
Definition settle (f : File) (o : outcome) (t : task) : task * list effect :=
  match o with
  | FetchRejected m | JsonRejected _ m =>
      (failed f (Thrown m) t, [Console (Error (name f) (Thrown m))])
  | Json ok result =>
      match getProp result (lit "status"), getProp result (lit "message") with
      | Some status, Some m =>
          if ok && strictEqStr status (lit "success") then
            (succeeded t, [Console (Success (name f))])
          else
            let r := if truthy m then ServerMessage m else UploadFailed in
            (failed f r t, [Console (Failed (name f) r)])
      | _, _ =>
          (failed f ThrownTypeError t,
           [Console (Error (name f) ThrownTypeError)])
      end
  end.

Definition started (w : world) : task :=
  {| iterated := selectedFiles (mgr w); nextIndex := 0%nat;
     successCount := 0%nat; errorCount := 0%nat; errors := [];
     originalBtnText := uploadBtn_innerHTML (mgr w);
     entered := form (mgr w) |}.

Definition stepped (t : task) : task :=
  {| iterated := iterated t; nextIndex := S (nextIndex t);
     successCount := successCount t; errorCount := errorCount t;
     errors := errors t;
     originalBtnText := originalBtnText t; entered := entered t |}.

(** [handleUpload] after its loop. *)
Definition finish (t : task) (w : world) : world :=
  let w1 := set_mgr (with_upload false (originalBtnText t) (mgr w)) w in
  let w2 :=
    match successCount t with
    | S _ =>
        let w3 :=
          debouncedGalleryRefresh
            (showPreview
               (assign_selectedFiles []
                  (emit [Console (Summary (Uploaded (successCount t)))] w1))) in
        showMessage (Uploaded (successCount t)) success
          (set_mgr (with_form no_details false (mgr w3)) w3)
    | O => w1
    end in
  match errorCount t with
  | S _ =>
      showMessage (FailedToUpload (errorCount t) (errors t)) error
        (emit [Console (Summary (FailedToUpload (errorCount t) (errors t)))] w2)
  | O => w2
  end.

(** The head of the loop: the iterator reads the array at its position,
    and the call either suspends on the upload of the next file or leaves
    the loop. *)
Definition advance (t : task) (w : world) : world :=
  match deref (store w) (iterated t) !! nextIndex t with
  | Some f =>
      set_tasks (tasks w ++ [(f, stepped t)])
        (emit [Console (Uploading (name f));
               FetchUpload (formData (entered t) f)] w)
  | None => finish t w
  end.

(** [handleUpload] up to its first [await]. *)
Definition handleUpload (w : world) : world :=
  match selected w with
  | [] => showMessage PleaseSelect error w
  | _ :: _ =>
      if uploadInProgress (mgr w) then emit [Console AlreadyInProgress] w
      else
        advance (started w)
          (emit [Console (Starting (length (selected w)))]
             (set_mgr (with_upload true uploadingLabel (mgr w)) w))
  end.

(** The [n]-th suspended call continues with the outcome of its upload. *)
Definition resume (n : nat) (o : outcome) (w : world) : world :=
  match tasks w !! n with
  | Some (f, t) =>
      let '(t', effs) := settle f o t in
      advance t' (emit effs (set_tasks (delete n (tasks w)) w))
  | None => w
  end.

(** What the browser delivers to the manager. *)
Inductive event :=
  | FileSelect (files : list File)   (* change of the input, or a drop *)
  | RemoveFile (index : nat)         (* click on a remove button *)
  | FormInput (d : details)          (* the user fills in the form *)
  | Submit                           (* submit of the upload form *)
  | Settled (n : nat) (o : outcome)  (* an awaited upload settles *)
  | TabChanged                       (* tabChanged to the media tab *)
  | Timer.                           (* the debounce timer expires *)

Section Events.

Variable toLowerCase : jsstring -> jsstring.

Definition step (w : world) (e : event) : world :=
  match e with
  | FileSelect files => handleFileSelect toLowerCase files w
  | RemoveFile index => removeFile index w
  | FormInput d =>
      set_mgr (with_form d (uploadForm_display (mgr w)) (mgr w)) w
  | Submit => handleUpload w
  | Settled n o => resume n o w
  | TabChanged => debouncedGalleryRefresh w
  | Timer => galleryTimer w
  end.

Definition run (w : world) (events : list event) : world :=
  fold_left step events w.

(** A file that may be in the selection, in the words of the
    specification: its type is one of the listed types or its lower-cased
    name ends in a dot and one of the listed extensions, and it has at
    most [maxSize] bytes. *)
Definition accepted (f : File) : Prop :=
  (type f ∈ allowedTypes
   \/ exists e front,
        e ∈ extensions /\ toLowerCase (name f) = front ++ 46 :: e)
  /\ size f <= maxSize.

(** Every array of the store holds accepted files only. *)
Definition store_accepted (w : world) : Prop :=
  Forall (Forall accepted) (store w).

End Events.


(** The uploads that a log records, in their order. *)
Definition requests (l : list effect) : list upload :=
  omap (fun e => match e with FetchUpload u => Some u | _ => None end) l.

(** The server accepts an upload. *)
Definition accepts (o : outcome) : bool :=
  match o with
  | Json true (VObj fields) =>
      strictEqStr (default VUndefined (lookup_field (lit "status") fields))
                  (lit "success")
  | _ => false
  end.

(** The events during which the array under the iterator stays as it is:
    everything but the removal of a file; the settlements are those of the
    only suspended call. *)
Definition undisturbing (e : event) : Prop :=
  match e with
  | RemoveFile _ => False
  | Settled n _ => n = 0%nat
  | _ => True
  end.

Definition outcomes_of (events : list event) : list outcome :=
  omap (fun e => match e with Settled _ o => Some o | _ => None end) events.

(** The test of [handleFileSelect] on one file: the type filter, then the
    size filter. *)
Definition acceptable (toLowerCase : jsstring -> jsstring) (f : File) : bool :=
  allowedFile toLowerCase f && (size f <=? maxSize).

(** The names of the files whose upload did not succeed. *)
Definition failures (files : list File) (outcomes : list outcome)
  : list jsstring :=
  (fun fo => name fo.1)
  <$> List.filter (fun fo => negb (accepts fo.2)) (zip files outcomes).

(** The statement of the specification about a batch that [handleUpload]
    started in the world [before] on the files [files] and that has ended
    in the world [after]: one upload for each file, in their order and
    none twice, and the loop was left with tallies that add up to the
    number of the files, with an entry in [errors] for each failure. *)
Definition tallied_batch (files : list File) (before after : world) : Prop :=
  requests (log after)
  = requests (log before) ++ (formData (form (mgr before)) <$> files)
  /\ exists t w,
       after = finish t w
       /\ (successCount t + errorCount t = length files)%nat
       /\ length (errors t) = errorCount t.

(** Files and answers to run the manager on. *)
Definition photo : File :=
  {| name := lit "Beach.JPG"; type := []; size := 2000000 |}.
Definition scan : File :=
  {| name := lit "letter.pdf"; type := lit "application/pdf"; size := 350000 |}.
Definition clip : File :=
  {| name := lit "wedding.mov"; type := lit "video/quicktime"; size := 41000000 |}.
Definition film : File :=
  {| name := lit "film.mp4"; type := lit "video/mp4"; size := 60000000 |}.
Definition program : File :=
  {| name := lit "setup.exe"; type := lit "application/octet-stream"; size := 4096 |}.

Definition stored : outcome :=
  Json true (VObj [(lit "status", VStr (lit "success"))]).
Definition refused : outcome :=
  Json false (VObj [(lit "status", VStr (lit "error"));
                    (lit "message", VStr (lit "disk full"))]).

(** The manager after the user chose three files. *)
Definition three_selected : world :=
  handleFileSelect toLowerCase_ascii [photo; program; scan; film; clip]
    (constructed (lit "Upload")).

(** What happens while the three files are uploaded: the first upload is
    stored, the user types a title, the second upload is refused. *)
Definition example_during : list event :=
  [Settled 0 stored;
   FormInput {| title := lit "Summer"; description := []; memoryDate := [];
                year := lit "1982"; people := [] |};
   Submit;
   Settled 0 refused].

(** The user removes the first file of the preview while it is uploaded. *)
Definition example_removal : list event :=
  [Submit; RemoveFile 0; Settled 0 stored; Settled 0 stored].

(** *** The debounce timer of the gallery *)

(** The timers that a log sets with [setTimeout] and clears with
    [clearTimeout], and the number of gallery loads that expired timers
    started. *)
Definition timeouts_set (l : list effect) : list nat :=
  omap (fun e => match e with SetTimeout timer => Some timer | _ => None end) l.

Definition timeouts_cleared (l : list effect) : list nat :=
  omap (fun e => match e with ClearTimeout timer => Some timer | _ => None end) l.

Definition gallery_loads (l : list effect) : nat :=
  length (List.filter
            (fun e => match e with LoadMediaGallery => true | _ => false end) l).

(** Every timer that was set has been cleared, has expired and started one
    load of the gallery, or is the one that [galleryLoadTimeout] holds. *)
Definition debounced (w : world) : Prop :=
  NoDup (timeouts_set (log w))
  /\ NoDup (timeouts_cleared (log w))
  /\ timeouts_cleared (log w) ⊆ timeouts_set (log w)
  /\ (forall timer, timer ∈ timeouts_set (log w) -> (timer < timers w)%nat)
  /\ (forall timer, galleryLoadTimeout (mgr w) = Some timer ->
        timer ∈ timeouts_set (log w) /\ timer ∉ timeouts_cleared (log w))
  /\ length (timeouts_set (log w))
     = (length (timeouts_cleared (log w)) + gallery_loads (log w)
        + length (option_list (galleryLoadTimeout (mgr w))))%nat.

(** *** The preview and the selection *)

(** While files are selected the preview shows exactly these files and the
    upload form is displayed. *)
Definition preview_in_step (w : world) : Prop :=
  selected w = []
  \/ (preview (mgr w) = selected w /\ uploadForm_display (mgr w) = true).

(** The settlements of the uploads of one batch during which nothing else
    happens. *)
Definition settlements (outcomes : list outcome) : list event :=
  Settled 0 <$> outcomes.

(** *** The gallery: [loadMediaGallery] and [renderMediaGallery] *)

(** The class that an item of the preview or of the gallery is given. *)
Inductive kind := image | audio | video | pdf | document.

(** The branches of [showPreview] on [file.type]. *)
Definition previewKind (f : File) : kind :=
  if startsWith (type f) (lit "image/") then image
  else if startsWith (type f) (lit "audio/") then audio
  else if startsWith (type f) (lit "video/") then video
  else if bool_decide (type f = lit "application/pdf") then pdf
  else document.

(** [s.split('/')[0]]: what comes before the first slash. *)
Fixpoint beforeSlash (s : jsstring) : jsstring :=
  match s with
  | [] => []
  | c :: rest => if c =? 47 then [] else c :: beforeSlash rest
  end.

(** The branches of [renderMediaGallery] on an item of the server's answer;
    [None] when the item makes the loop throw a [TypeError]: an item that
    is [null], a [file_type] that is neither a string nor missing, or, in
    the last test, an [original_filename] of that sort. *)
Definition mediaKind (item : value) : option kind :=
  match getProp item (lit "file_type"),
        getProp item (lit "original_filename") with
  | Some file_type, Some original_filename =>
      match
        match file_type with
        | VUndefined | VNull => Some VUndefined
        | VStr s => Some (VStr (beforeSlash s))
        | _ => None
        end
      with
      | None => None
      | Some first =>
          match
            if truthy first then first
            else if truthy file_type then file_type
            else VStr (lit "document")
          with
          | VStr fileType =>
              if startsWith fileType (lit "image") then Some image
              else if startsWith fileType (lit "audio") then Some audio
              else if startsWith fileType (lit "video") then Some video
              else if strictEqStr file_type (lit "application/pdf") then Some pdf
              else
                match original_filename with
                | VUndefined | VNull => Some document
                | VStr fileName =>
                    Some (if endsWith fileName (lit ".pdf") then pdf
                          else document)
                | _ => None
                end
          | _ => None
          end
      end
  | _, _ => None
  end.














(** *** Editing the title of an image in the gallery *)

Inductive css_display := css_unset | css_none | css_block | css_inline_block.

(** The parts of a [.media-item] of the class [image] that the editing of
    its title reads and writes. *)
Record title_editor := {
  media_id : jsstring;             (* dataset.id *)
  title_display : jsstring;        (* textContent of .title-display *)
  title_edit : jsstring;           (* value of the input .title-edit *)
  title_original : jsstring;       (* dataset.original of the input *)
  title_display_style : css_display;
  title_edit_style : css_display;
  save_title_style : css_display;
  cancel_title_style : css_display
}.

Definition with_title_styles (shown edit save cancel : css_display)
  (it : title_editor) : title_editor :=
  {| media_id := media_id it; title_display := title_display it;
     title_edit := title_edit it; title_original := title_original it;
     title_display_style := shown; title_edit_style := edit;
     save_title_style := save; cancel_title_style := cancel |}.

Definition enableTitleEditing (it : title_editor) : title_editor :=
  with_title_styles css_none css_block css_inline_block css_inline_block it.

(** The user changes the value of the input, which is of the type [text]. *)
Definition typeTitle (value : jsstring) (it : title_editor) : title_editor :=
  {| media_id := media_id it; title_display := title_display it;
     title_edit := stripNewlines value; title_original := title_original it;
     title_display_style := title_display_style it;
     title_edit_style := title_edit_style it;
     save_title_style := save_title_style it;
     cancel_title_style := cancel_title_style it |}.

Definition cancelTitleEditing (it : title_editor) : title_editor :=
  with_title_styles css_block css_none css_none css_none
    {| media_id := media_id it; title_display := title_display it;
       title_edit := stripNewlines (title_original it);
       title_original := title_original it;
       title_display_style := title_display_style it;
       title_edit_style := title_edit_style it;
       save_title_style := save_title_style it;
       cancel_title_style := cancel_title_style it |}.

(** The [error.message] of the [catch] clause of [saveTitle]. *)
Inductive update_error :=
  | UpdateMessage (message : value)   (* result.message *)
  | UpdateFailed                      (* 'Update failed' *)
  | UpdateThrown (message : jsstring) (* of a rejected promise *)
  | UpdateTypeError.                  (* of a property read on null *)

Inductive title_message :=
  | TitleEmpty                       (* 'Title cannot be empty' *)
  | TitleUpdated                     (* 'Title updated successfully' *)
  | TitleFailed (r : update_error).  (* 'Failed to update title: ' + error.message *)

Inductive title_effect :=
  | PutTitle (id newTitle : jsstring)   (* PUT /api/media/${mediaId}/update *)
  | TitleMessage (m : title_message) (t : message_type)
  | TitleConsoleError.

(** [saveTitle] up to its [await]: what it does and, when it sends it, the
    new title. *)
Definition saveTitle_begin (it : title_editor)
  : list title_effect * option jsstring :=
  let newTitle := trim (title_edit it) in
  match newTitle with
  | [] => ([TitleMessage TitleEmpty error], None)
  | _ :: _ => ([PutTitle (media_id it) newTitle], Some newTitle)
  end.

(** The response is there and its status is one of success. *)
Definition response_ok (o : outcome) : bool :=
  match o with
  | FetchRejected _ => false
  | JsonRejected ok _ | Json ok _ => ok
  end.

(** [saveTitle] from the point where the response has arrived. *)
Definition saveTitle_resume (newTitle : jsstring) (o : outcome)
  (it : title_editor) : title_editor * list title_effect :=
  let failure (r : update_error) :=
    (cancelTitleEditing it,
     [TitleConsoleError; TitleMessage (TitleFailed r) error]) in
  match o with
  | FetchRejected m => failure (UpdateThrown m)
  | JsonRejected true _ | Json true _ =>
      (cancelTitleEditing
         {| media_id := media_id it; title_display := newTitle;
            title_edit := title_edit it; title_original := newTitle;
            title_display_style := title_display_style it;
            title_edit_style := title_edit_style it;
            save_title_style := save_title_style it;
            cancel_title_style := cancel_title_style it |},
       [TitleMessage TitleUpdated success])
  | JsonRejected false m => failure (UpdateThrown m)
  | Json false result =>
      match getProp result (lit "message") with
      | Some m => failure (if truthy m then UpdateMessage m else UpdateFailed)
      | None => failure UpdateTypeError
      end
  end.

(** A string without a line break, as the value of an [input] of the type
    [text] is. *)
Definition oneLine (s : jsstring) : Prop := stripNewlines s = s.

(** A photograph that is selected, and the item that the server returns for
    it. *)
Definition example_photo : File :=
  {| name := lit "beach.jpg"; type := lit "image/jpeg"; size := 2048 |}.

Definition example_item : list (jsstring * value) :=
  [(lit "id", VNum 7);
   (lit "filename", VStr (lit "20240101_beach.jpg"));
   (lit "original_filename", VStr (lit "beach.jpg"));
   (lit "file_type", VStr (lit "image/jpeg"))].

End Media.

(** ** The [MediaLinker] component: reordering linked media *)

Module Linker.

(** A media record of [/api/memories/${memoryId}/media]. *)
Record media := {
  id : Z;
  filename : jsstring;
  title : option jsstring
}.

(** An element of a JavaScript array: nothing was ever stored at the index,
    [undefined] was stored, or a media record. *)
Inductive cell :=
  | Hole
  | Undefined
  | Item (m : media).

(** [a[i]]: reading a hole or past the end gives [undefined]. *)
Definition get (a : list cell) (i : nat) : cell :=
  match a !! i with
  | Some (Item m) => Item m
  | _ => Undefined
  end.

(** [a[i] = c]: a write past the end lengthens the array. *)
Definition set (a : list cell) (i : nat) (c : cell) : list cell :=
  if (i <? length a)%nat then <[i := c]> a
  else a ++ replicate (i - length a) Hole ++ [c].

(** [[a[i], a[j]] = [a[j], a[i]]]: the right-hand side is read first, then
    the two elements are written from left to right. *)
Definition swap (a : list cell) (i j : nat) : list cell :=
  let first := get a j in
  let second := get a i in
  set (set a i first) j second.

(** [newOrder.map(m => m.id)]: [map] passes over holes and the arrow
    function throws on [undefined] ([None]). *)
Fixpoint ids (a : list cell) : option (list (option Z)) :=
  match a with
  | [] => Some []
  | Hole :: rest => cons None <$> ids rest
  | Undefined :: _ => None
  | Item m :: rest => cons (Some (id m)) <$> ids rest
  end.

Inductive effect :=
  | PostOrder (media_ids : list (option Z))  (* POST /api/memories/${memoryId}/media *)
  | OnUpdate
  | ConsoleError.

(** [handleReorder]: the new value of the state [linkedMedia], whose value
    at the call is [current], and what the call did. [onUpdate] tells
    whether the component was given the callback. *)
Definition handleReorder (onUpdate : bool) (current newOrder : list cell)
  (o : outcome) : list cell * list effect :=
  match ids newOrder with
  | None => (current, [ConsoleError])
  | Some mediaIds =>
      match o with
      | FetchRejected _ | JsonRejected _ _ =>
          (current, [PostOrder mediaIds; ConsoleError])
      | Json _ data =>
          match getProp data (lit "success") with
          | None => (current, [PostOrder mediaIds; ConsoleError])
          | Some s =>
              if truthy s then
                (newOrder,
                 PostOrder mediaIds :: if onUpdate then [OnUpdate] else [])
              else (current, [PostOrder mediaIds])
          end
      end
  end.

Definition moveUp (onUpdate : bool) (linkedMedia : list media) (index : nat)
  (o : outcome) : list cell * list effect :=
  let current := Item <$> linkedMedia in
  match index with
  | O => (current, [])
  | S before => handleReorder onUpdate current (swap current before index) o
  end.

Definition moveDown (onUpdate : bool) (linkedMedia : list media) (index : nat)
  (o : outcome) : list cell * list effect :=
  let current := Item <$> linkedMedia in
  if bool_decide (Z.of_nat index = (Z.of_nat (length linkedMedia) - 1)%Z)
  then (current, [])
  else handleReorder onUpdate current (swap current index (S index)) o.

(** The server reports success. *)
Definition confirms (o : outcome) : bool :=
  match o with
  | Json _ (VObj fields) =>
      truthy (default VUndefined (lookup_field (lit "success") fields))
  | _ => false
  end.

Definition posts (l : list effect) : list (list (option Z)) :=
  omap (fun e => match e with PostOrder i => Some i | _ => None end) l.

(** The list with the entries at the positions [i] and [j] exchanged. *)
Definition exchanged (l : list media) (i j : nat) : list media :=
  match l !! i, l !! j with
  | Some x, Some y => <[j := x]> (<[i := y]> l)
  | _, _ => l
  end.

(** The selection grid: [isLinked] of a tile, and the media id for which a
    click on the tile calls [handleAddMedia], if it does. *)
Definition isLinked (linkedMedia : list media) (m : media) : bool :=
  existsb (fun l => bool_decide (id l = id m)) linkedMedia.

Definition clickTile (linkedMedia : list media) (m : media) : option Z :=
  if isLinked linkedMedia m then None else Some (id m).

(** Two linked photos, and an answer of the server that does not confirm. *)
Definition beach : media :=
  {| id := 4; filename := lit "beach.jpg"; title := Some (lit "Beach") |}.
Definition garden : media :=
  {| id := 9; filename := lit "garden.jpg"; title := None |}.

Definition declined : outcome :=
  Json false (VObj [(lit "success", VBool false);
                    (lit "error", VStr (lit "Memory not found"))]).

(** ... and one that confirms. *)
Definition confirmed : outcome :=
  Json true (VObj [(lit "success", VBool true)]).

End Linker.

(** ** [migration_add_memory_media.sql]: the join table *)

Module Schema.

(** A row of [memory_media]. [display_order] has the default 0 and
    [created_at], a time stamp, is left out. *)
Record row := {
  id : Z;
  memory_id : Z;
  media_id : Z;
  display_order : Z
}.

(** The keys of the tables [memories] and [media], which other scripts
    define, the rows of [memory_media], and the last value of its
    [AUTOINCREMENT] sequence. *)
Record database := {
  memories : gset Z;
  media : gset Z;
  memory_media : list row;
  sequence : Z
}.

Definition pair_of (r : row) : Z * Z := (memory_id r, media_id r).

(** [UNIQUE(memory_id, media_id)] *)
Definition unique_pairs (d : database) : Prop :=
  NoDup (pair_of <$> memory_media d).

(** The two [FOREIGN KEY] clauses. *)
Definition references_exist (d : database) : Prop :=
  forall r, r ∈ memory_media d ->
    memory_id r ∈ memories d /\ media_id r ∈ media d.

Definition consistent (d : database) : Prop :=
  unique_pairs d /\ references_exist d.

Definition with_rows (rows : list row) (d : database) : database :=
  {| memories := memories d; media := media d;
     memory_media := rows; sequence := sequence d |}.

(** Modelled from the spec: the statements that the server runs are not in
    the repository. A link is created when a user links a photo to a
    memory: an [INSERT] of the pair, which the table refuses ([None]) when
    it breaks the [UNIQUE] constraint or a [FOREIGN KEY]. *)
Definition link (memory medium : Z) (d : database) : option database :=
  if decide (memory ∈ memories d /\ medium ∈ media d
             /\ (memory, medium) ∉ pair_of <$> memory_media d)
  then
    Some {| memories := memories d; media := media d;
            memory_media :=
              memory_media d
              ++ [{| id := sequence d + 1; memory_id := memory;
                     media_id := medium; display_order := 0 |}];
            sequence := (sequence d + 1)%Z |}
  else None.

(** Modelled from the spec: a link is deleted individually (unlink), a
    [DELETE] of the pair. *)
Definition unlink (memory medium : Z) (d : database) : database :=
  with_rows
    (List.filter (fun r => negb (bool_decide (pair_of r = (memory, medium))))
                 (memory_media d)) d.

(** Modelled from the spec: a reordering action writes [display_order]: the
    position of the media id in the order that the client sends. *)
Definition reorder (memory : Z) (order : list Z) (d : database) : database :=
  with_rows
    ((fun r =>
        if bool_decide (memory_id r = memory) then
          match list_find (fun x => x = media_id r) order with
          | Some (position, _) =>
              {| id := id r; memory_id := memory_id r; media_id := media_id r;
                 display_order := Z.of_nat position |}
          | None => r
          end
        else r) <$> memory_media d) d.

(** Modelled from the spec: the deletion of a parent row, with
    [ON DELETE CASCADE] on the references to it. *)
Definition delete_memory (memory : Z) (d : database) : database :=
  {| memories := memories d ∖ {[memory]}; media := media d;
     memory_media :=
       List.filter (fun r => negb (bool_decide (memory_id r = memory)))
                   (memory_media d);
     sequence := sequence d |}.

(** Modelled from the spec: the same for a media item. *)
Definition delete_media (medium : Z) (d : database) : database :=
  {| memories := memories d; media := media d ∖ {[medium]};
     memory_media :=
       List.filter (fun r => negb (bool_decide (media_id r = medium)))
                   (memory_media d);
     sequence := sequence d |}.

(** Modelled from the spec: the parents are entities that are defined
    elsewhere; a memory comes into being with a key. *)
Definition insert_memory (memory : Z) (d : database) : database :=
  {| memories := {[memory]} ∪ memories d; media := media d;
     memory_media := memory_media d; sequence := sequence d |}.

(** Modelled from the spec: the same for a media item. *)
Definition insert_media (medium : Z) (d : database) : database :=
  {| memories := memories d; media := {[medium]} ∪ media d;
     memory_media := memory_media d; sequence := sequence d |}.

Inductive statement :=
  | InsertMemory (memory : Z)
  | InsertMedia (medium : Z)
  | Link (memory medium : Z)
  | Unlink (memory medium : Z)
  | Reorder (memory : Z) (order : list Z)
  | DeleteMemory (memory : Z)
  | DeleteMedia (medium : Z).

(** A statement that the table refuses leaves the database as it was. *)
Definition execute (d : database) (s : statement) : database :=
  match s with
  | InsertMemory memory => insert_memory memory d
  | InsertMedia medium => insert_media medium d
  | Link memory medium => default d (link memory medium d)
  | Unlink memory medium => unlink memory medium d
  | Reorder memory order => reorder memory order d
  | DeleteMemory memory => delete_memory memory d
  | DeleteMedia medium => delete_media medium d
  end.

(** The database after the migration. *)
Definition migrated : database :=
  {| memories := ∅; media := ∅; memory_media := []; sequence := 0 |}.

End Schema.

(** ** [profile.js]: saving the profile *)

Module Profile.

(** The values of [#user-name], [#birth-date], [#family-role] and
    [#birth-place]. *)
Record profile_form := {
  user_name : jsstring;
  birth_date : jsstring;
  family_role : jsstring;
  birth_place : jsstring
}.

Inductive profile_alert :=
  | FillRequired               (* 'Please fill in all required fields.' *)
  | Welcome (name : jsstring)  (* `Welcome to the family circle, ${name}!` *)
  | FailedToSaveProfile.       (* 'Failed to save profile.' *)

Inductive profile_effect :=
  | PostProfile (body : value)          (* POST /api/profile/save *)
  | ProfileAlert (a : profile_alert)
  | ProfileConsoleError
  | SetHeading (text : jsstring)        (* textContent of the h1 *)
  | ShowMainInterface.

(** The body of the request. *)
Definition profile_body (name : jsstring) (f : profile_form) : value :=
  VObj [(lit "name", VStr name);
        (lit "birth_date", VStr (birth_date f));
        (lit "family_role", VStr (family_role f));
        (lit "birth_place", VStr (birth_place f))].

(** [saveProfile] up to its [await]: what it does and, when it sends the
    profile, the name. *)
Definition saveProfile_begin (f : profile_form)
  : list profile_effect * option jsstring :=
  let name := trim (user_name f) in
  match name, birth_date f, family_role f with
  | _ :: _, _ :: _, _ :: _ => ([PostProfile (profile_body name f)], Some name)
  | _, _, _ => ([ProfileAlert FillRequired], None)
  end.

(** [saveProfile] from the point where the response has arrived, on a
    page that has the heading and the elements of [showMainInterface]. *)
Definition saveProfile_resume (name : jsstring) (o : outcome)
  : list profile_effect :=
  let catch := [ProfileConsoleError; ProfileAlert FailedToSaveProfile] in
  match o with
  | FetchRejected _ | JsonRejected _ _ => catch
  | Json _ data =>
      match getProp data (lit "status") with
      | None => catch
      | Some status =>
          if strictEqStr status (lit "success") then
            [SetHeading (lit "The Circle: " ++ name ++ lit "'s Stories");
             ShowMainInterface;
             ProfileAlert (Welcome name)]
          else []
      end
  end.

End Profile.

(** ** [voice_recorder.js]: the timer of a recording *)

Module Voice.

(** [s.padStart(targetLength, c)] for a filler of one character. *)
Definition padStart (targetLength : nat) (c : N) (s : jsstring) : jsstring :=
  replicate (targetLength - length s) c ++ s.

(** The text that the interval of [startRecordingTimer] writes to
    [#recording-timer] when [Date.now()] is [now]; the times are in
    milliseconds.  [Math.floor] of a quotient is the quotient rounded
    down, and [%] is the remainder with the sign of the dividend. *)
Definition timerText (recordingStartTime now : Z) : jsstring :=
  let elapsed := ((now - recordingStartTime) / 1000)%Z in
  let minutes := (elapsed / 60)%Z in
  let seconds := Z.rem elapsed 60 in
  numberToString minutes ++ lit ":" ++ padStart 2 48 (numberToString seconds).

End Voice.

(** * Properties *)

(** ** Strings *)

Section Strings.

Lemma startsWith_spec (s t : jsstring) :
  startsWith s t = true <-> exists rest, s = t ++ rest.
Proof.
  revert s. induction t as [|c t IH]; intros s.
  - split; [eauto | by destruct s].
  - destruct s as [|d s]; simpl.
    + split; [done | intros [rest Hrest]; discriminate].
    + rewrite andb_true_iff, N.eqb_eq, IH. split.
      * intros [-> [rest ->]]. by exists rest.
      * intros [rest Hrest]. injection Hrest as -> ->. eauto.
Qed.

Lemma includes_spec (s t : jsstring) :
  includes s t = true <-> exists before after, s = before ++ t ++ after.
Proof.
  induction s as [|d s IH].
  - destruct t as [|c t]; simpl.
    + split; [by exists [], [] | done].
    + split; [done|]. intros (before & after & Heq).
      by destruct before.
  - change (includes (d :: s) t)
      with (startsWith (d :: s) t || includes s t).
    rewrite orb_true_iff, startsWith_spec, IH. split.
    + intros [[rest ->] | (before & after & ->)].
      * by exists [], rest.
      * by exists (d :: before), after.
    + intros ([|b before] & after & Heq); simpl in Heq.
      * left. eauto.
      * right. injection Heq as -> ->. eauto.
Qed.

Lemma endsWith_spec (s t : jsstring) :
  endsWith s t = true <-> exists front, s = front ++ t.
Proof.
  unfold endsWith. rewrite startsWith_spec. split.
  - intros [rest Hrest]. exists (rev rest).
    apply (f_equal (@rev N)) in Hrest.
    by rewrite rev_involutive, rev_app_distr, rev_involutive in Hrest.
  - intros [front ->]. exists (rev front). by rewrite rev_app_distr.
Qed.

Lemma trimStart_nil_iff (s : jsstring) :
  trimStart s = [] <-> Forall (fun c => isWhiteSpace c = true) s.
Proof.
  induction s as [|c s IH]; simpl.
  - split; [constructor | done].
  - destruct (isWhiteSpace c) eqn:Hc.
    + rewrite IH. split; [by constructor | by inversion 1].
    + split; [done | inversion 1; congruence].
Qed.

(** The trimmed string is empty exactly when the string is blank. *)
Lemma trim_nil_iff (s : jsstring) :
  trim s = [] <-> Forall (fun c => isWhiteSpace c = true) s.
Proof.
  unfold trim. split.
  - intros H. apply (f_equal (@rev N)) in H. rewrite rev_involutive in H.
    simpl in H. apply trimStart_nil_iff in H.
    apply Forall_rev in H. rewrite rev_involutive in H.
    clear -H. induction s as [|c s IH]; [constructor|].
    simpl in H. destruct (isWhiteSpace c) eqn:Hc.
    + constructor; auto.
    + exact H.
  - intros H. apply trimStart_nil_iff in H as Hs. rewrite Hs. done.
Qed.

End Strings.

(** ** Escaping *)

Section Escaping.

Import ExportJs.





End Escaping.

Section EscapingBack.

Import ExportJs.

Lemma escape_unit_cases (c : N) :
  (c = 38 /\ escape_unit c = lit "&amp;")
  \/ (c = 60 /\ escape_unit c = lit "&lt;")
  \/ (c = 62 /\ escape_unit c = lit "&gt;")
  \/ (c = 160 /\ escape_unit c = lit "&nbsp;")
  \/ (c <> 38 /\ escape_unit c = [c]).
Proof.
  unfold escape_unit.
  destruct (N.eqb_spec c 38) as [->|H38]; [by left|].
  destruct (N.eqb_spec c 60) as [->|H60]; [by right; left|].
  destruct (N.eqb_spec c 62) as [->|H62]; [by right; right; left|].
  destruct (N.eqb_spec c 160) as [->|H160]; [by right; right; right; left|].
  by right; right; right; right.
Qed.

(** The escaped form of a text determines the text. *)
Lemma serialize_text_inj (s s' : jsstring) :
  serialize_text s = serialize_text s' -> s = s'.
Proof.
  revert s'. induction s as [|c s IH]; intros [|c' s'] H; [done|..].
  - simpl in H.
    destruct (escape_unit_cases c') as [[_ E]|[[_ E]|[[_ E]|[[_ E]|[_ E]]]]];
      by rewrite E in H.
  - simpl in H.
    destruct (escape_unit_cases c) as [[_ E]|[[_ E]|[[_ E]|[[_ E]|[_ E]]]]];
      by rewrite E in H.
  - change (escape_unit c ++ serialize_text s
            = escape_unit c' ++ serialize_text s') in H.
    destruct (escape_unit_cases c)
      as [[-> E]|[[-> E]|[[-> E]|[[-> E]|[Hc E]]]]];
      destruct (escape_unit_cases c')
        as [[-> E']|[[-> E']|[[-> E']|[[-> E']|[Hc' E']]]]];
      rewrite ?E, ?E' in H; try discriminate H;
      injection H as H; subst; try done;
      f_equal; by apply IH.
Qed.

(** X1. [escapeHtml] loses nothing of a string: two strings with the same
    escaped form are the same string. *)
Theorem escapeHtml_injective (s s' : jsstring) :
  escapeHtml (TStr s) = escapeHtml (TStr s') -> s = s'.
Proof.
  assert (forall t, escapeHtml (TStr t) = serialize_text t) as Hstr.
  { intros t. unfold escapeHtml. simpl. case_bool_decide; by subst. }
  rewrite !Hstr. apply serialize_text_inj.
Qed.

End EscapingBack.

Section EscapingBackExamples.

Import ExportJs.

Lemma escapeHtml_injective_witness :
  escapeHtml (TStr (lit "Tom & Jerry <3"))
  = escapeHtml (TStr (84 :: lit "om & Jerry <3"))
  /\ lit "Tom & Jerry <3" = 84 :: lit "om & Jerry <3".
Proof.
  split; [reflexivity|].
  apply (escapeHtml_injective (lit "Tom & Jerry <3") (84 :: lit "om & Jerry <3")).
  reflexivity.
Defined.

End EscapingBackExamples.

(** ** Saving a memory *)

Section Saving.

Import Capture.

Lemma success_response_status (ok : bool) (data : value) :
  success_response (Json ok data)
  = match getProp data (lit "status") with
    | Some status => strictEqStr status (lit "success")
    | None => false
    end.
Proof. by destruct data. Qed.

(** The part of [saveMemory] that runs after the response leaves the whole
    page alone unless the server reported success, whatever happened to
    the page while the request was on its way. *)
Lemma saveMemory_resume_error (isEditing : bool) (o : outcome) (p : page) :
  success_response o = false ->
  (saveMemory_resume isEditing o p).1 = p
  /\ exists a, error_alert a = true
       /\ ((saveMemory_resume isEditing o p).2 = [Alert a]
           \/ (saveMemory_resume isEditing o p).2 = [ConsoleError; Alert a]).
Proof.
  intros Ho.
  assert (forall q, (saveMemory_catch q).1 = q
            /\ exists a, error_alert a = true
                 /\ ((saveMemory_catch q).2 = [Alert a]
                     \/ (saveMemory_catch q).2 = [ConsoleError; Alert a]))
    as Hcatch.
  { intros q. split; [done|]. exists FailedToSave. split; [done|by right]. }
  destruct o as [m|ok m|ok data]; simpl; [apply Hcatch | apply Hcatch |].
  rewrite success_response_status in Ho.
  destruct (getProp data (lit "status")) as [status|]; [|apply Hcatch].
  rewrite Ho. split; [done|]. eexists. split; [|by left]. done.
Qed.

Lemma showTab_form (tabName : jsstring) (p : page) :
  memory_text (showTab tabName p).1 = memory_text p
  /\ memory_date (showTab tabName p).1 = memory_date p.
Proof. unfold showTab. by repeat case_bool_decide. Qed.

Lemma saveMemory_resume_success (isEditing : bool) (o : outcome) (p : page) :
  success_response o = true ->
  memory_text (saveMemory_resume isEditing o p).1 = []
  /\ memory_date (saveMemory_resume isEditing o p).1 = [].
Proof.
  intros Ho. destruct o as [m|ok m|ok data]; try done.
  rewrite success_response_status in Ho. unfold saveMemory_resume.
  destruct (getProp data (lit "status")) as [status|]; [|done].
  rewrite Ho.
  match goal with
  | |- context [showTab ?t ?c] =>
      pose proof (showTab_form t c) as [Ht Hd]; destruct (showTab t c)
  end.
  done.
Qed.

(** The request that [saveMemory] sends when the trimmed text is not
    empty. *)
Lemma saveMemory_begin_request (p : page) :
  trim (memory_text p) <> [] ->
  exists r isEditing, saveMemory_begin p = ([Fetch r], Some isEditing).
Proof.
  intros Ht. unfold saveMemory_begin. rewrite bool_decide_eq_false_2 by done.
  destruct (editingId p); eauto.
Qed.

(** C2. When the answer to the request of [saveMemory] is an error (the
    request fails, the body does not parse, or its [status] is not
    ['success']), the text and the date of the form are what they were and
    an error alert is shown; the form is cleared on a success answer, and
    only then. *)
Theorem saveMemory_clears_form_only_on_success (o : outcome) (p : page) :
  trim (memory_text p) <> [] ->
  (if success_response o then
     memory_text (saveMemory o p).1 = []
     /\ memory_date (saveMemory o p).1 = []
   else
     memory_text (saveMemory o p).1 = memory_text p
     /\ memory_date (saveMemory o p).1 = memory_date p
     /\ exists a, Alert a ∈ (saveMemory o p).2 /\ error_alert a = true)
  /\ (memory_text (saveMemory o p).1 <> memory_text p
      \/ memory_date (saveMemory o p).1 <> memory_date p ->
      success_response o = true).
Proof.
  intros Ht.
  destruct (saveMemory_begin_request p Ht) as (r & isEditing & Hbegin).
  unfold saveMemory. rewrite Hbegin.
  pose proof (saveMemory_resume_error isEditing o p) as Herr.
  pose proof (saveMemory_resume_success isEditing o p) as Hok.
  destruct (saveMemory_resume isEditing o p) as [p' effs'] eqn:Hres.
  simpl in *.
  destruct (success_response o) eqn:Ho.
  - split; [by apply Hok | done].
  - destruct (Herr eq_refl) as [-> (a & Ha & Heffs)].
    split; [|by intros [?|?]].
    split; [done|split; [done|]]. exists a. split; [|done].
    destruct Heffs as [->| ->]; set_solver.
Qed.

Lemma saveMemory_clears_form_only_on_success_witness :
  trim (memory_text example_page) <> []
  /\ (if success_response example_error then
        memory_text (saveMemory example_error example_page).1 = []
        /\ memory_date (saveMemory example_error example_page).1 = []
      else
        memory_text (saveMemory example_error example_page).1
        = memory_text example_page
        /\ memory_date (saveMemory example_error example_page).1
           = memory_date example_page
        /\ exists a, Alert a ∈ (saveMemory example_error example_page).2
                     /\ error_alert a = true)
  /\ (memory_text (saveMemory example_error example_page).1
      <> memory_text example_page
      \/ memory_date (saveMemory example_error example_page).1
         <> memory_date example_page ->
      success_response example_error = true).
Proof.
  split; [by vm_compute|].
  apply (saveMemory_clears_form_only_on_success example_error example_page).
  by vm_compute.
Defined.

(** C10. When the trimmed text is empty, [saveMemory] sends no request and
    changes nothing: it shows one alert and returns, with the form, the
    editing marker and the tab as they were. *)
Theorem saveMemory_empty_text (o : outcome) (p : page) :
  trim (memory_text p) = [] ->
  saveMemory_begin p = ([Alert PleaseWrite], None)
  /\ saveMemory o p = (p, [Alert PleaseWrite])
  /\ List.filter is_fetch (saveMemory o p).2 = [].
Proof.
  intros Ht. unfold saveMemory, saveMemory_begin.
  by rewrite Ht, bool_decide_eq_true_2.
Qed.

Lemma saveMemory_empty_text_witness :
  trim (memory_text blank_page) = []
  /\ saveMemory_begin blank_page = ([Alert PleaseWrite], None)
  /\ saveMemory example_error blank_page = (blank_page, [Alert PleaseWrite])
  /\ List.filter is_fetch (saveMemory example_error blank_page).2 = [].
Proof.
  split; [by vm_compute|].
  apply (saveMemory_empty_text example_error blank_page).
  by vm_compute.
Defined.

End Saving.

(** ** The search filter *)

Section Searching.

Import Timeline.

Variable toLowerCase : jsstring -> jsstring.

(** Lower-casing keeps the empty string empty and no other. *)
Hypothesis toLowerCase_nil : toLowerCase [] = [].
Hypothesis toLowerCase_cons : forall s, s <> [] -> toLowerCase s <> [].

Lemma contains_nil (t : jsstring) : contains [] t -> t = [].
Proof.
  intros (before & after & Heq). symmetry in Heq.
  apply app_eq_nil in Heq as [_ Heq]. by apply app_eq_nil in Heq as [? _].
Qed.

Lemma nonEmpty_true (s : jsstring) : nonEmpty s = true <-> s <> [].
Proof.
  unfold nonEmpty. rewrite negb_true_iff, bool_decide_eq_false. done.
Qed.

Lemma matches_amended (searchTerm : jsstring) (m : memory) :
  searchTerm <> [] ->
  matches toLowerCase searchTerm m = true
  <-> amended_match toLowerCase searchTerm m.
Proof.
  intros Hterm. unfold matches, amended_match, contains_ci.
  rewrite !orb_true_iff, includes_spec.
  assert (forall A B C B' C' : Prop, (B <-> B') -> (C <-> C') ->
            ((A \/ B) \/ C <-> A \/ B' \/ C')) as Hor by tauto.
  apply Hor; clear Hor.
  - destruct (category m) as [c|].
    + rewrite andb_true_iff, nonEmpty_true, includes_spec. split.
      * intros [_ Hc]. eauto.
      * intros (c' & [= <-] & Hc). split; [|done].
        intros ->. rewrite toLowerCase_nil in Hc.
        apply contains_nil in Hc. by apply toLowerCase_cons in Hterm.
    + split; [done | by intros (c & ? & _)].
  - destruct (year m) as [|z|s]; simpl.
    + split; [done | by intros [[] _]].
    + rewrite andb_true_iff, negb_true_iff, Z.eqb_neq, includes_spec. split.
      * intros [Hz Hc]. eauto.
      * intros (Hz & s & [= <-] & Hc). done.
    + rewrite andb_true_iff, nonEmpty_true, includes_spec. split.
      * intros [Hs Hc]. eauto.
      * intros (Hs & s' & [= <-] & Hc). done.
Qed.

(** C8, amended. For a search term that is not empty the filter selects
    the memories whose text contains the term without regard to case, or
    whose category does, or whose year counts as true (it is there and is
    neither 0 nor the empty string) and contains the term in its string
    representation; for the empty term it selects every memory. *)
Theorem filteredMemories_selects (searchTerm : jsstring)
  (memories : list memory) :
  searchTerm <> [] ->
  (forall m, m ∈ filteredMemories toLowerCase searchTerm memories
             <-> m ∈ memories /\ amended_match toLowerCase searchTerm m)
  /\ filteredMemories toLowerCase [] memories = memories.
Proof.
  intros Hterm. split; [|done]. intros m. unfold filteredMemories.
  apply nonEmpty_true in Hterm as Hne. rewrite Hne.
  rewrite !list_elem_of_In, filter_In, matches_amended by done. done.
Qed.

End Searching.

Section SearchingExamples.

Import Timeline.

Lemma toLowerCase_ascii_cons (s : jsstring) :
  s <> [] -> toLowerCase_ascii s <> [].
Proof. by destruct s. Qed.

Lemma filteredMemories_selects_witness :
  lit "mill" <> []
  /\ (forall m,
        m ∈ filteredMemories toLowerCase_ascii (lit "mill") [year_zero; first_job]
        <-> m ∈ [year_zero; first_job]
            /\ amended_match toLowerCase_ascii (lit "mill") m)
  /\ filteredMemories toLowerCase_ascii [] [year_zero; first_job]
     = [year_zero; first_job].
Proof.
  split; [done|].
  apply (filteredMemories_selects toLowerCase_ascii eq_refl
           toLowerCase_ascii_cons (lit "mill") [year_zero; first_job]).
  done.
Defined.

(** C8 as it is worded fails for a memory of the year 0: the string
    representation of the year contains the term ["0"], and the memory is
    not selected. *)
Lemma filteredMemories_year_zero_counterexample :
  ~ (forall m,
       m ∈ filteredMemories toLowerCase_ascii (lit "0") [year_zero]
       <-> m ∈ [year_zero] /\ specified_match toLowerCase_ascii (lit "0") m).
Proof.
  intros H. specialize (H year_zero) as [_ H].
  assert (year_zero ∈ filteredMemories toLowerCase_ascii (lit "0") [year_zero])
    as Hin.
  { apply H. split; [by left|]. right; right.
    exists (lit "0"). split; [reflexivity|]. by exists [], []. }
  vm_compute in Hin. by apply elem_of_nil in Hin.
Qed.

End SearchingExamples.

(** ** Editing a memory *)

Section EditingMemories.

Import Capture Timeline.

Variable sanitize : jsstring -> jsstring.
Variable formGroup : bool.

#[local] Abbreviation editMemory_resume := (editMemory_resume sanitize formGroup).
#[local] Abbreviation form_step := (form_step sanitize formGroup).
#[local] Abbreviation form_run := (form_run sanitize formGroup).

Lemma sends_memory_success (o : outcome) :
  sends_memory o = true -> success_response o = true.
Proof.
  destruct o as [m|ok m|ok data]; try done.
  destruct data; try done. simpl. by intros [? _]%andb_true_iff.
Qed.

(** What [editMemory] does with an answer that carries the memory. *)
Lemma editMemory_resume_loaded (memoryId : jsstring) (o : outcome) (p : page) :
  sends_memory o = true ->
  exists memoryText memoryDate,
    editMemory_resume memoryId o p
    = ({| memory_text := memoryText; memory_date := memoryDate;
          editingId := Some memoryId;
          saveBtn := (fun _ => updateBtn_label) <$> saveBtn p;
          edit_notice := edit_notice p || formGroup;
          active_tab := lit "capture";
          has_loadMemories := has_loadMemories p;
          has_mediaManager := has_mediaManager p;
          has_loadComments := has_loadComments p |}, []).
Proof.
  destruct o as [m|ok m|ok data]; try done.
  destruct data as [| |b|z|x|l|fields]; try done.
  unfold sends_memory. intros [Hs Hm]%andb_true_iff.
  unfold Timeline.editMemory_resume. simpl. rewrite Hs.
  destruct (default VUndefined (lookup_field (lit "memory") fields));
    try done; simpl; eauto.
Qed.

(** ... and with any other answer. *)
Lemma editMemory_resume_failed (memoryId : jsstring) (o : outcome) (p : page) :
  sends_memory o = false ->
  (success_response o = false
   /\ exists a, editMemory_resume memoryId o p
                = (p, [EditAlert a])
                \/ editMemory_resume memoryId o p
                   = (p, [EditConsoleError; EditAlert a]))
  \/ (success_response o = true
      /\ editMemory_resume memoryId o p
         = ((showTab (lit "capture") p).1, [EditConsoleError; EditAlert FailedToLoad])).
Proof.
  destruct o as [m|ok m|ok data]; try (left; split; [done|]; eauto).
  destruct data as [| |b|z|x|l|fields];
    try (left; split; [done|]; simpl; eauto).
  unfold sends_memory, success_response, Timeline.editMemory_resume. simpl.
  destruct (strictEqStr _ _) eqn:Hs; simpl; [|left; eauto].
  intros Hm. right. split; [done|].
  destruct (default VUndefined (lookup_field (lit "memory") fields)); done.
Qed.

(** X6. When the answer to [editMemory] does not carry the memory (the
    request fails, the body does not parse, its status is not ['success']
    or the memory is missing), the form keeps its text, its date, its
    mode, its button and its notice, and one alert reports the failure.
    Unless the status is ['success'] the page is left exactly as it was;
    with that status and no memory only the capture tab has been
    opened. *)
Theorem editMemory_failure_keeps_form (memoryId : jsstring) (o : outcome)
  (p : page) :
  sends_memory o = false ->
  let r := editMemory_resume memoryId o p in
  memory_text r.1 = memory_text p
  /\ memory_date r.1 = memory_date p
  /\ editingId r.1 = editingId p
  /\ saveBtn r.1 = saveBtn p
  /\ edit_notice r.1 = edit_notice p
  /\ (exists a, List.filter
                  (fun e => match e with EditAlert _ => true | _ => false end) r.2
                = [EditAlert a])
  /\ (success_response o = false -> r.1 = p)
  /\ (success_response o = true -> active_tab r.1 = lit "capture").
Proof.
  intros Hm r. unfold r.
  destruct (editMemory_resume_failed memoryId o p Hm)
    as [[Hs [a [-> | ->]]] | [Hs ->]].
  - simpl. repeat split; eauto. by rewrite Hs.
  - simpl. repeat split; eauto. by rewrite Hs.
  - assert ((showTab (lit "capture") p).1
            = {| memory_text := memory_text p; memory_date := memory_date p;
                 editingId := editingId p; saveBtn := saveBtn p;
                 edit_notice := edit_notice p; active_tab := lit "capture";
                 has_loadMemories := has_loadMemories p;
                 has_mediaManager := has_mediaManager p;
                 has_loadComments := has_loadComments p |}) as -> by done.
    simpl. repeat split; eauto. by rewrite Hs.
Qed.


(** The page that a successful [saveMemory] leaves. *)
Lemma saveMemory_resume_cleared (isEditing : bool) (o : outcome) (p : page) :
  success_response o = true ->
  (saveMemory_resume isEditing o p).1
  = {| memory_text := []; memory_date := []; editingId := None;
       saveBtn := (fun _ => saveBtn_label) <$> saveBtn p;
       edit_notice := false; active_tab := lit "timeline";
       has_loadMemories := has_loadMemories p;
       has_mediaManager := has_mediaManager p;
       has_loadComments := has_loadComments p |}.
Proof.
  intros Ho. destruct o as [m|ok m|ok data]; try done.
  destruct data as [| |b|z|x|l|fields]; try done.
  unfold success_response in Ho. unfold saveMemory_resume. simpl.
  by rewrite Ho.
Qed.

Lemma mode_shown_step (s : session) (e : form_event) :
  mode_shown formGroup (form s) -> mode_shown formGroup (form (form_step s e)).
Proof.
  intros (Hn & Hf & Hb).
  assert (forall p, editingId p = None -> edit_notice p = false ->
            (forall label, saveBtn p = Some label -> label = saveBtn_label) ->
            mode_shown formGroup p) as Hclear.
  { intros p He Hno Hl. unfold mode_shown. rewrite He, Hno.
    split; [done|]. split; [|done]. by intros _ [? ?]. }
  destruct e as [t d| |n o|memoryId|n o|]; simpl; try done.
  - by destruct (saveMemory_begin (form s)).2.
  - destruct (saves s !! n) as [isEditing|]; [|done]. simpl.
    destruct (success_response o) eqn:Hs.
    + rewrite (saveMemory_resume_cleared isEditing o (form s) Hs).
      apply Hclear; try done.
      intros label. simpl. destruct (saveBtn (form s)); naive_solver.
    + destruct (saveMemory_resume_error isEditing o (form s) Hs) as (Hr & _).
      by rewrite Hr.
  - destruct (edits s !! n) as [memoryId|]; [|done]. simpl.
    destruct (sends_memory o) eqn:Hm.
    + destruct (editMemory_resume_loaded memoryId o (form s) Hm)
        as (t & d & ->).
      unfold mode_shown. simpl. split; [by eauto|].
      split.
      { intros -> _. apply orb_true_r. }
      intros label. destruct (saveBtn (form s)); naive_solver.
    + destruct (editMemory_resume_failed memoryId o (form s) Hm)
        as [[_ [a [-> | ->]]] | [_ ->]]; done.
  - apply Hclear; try done.
    intros label. simpl. destruct (saveBtn (form s)); naive_solver.
Qed.

(** X8. The form shows its mode: from a form on which this holds, whatever
    the user types and clicks and in whatever order the answers to
    [saveMemory] and [editMemory] arrive, the notice
    [Editing existing memory] is there only while the form edits a memory
    (and always then, when the page has the place for it), and the button
    reads [Update Memory] while the form edits a memory and [Save Memory]
    while it does not. *)
Theorem editMemory_mode_shown (s : session) (events : list form_event) :
  mode_shown formGroup (form s) ->
  let p := form (form_run s events) in
  (edit_notice p = true -> is_Some (editingId p))
  /\ (formGroup = true -> is_Some (editingId p) -> edit_notice p = true)
  /\ (forall label, saveBtn p = Some label ->
        label = match editingId p with
                | Some _ => updateBtn_label
                | None => saveBtn_label
                end).
Proof.
  intros Hs p. change (mode_shown formGroup p). unfold p. clear p.
  revert s Hs. induction events as [|e events IH]; intros s Hs; [done|].
  simpl. by apply IH, mode_shown_step.
Qed.

End EditingMemories.

Section EditingMemoriesExamples.

Import Capture Timeline.

Lemma editMemory_failure_keeps_form_witness :
  sends_memory example_error = false
  /\ (editMemory_resume stripNewlines true (lit "12") example_error blank_page).1
     = blank_page.
Proof.
  split; [reflexivity|].
  destruct (editMemory_failure_keeps_form stripNewlines true (lit "12")
              example_error blank_page eq_refl)
    as (_ & _ & _ & _ & _ & _ & Hsame & _).
  apply Hsame. reflexivity.
Defined.


Lemma editMemory_mode_shown_witness :
  mode_shown true (form example_session)
  /\ forall label,
       saveBtn (form (form_run stripNewlines true example_session example_clicks))
       = Some label ->
       label
       = match editingId (form (form_run stripNewlines true example_session
                                  example_clicks)) with
         | Some _ => updateBtn_label
         | None => saveBtn_label
         end.
Proof.
  assert (mode_shown true (form example_session)) as H.
  { unfold mode_shown. simpl. split; [discriminate|].
    split; [intros _ [x Hx]; discriminate Hx|].
    intros label Hl. injection Hl as <-. reflexivity. }
  split; [exact H|].
  exact (proj2 (proj2 (editMemory_mode_shown stripNewlines true example_session
                         example_clicks H))).
Defined.

End EditingMemoriesExamples.

(** ** The media manager *)

Section Managing.

Import Media.

Variable toLowerCase : jsstring -> jsstring.

#[local] Abbreviation accepted := (accepted toLowerCase).
#[local] Abbreviation store_accepted := (store_accepted toLowerCase).
#[local] Abbreviation acceptable := (acceptable toLowerCase).
#[local] Abbreviation handleFileSelect := (handleFileSelect toLowerCase).
#[local] Abbreviation step := (step toLowerCase).
#[local] Abbreviation run := (run toLowerCase).

Lemma allowedFile_spec (f : File) :
  allowedFile toLowerCase f = true
  <-> type f ∈ allowedTypes
      \/ exists e front,
           e ∈ extensions /\ toLowerCase (name f) = front ++ 46 :: e.
Proof.
  unfold allowedFile, matchesExtension.
  rewrite orb_true_iff, bool_decide_eq_true, existsb_exists.
  apply or_iff_compat_l. split.
  - intros (e & He%list_elem_of_In & (front & Hf)%endsWith_spec). eauto.
  - intros (e & front & He%list_elem_of_In & Hf). exists e.
    split; [done|]. apply endsWith_spec. eauto.
Qed.

Lemma acceptable_accepted (f : File) : acceptable f = true <-> accepted f.
Proof.
  unfold Media.acceptable, Media.accepted.
  by rewrite andb_true_iff, N.leb_le, allowedFile_spec.
Qed.

Lemma store_accepted_selected (w : world) :
  store_accepted w -> Forall accepted (selected w).
Proof.
  unfold store_accepted, selected, deref. intros Hs.
  destruct (store w !! selectedFiles (mgr w)) as [files|] eqn:Hl; [|done].
  by eapply Forall_lookup_1 in Hs.
Qed.

Lemma selected_assign (files : list File) (w : world) :
  selected (assign_selectedFiles files w) = files.
Proof.
  unfold selected, deref. simpl.
  by rewrite lookup_app_r, Nat.sub_diag by done.
Qed.

Lemma selected_showPreview (w : world) : selected (showPreview w) = selected w.
Proof. unfold showPreview. by destruct (selected w) eqn:Hs. Qed.

Lemma store_showPreview (w : world) : store (showPreview w) = store w.
Proof. unfold showPreview. by destruct (selected w). Qed.

Lemma log_showPreview (w : world) : log (showPreview w) = log w.
Proof. unfold showPreview. by destruct (selected w). Qed.

(** The files that [handleFileSelect] keeps of a choice. *)
Lemma filter_sizes (files : list File) :
  List.filter (fun f => size f <=? maxSize) (List.filter (allowedFile toLowerCase) files)
  = List.filter acceptable files.
Proof.
  induction files as [|f files IH]; [done|]. simpl. unfold Media.acceptable.
  destruct (allowedFile toLowerCase f); simpl; [|done].
  destruct (size f <=? maxSize); by rewrite IH.
Qed.

Lemma filter_oversized_nil (files : list File) :
  List.filter (fun f => maxSize <? size f) files = [] ->
  List.filter (fun f => size f <=? maxSize) files = files.
Proof.
  induction files as [|f files IH]; [done|]. simpl.
  rewrite N.leb_antisym. destruct (maxSize <? size f); [done|].
  simpl. intros H. by rewrite IH.
Qed.

(** What a call of [handleFileSelect] does to the selection and the log. *)
Lemma handleFileSelect_cases (files : list File) (w : world) :
  (List.filter (allowedFile toLowerCase) files = []
   /\ handleFileSelect files w = showMessage NoValidFiles error w)
  \/ (List.filter (allowedFile toLowerCase) files <> []
      /\ selected (handleFileSelect files w) = List.filter acceptable files
      /\ store (handleFileSelect files w)
         = store w ++ [List.filter acceptable files]
      /\ (log (handleFileSelect files w) = log w
          \/ exists names,
               log (handleFileSelect files w)
               = log w ++ [ShowMessage (ExceedLimit names) error])
      /\ (List.filter acceptable files = [] ->
          exists names,
            log (handleFileSelect files w)
            = log w ++ [ShowMessage (ExceedLimit names) error])).
Proof.
  unfold Media.handleFileSelect.
  destruct (List.filter (allowedFile toLowerCase) files) as [|v valid] eqn:Hvalid;
    [by left|right].
  split; [done|]. rewrite <- Hvalid, <- filter_sizes.
  set (validFiles := List.filter (allowedFile toLowerCase) files) in *.
  destruct (List.filter (fun f => maxSize <? size f) validFiles)
    as [|o over] eqn:Hover.
  - rewrite (filter_oversized_nil _ Hover).
    assert (selected (assign_selectedFiles validFiles w) = validFiles) as Hsel
      by apply selected_assign.
    rewrite Hsel, Hvalid, <- Hvalid.
    rewrite selected_showPreview, store_showPreview, log_showPreview, Hsel.
    split; [done|]. split; [done|]. split; [by left|].
    by rewrite Hvalid.
  - set (kept := List.filter (fun f => size f <=? maxSize) validFiles).
    set (w1 := showMessage (ExceedLimit (map name (o :: over))) error w).
    assert (selected (assign_selectedFiles kept w1) = kept) as Hsel
      by apply selected_assign.
    rewrite Hsel.
    assert (forall w2, selected w2 = kept ->
              selected match kept with _ :: _ => showPreview w2 | [] => w2 end
              = kept
              /\ store match kept with _ :: _ => showPreview w2 | [] => w2 end
                 = store w2
              /\ log match kept with _ :: _ => showPreview w2 | [] => w2 end
                 = log w2) as Hshow.
    { intros w2 H2. destruct kept; [done|].
      by rewrite selected_showPreview, store_showPreview, log_showPreview. }
    destruct (Hshow _ Hsel) as (-> & -> & ->).
    split; [done|]. split; [done|]. split; [right|]; eauto.
Qed.

Lemma requests_app (l l' : list effect) :
  requests (l ++ l') = requests l ++ requests l'.
Proof. apply omap_app. Qed.

(** [debouncedGalleryRefresh] touches the timer and the log only. *)
Lemma debouncedGalleryRefresh_frame (w : world) :
  store (debouncedGalleryRefresh w) = store w
  /\ tasks (debouncedGalleryRefresh w) = tasks w
  /\ selectedFiles (mgr (debouncedGalleryRefresh w)) = selectedFiles (mgr w)
  /\ uploadInProgress (mgr (debouncedGalleryRefresh w))
     = uploadInProgress (mgr w)
  /\ requests (log (debouncedGalleryRefresh w)) = requests (log w).
Proof.
  unfold debouncedGalleryRefresh.
  destruct (galleryLoadTimeout (mgr w)); simpl;
    rewrite ?requests_app, ?app_nil_r; done.
Qed.

Lemma showPreview_frame (w : world) :
  tasks (showPreview w) = tasks w
  /\ selectedFiles (mgr (showPreview w)) = selectedFiles (mgr w)
  /\ uploadInProgress (mgr (showPreview w)) = uploadInProgress (mgr w).
Proof. unfold showPreview. by destruct (selected w). Qed.

(** The code after the loop: the flag is cleared, no upload is started. *)
Lemma finish_frame (t : task) (w : world) :
  tasks (finish t w) = tasks w
  /\ uploadInProgress (mgr (finish t w)) = false
  /\ requests (log (finish t w)) = requests (log w)
  /\ (store (finish t w) = store w \/ store (finish t w) = store w ++ [[]]).
Proof.
  unfold finish.
  set (w1 := set_mgr (with_upload false (originalBtnText t) (mgr w)) w).
  assert (tasks w1 = tasks w /\ uploadInProgress (mgr w1) = false
          /\ requests (log w1) = requests (log w) /\ store w1 = store w)
    as (Ht1 & Hu1 & Hr1 & Hs1) by done.
  clearbody w1.
  set (w2 := assign_selectedFiles []
               (emit [Console (Summary (Uploaded (successCount t)))] w1)).
  set (w3 := debouncedGalleryRefresh (showPreview w2)).
  assert (tasks w3 = tasks w /\ uploadInProgress (mgr w3) = false
          /\ requests (log w3) = requests (log w)
          /\ store w3 = store w ++ [[]]) as (Ht3 & Hu3 & Hr3 & Hs3).
  { unfold w3.
    destruct (debouncedGalleryRefresh_frame (showPreview w2))
      as (-> & -> & _ & -> & ->).
    destruct (showPreview_frame w2) as (-> & _ & ->).
    rewrite store_showPreview, log_showPreview. unfold w2. simpl.
    by rewrite requests_app, app_nil_r, Hs1. }
  clearbody w3. clear w2.
  destruct (successCount t) as [|n], (errorCount t) as [|k]; simpl;
    rewrite ?requests_app, ?app_nil_r; eauto 10.
Qed.

Lemma store_accepted_finish (t : task) (w : world) :
  store_accepted w -> store_accepted (finish t w).
Proof.
  unfold store_accepted. intros Hs.
  destruct (finish_frame t w) as (_ & _ & _ & [-> | ->]); [done|].
  apply Forall_app. split; [done|]. by repeat constructor.
Qed.

Lemma store_accepted_advance (t : task) (w : world) :
  store_accepted w -> store_accepted (advance t w).
Proof.
  unfold advance. intros Hs.
  destruct (deref (store w) (iterated t) !! nextIndex t); [done|].
  by apply store_accepted_finish.
Qed.

Lemma store_accepted_step (w : world) (e : event) :
  store_accepted w -> store_accepted (step w e).
Proof.
  intros Hs. destruct e as [files|index|d| |n o| |]; simpl.
  - destruct (handleFileSelect_cases files w) as [[_ ->] | (_ & _ & Hst & _)];
      [done|].
    unfold store_accepted. rewrite Hst.
    apply Forall_app. split; [done|]. constructor; [|done].
    apply Forall_forall. intros f [_ Hf]%list_elem_of_In%filter_In.
    by apply acceptable_accepted.
  - unfold removeFile, store_accepted. rewrite store_showPreview. simpl.
    apply Forall_insert; [done|].
    apply Forall_forall. intros f Hf.
    eapply Forall_forall; [by apply store_accepted_selected|].
    revert Hf. 
    generalize (selected w). intros l. revert index.
    induction l as [|x l IH]; intros [|i]; simpl; try (by intros ?%elem_of_nil).
    + by right.
    + rewrite !elem_of_cons. intros [?|?]; eauto.
  - done.
  - unfold handleUpload. destruct (selected w); [done|].
    destruct (uploadInProgress (mgr w)); [done|].
    by apply store_accepted_advance.
  - unfold resume. destruct (tasks w !! n) as [[f t]|]; [|done].
    destruct (settle f o t) as [t' effs]. by apply store_accepted_advance.
  - unfold store_accepted.
    by destruct (debouncedGalleryRefresh_frame w) as (-> & _).
  - unfold galleryTimer. by destruct (galleryLoadTimeout (mgr w)).
Qed.

Lemma store_accepted_run (events : list event) (w : world) :
  store_accepted w -> store_accepted (run w events).
Proof.
  revert w. induction events as [|e events IH]; intros w Hs; [done|].
  apply IH. by apply store_accepted_step.
Qed.

(** C7. In every state that the manager reaches, and so after every call of
    [handleFileSelect], each file of [selectedFiles] has an allowed type
    and at most [maxSize] bytes; a file of the choice that fails a test is
    not in the selection; a choice with a file of an allowed type replaces
    the selection by the files that pass both tests; a choice without any
    file that passes is answered with an error message; and a choice
    without any file of an allowed type leaves the selection as it was. *)
Theorem handleFileSelect_keeps_accepted (label : jsstring)
  (events : list event) (files : list File) :
  let w := run (constructed label) events in
  let w' := handleFileSelect files w in
  Forall accepted (selected w')
  /\ (forall f, f ∈ files -> ~ accepted f -> f ∉ selected w')
  /\ (List.filter (allowedFile toLowerCase) files <> [] ->
      selected w' = List.filter acceptable files)
  /\ (List.filter acceptable files = [] ->
      exists m, log w' = log w ++ [ShowMessage m error])
  /\ (List.filter (allowedFile toLowerCase) files = [] ->
      selected w' = selected w).
Proof.
  intros w. cbv zeta.
  assert (store_accepted w) as Hw.
  { apply store_accepted_run. by repeat constructor. }
  assert (Forall accepted (selected (handleFileSelect files w))) as Hsel.
  { apply store_accepted_selected.
    by apply (store_accepted_step w (FileSelect files)). }
  split; [done|]. split.
  { intros f _ Hf Hin. by eapply Forall_forall in Hsel. }
  destruct (handleFileSelect_cases files w)
    as [[Hnone Heq] | (Hsome & Hs & _ & _ & Hl)].
  - split; [done|]. split; [|by rewrite Heq].
    intros _. exists NoValidFiles. by rewrite Heq.
  - split; [done|]. split; [|done].
    intros Hnil. destruct (Hl Hnil) as [names ->]. eauto.
Qed.

(** *** One batch at a time *)

Lemma handleFileSelect_control (files : list File) (w : world) :
  tasks (handleFileSelect files w) = tasks w
  /\ uploadInProgress (mgr (handleFileSelect files w))
     = uploadInProgress (mgr w)
  /\ requests (log (handleFileSelect files w)) = requests (log w).
Proof.
  split; [|split]; cycle 2.
  { destruct (handleFileSelect_cases files w)
      as [[_ ->] | (_ & _ & _ & [-> | [names ->]] & _)]; simpl;
      rewrite ?requests_app, ?app_nil_r; done. }
  all: unfold Media.handleFileSelect.
  all: destruct (List.filter (allowedFile toLowerCase) files) as [|v valid];
    [done|].
  all: match goal with
       | |- context [match selected ?x with _ => _ end] => set (w' := x)
       end.
  all: assert (tasks w' = tasks w
               /\ uploadInProgress (mgr w') = uploadInProgress (mgr w))
         as [Ht Hu] by (unfold w'; by case_match).
  all: destruct (selected w'); [done|].
  all: by destruct (showPreview_frame w') as (Ht' & _ & Hu');
         rewrite ?Ht', ?Hu'.
Qed.

Lemma removeFile_control (index : nat) (w : world) :
  tasks (removeFile index w) = tasks w
  /\ uploadInProgress (mgr (removeFile index w)) = uploadInProgress (mgr w)
  /\ requests (log (removeFile index w)) = requests (log w).
Proof.
  unfold removeFile. rewrite log_showPreview.
  match goal with
  | |- context [showPreview ?x] =>
      by destruct (showPreview_frame x) as (-> & _ & ->)
  end.
Qed.

(** The events other than a submit and a settlement leave the flag and the
    suspended calls alone and start no upload. *)
Lemma step_control (w : world) (e : event) :
  match e with Submit | Settled _ _ => False | _ => True end ->
  tasks (step w e) = tasks w
  /\ uploadInProgress (mgr (step w e)) = uploadInProgress (mgr w)
  /\ requests (log (step w e)) = requests (log w).
Proof.
  destruct e as [files|index|d| |n o| |]; try done; intros _;
    unfold Media.step.
  - apply handleFileSelect_control.
  - apply removeFile_control.
  - by destruct (debouncedGalleryRefresh_frame w) as (_ & -> & _ & -> & ->).
  - unfold galleryTimer. destruct (galleryLoadTimeout (mgr w)); [|done].
    simpl. by rewrite requests_app, app_nil_r.
Qed.


Lemma settle_quiet (f : File) (o : outcome) (t : task) :
  requests (settle f o t).2 = []
  /\ iterated (settle f o t).1 = iterated t
  /\ nextIndex (settle f o t).1 = nextIndex t
  /\ entered (settle f o t).1 = entered t.
Proof.
  destruct o as [m|ok m|ok result]; simpl; try done.
  destruct (getProp result (lit "status")), (getProp result (lit "message"));
    try done.
  by destruct (ok && strictEqStr _ _).
Qed.




(** A submit while the flag is set changes the log only, and not by an
    upload. *)
Lemma handleUpload_in_progress (w : world) :
  uploadInProgress (mgr w) = true ->
  mgr (handleUpload w) = mgr w
  /\ store (handleUpload w) = store w
  /\ tasks (handleUpload w) = tasks w
  /\ requests (log (handleUpload w)) = requests (log w).
Proof.
  intros Hu. unfold handleUpload. rewrite Hu.
  destruct (selected w); simpl; by rewrite requests_app, app_nil_r.
Qed.



(** *** The tallies of a batch *)

Lemma settle_tally (f : File) (o : outcome) (t : task) :
  if accepts o then (settle f o t).1 = succeeded t
  else exists r, (settle f o t).1 = failed f r t.
Proof.
  destruct o as [m|ok m|ok result]; simpl; eauto.
  destruct result as [| |b|z|x|l|fields]; simpl; eauto;
    destruct ok; simpl; eauto.
  destruct (strictEqStr _ _); simpl; eauto.
Qed.

Lemma failures_cons (f : File) (o : outcome) (files : list File)
  (outcomes : list outcome) :
  failures (f :: files) (o :: outcomes)
  = (if accepts o then [] else [name f]) ++ failures files outcomes.
Proof. unfold failures. simpl. by destruct (accepts o). Qed.

(** The tallies after the upload of [f] has settled with [o]. *)
Lemma settle_counts (f : File) (o : outcome) (t : task) :
  let t' := (settle f o t).1 in
  (successCount t' + errorCount t' = S (successCount t + errorCount t))%nat
  /\ (length (errors t) = errorCount t -> length (errors t') = errorCount t')
  /\ successCount t'
     = (successCount t + length (List.filter accepts [o]))%nat
  /\ (errors t').*1 = (errors t).*1 ++ (if accepts o then [] else [name f]).
Proof.
  pose proof (settle_tally f o t) as H. simpl.
  destruct (accepts o); [rewrite H | destruct H as [r ->]]; simpl.
  - rewrite app_nil_r. repeat split; lia.
  - rewrite length_app, fmap_app. simpl. repeat split; lia.
Qed.

(** While the flag is set, an event that is neither a removal nor a
    settlement leaves the suspended call and every array alone. *)
Lemma step_undisturbed (w : world) (e : event) :
  uploadInProgress (mgr w) = true ->
  match e with RemoveFile _ | Settled _ _ => False | _ => True end ->
  tasks (step w e) = tasks w
  /\ uploadInProgress (mgr (step w e)) = true
  /\ requests (log (step w e)) = requests (log w)
  /\ forall l files, store w !! l = Some files ->
       store (step w e) !! l = Some files.
Proof.
  intros Hu He.
  assert (tasks (step w e) = tasks w
          /\ uploadInProgress (mgr (step w e)) = true
          /\ requests (log (step w e)) = requests (log w)) as (Ht & Hu' & Hr).
  { destruct e; try done;
      try (by match goal with
              | |- context [step w ?e] =>
                  destruct (step_control w e I) as (Ht & Hu' & Hr);
                  rewrite Ht, Hu', Hr
              end).
    unfold Media.step.
    destruct (handleUpload_in_progress w Hu) as (Hm & _ & Ht & Hr).
    by rewrite Hm, Ht, Hr. }
  split; [done|]. split; [done|]. split; [done|].
  intros l files Hl. destruct e as [fs|index|d| |n o| |]; try done;
    unfold Media.step.
  - destruct (handleFileSelect_cases fs w)
      as [[_ ->] | (_ & _ & -> & _)]; [done|].
    by apply lookup_app_l_Some.
  - by destruct (handleUpload_in_progress w Hu) as (_ & -> & _).
  - by destruct (debouncedGalleryRefresh_frame w) as (-> & _).
  - unfold galleryTimer. by destruct (galleryLoadTimeout (mgr w)).
Qed.

#[local] Ltac undisturbed_step :=
  match goal with
  | Hu : uploadInProgress (mgr ?w) = true
    |- context [Media.run ?lc ?w ((?e :: ?during) ++ ?l)] =>
      change (Media.run lc w ((e :: during) ++ l))
        with (Media.run lc (Media.step lc w e) (during ++ l));
      destruct (step_undisturbed w e Hu I) as (Ht' & Hu' & Hr' & Hs')
  end.

(** The loop from the moment at which the upload of the file at the
    position [k] is awaited, up to the step in which the last upload
    settles. *)
Lemma upload_loop (during : list event) :
  forall (w : world) (f : File) (t : task) (k : nat) (files : list File)
         (last : outcome),
    uploadInProgress (mgr w) = true ->
    tasks w = [(f, t)] ->
    store w !! iterated t = Some files ->
    nextIndex t = S k ->
    files !! k = Some f ->
    Forall undisturbing during ->
    (length (outcomes_of during) + 1 = length files - k)%nat ->
    exists t' w'',
      run w (during ++ [Settled 0 last]) = finish t' w''
      /\ requests (log w'')
         = requests (log w) ++ (formData (entered t) <$> drop (S k) files)
      /\ (successCount t' + errorCount t'
          = successCount t + errorCount t + (length files - k))%nat
      /\ (length (errors t) = errorCount t ->
          length (errors t') = errorCount t')
      /\ successCount t'
         = (successCount t
            + length (List.filter accepts (outcomes_of during ++ [last])))%nat
      /\ (errors t').*1
         = (errors t).*1
           ++ failures (drop k files) (outcomes_of during ++ [last]).
Proof.
  induction during as [|e during IH];
    intros w f t k files last Hu Ht Hs Hk Hf Hd Hlen.
  - simpl in *. unfold resume. rewrite Ht. simpl.
    pose proof (settle_counts f last t) as (Hsum & Hlenerr & Hsucc & Herr).
    destruct (settle_quiet f last t) as (Hq & Hi & Hx & He).
    destruct (settle f last t) as [t' effs]. simpl in *.
    exists t', (emit effs (set_tasks [] w)).
    assert (files !! S k = None) as Hnone by (apply lookup_ge_None; lia).
    unfold advance, deref. simpl. rewrite Hi, Hx, Hk, Hs. simpl.
    rewrite Hnone. rewrite requests_app, Hq, drop_ge by lia.
    rewrite (drop_S _ _ _ Hf), failures_cons.
    replace (failures (drop (S k) files) []) with (@nil jsstring)
      by (unfold failures; by rewrite zip_with_nil_r).
    simpl. rewrite !app_nil_r. repeat split; try done; lia.
  - apply Forall_cons in Hd as [He Hd].
    destruct e as [fs|index|d| |n o| |]; try done.
    4: {
      simpl in He. subst n. simpl in Hlen.
      change (run w ((Settled 0 o :: during) ++ [Settled 0 last]))
        with (run (resume 0 o w) (during ++ [Settled 0 last])).
      unfold resume. rewrite Ht. simpl.
      pose proof (settle_counts f o t) as (Hsum & Hlenerr & Hsucc & Herr).
      destruct (settle_quiet f o t) as (Hq & Hi & Hx & Hent).
      destruct (settle f o t) as [t1 effs]. simpl in *.
      destruct (files !! S k) as [f'|] eqn:Hnext;
        [|apply lookup_ge_None in Hnext; lia].
      unfold advance, deref. simpl. rewrite Hi, Hx, Hk, Hs. simpl.
      rewrite Hnext.
      match goal with
      | |- context [run ?x _] => set (w2 := x)
      end.
      destruct (IH w2 f' (stepped t1) (S k) files last)
        as (t' & w'' & Hrun & Hreq & Hsum' & Hlen' & Hsucc' & Herr');
        try done.
      { simpl. by rewrite Hi. }
      { simpl. by rewrite Hx, Hk. }
      { lia. }
      exists t', w''. split; [done|]. simpl in *. split.
      { rewrite Hreq, !requests_app, Hq, Hent, (drop_S _ _ _ Hnext). simpl.
        by rewrite app_nil_r, <- app_assoc. }
      split; [lia|]. split; [auto|]. split.
      { rewrite Hsucc', Hsucc. destruct (accepts o); simpl; lia. }
      rewrite Herr', Herr, (drop_S _ _ _ Hf), failures_cons.
      by rewrite app_assoc. }
    all: undisturbed_step;
      match goal with
      | IH : forall w : world, _,
        Hu' : uploadInProgress (mgr (Media.step _ ?w ?e)) = true,
        Ht' : tasks (Media.step _ ?w ?e) = tasks ?w,
        Hs' : forall l files, store ?w !! l = Some files -> _,
        Hr' : requests (log (Media.step _ ?w ?e)) = _
        |- _ =>
          destruct (IH _ f t k files last Hu' ltac:(by rewrite Ht')
                      (Hs' _ _ Hs) Hk Hf Hd Hlen)
            as (t' & w'' & Hrun & Hreq & Hrest);
          exists t', w''; split; [done|]; split; [by rewrite Hreq, Hr'|done]
      end.
Qed.

(** C3, amended. When [handleUpload] starts on a selection and no file is
    removed from the selection before the last upload has settled, there
    is one upload for each file that was selected, in their order and none
    twice; every settlement adds one to [successCount] or one to
    [errorCount], so that the loop is left with tallies that add up to the
    number of the files; and [errors] has one entry for each failed file,
    under its name. *)
Theorem handleUpload_tallies_each_file (w : world) (during : list event)
  (last : outcome) :
  uploadInProgress (mgr w) = false ->
  tasks w = [] ->
  selected w <> [] ->
  Forall undisturbing during ->
  (length (outcomes_of during) + 1 = length (selected w))%nat ->
  let w' := run w (Submit :: during ++ [Settled 0 last]) in
  let outcomes := outcomes_of during ++ [last] in
  tallied_batch (selected w) w w'
  /\ exists t w'',
       w' = finish t w''
       /\ successCount t = length (List.filter accepts outcomes)
       /\ errorCount t = length (failures (selected w) outcomes)
       /\ (errors t).*1 = failures (selected w) outcomes.
Proof.
  intros Hu Ht Hsel Hd Hlen w' outcomes.
  assert (store w !! selectedFiles (mgr w) = Some (selected w)) as Hs.
  { unfold selected, deref in *.
    by destruct (store w !! selectedFiles (mgr w)). }
  destruct (selected w) as [|f0 files] eqn:Hfiles; [done|].
  assert (exists t' w'',
            w' = finish t' w''
            /\ requests (log w'')
               = requests (log w) ++ (formData (form (mgr w)) <$> f0 :: files)
            /\ (successCount t' + errorCount t' = length (f0 :: files))%nat
            /\ length (errors t') = errorCount t'
            /\ successCount t' = length (List.filter accepts outcomes)
            /\ (errors t').*1 = failures (f0 :: files) outcomes)
    as (t' & w'' & Hrun & Hreq & Hsum & Hlenerr & Hsucc & Herr).
  { unfold w'.
    change (run w (Submit :: during ++ [Settled 0 last]))
      with (run (handleUpload w) (during ++ [Settled 0 last])).
    unfold handleUpload. rewrite Hfiles, Hu.
    unfold advance, deref. simpl. rewrite Hs, Ht. simpl.
    match goal with
    | |- context [Media.run _ ?x _] => set (w1 := x)
    end.
    destruct (upload_loop during w1 f0 (stepped (started w)) 0 (f0 :: files)
                last) as (t' & w'' & Hrun & Hreq & Hsum & Hl & Hsucc & Herr);
      try done.
    exists t', w''. simpl in *. split; [done|]. split.
    { rewrite Hreq, !requests_app. simpl.
      by rewrite app_nil_r, <- app_assoc. }
    split; [done|]. split; [by apply Hl|]. done. }
  split.
  - split; [|by exists t', w''].
    rewrite Hrun.
    by destruct (finish_frame t' w'') as (_ & _ & -> & _).
  - exists t', w''. repeat split; try done.
    rewrite <- Hlenerr, <- Herr. by rewrite length_fmap.
Qed.

End Managing.

Section ManagingExamples.

Import Media.

Lemma handleUpload_tallies_each_file_witness :
  uploadInProgress (mgr three_selected) = false
  /\ tasks three_selected = []
  /\ selected three_selected <> []
  /\ Forall undisturbing example_during
  /\ (length (outcomes_of example_during) + 1
      = length (selected three_selected))%nat
  /\ tallied_batch (selected three_selected) three_selected
       (run toLowerCase_ascii three_selected
          (Submit :: example_during ++ [Settled 0 stored]))
  /\ exists t w'',
       run toLowerCase_ascii three_selected
         (Submit :: example_during ++ [Settled 0 stored])
       = finish t w''
       /\ successCount t
          = length (List.filter accepts (outcomes_of example_during ++ [stored]))
       /\ errorCount t
          = length (failures (selected three_selected)
                      (outcomes_of example_during ++ [stored]))
       /\ (errors t).*1
          = failures (selected three_selected)
              (outcomes_of example_during ++ [stored]).
Proof.
  assert (Forall undisturbing example_during) as Hd
    by (repeat constructor).
  repeat (split; [done || by vm_compute|]).
  by apply (handleUpload_tallies_each_file toLowerCase_ascii three_selected
              example_during stored).
Defined.

(** C3 as it is worded fails when the user removes a file from the preview
    while the batch is under way: the batch ends, the second of the three
    selected files was never uploaded, and the tallies add up to two. *)
Lemma handleUpload_removal_counterexample :
  selected three_selected = [photo; scan; clip]
  /\ uploadInProgress (mgr (run toLowerCase_ascii three_selected example_removal))
     = false
  /\ tasks (run toLowerCase_ascii three_selected example_removal) = []
  /\ original_filename
     <$> requests (log (run toLowerCase_ascii three_selected example_removal))
     = [name photo; name clip]
  /\ ShowMessage (Uploaded 2) success
     ∈ log (run toLowerCase_ascii three_selected example_removal)
  /\ ~ tallied_batch (selected three_selected) three_selected
         (run toLowerCase_ascii three_selected example_removal).
Proof.
  split; [by vm_compute|]. split; [by vm_compute|]. split; [by vm_compute|].
  split; [by vm_compute|]. split.
  - apply list_elem_of_In. vm_compute.
    repeat (try (left; reflexivity); right).
  - intros [Hreq _]. apply (f_equal length) in Hreq.
    vm_compute in Hreq. discriminate.
Qed.

End ManagingExamples.

(** *** The debounce timer *)

Section Debouncing.

Import Media.

Variable toLowerCase : jsstring -> jsstring.

Lemma timeouts_set_app (l l' : list effect) :
  timeouts_set (l ++ l') = timeouts_set l ++ timeouts_set l'.
Proof. apply omap_app. Qed.

Lemma timeouts_cleared_app (l l' : list effect) :
  timeouts_cleared (l ++ l') = timeouts_cleared l ++ timeouts_cleared l'.
Proof. apply omap_app. Qed.

Lemma gallery_loads_app (l l' : list effect) :
  gallery_loads (l ++ l') = (gallery_loads l + gallery_loads l')%nat.
Proof. unfold gallery_loads. by rewrite List.filter_app, length_app. Qed.

(** Effects that are no business of the timer keep the record. *)
Lemma debounced_emit (effs : list effect) (w : world) :
  timeouts_set effs = [] -> timeouts_cleared effs = [] ->
  gallery_loads effs = 0%nat ->
  debounced w -> debounced (emit effs w).
Proof.
  intros Hs Hc Hl. unfold debounced. simpl.
  by rewrite timeouts_set_app, timeouts_cleared_app, gallery_loads_app,
    Hs, Hc, Hl, !app_nil_r, Nat.add_0_r.
Qed.

Lemma debounced_set_mgr (m : manager) (w : world) :
  galleryLoadTimeout m = galleryLoadTimeout (mgr w) ->
  debounced w -> debounced (set_mgr m w).
Proof. intros Hm. unfold debounced. simpl. by rewrite Hm. Qed.

Lemma debounced_showMessage (m : message) (t : message_type) (w : world) :
  debounced w -> debounced (showMessage m t w).
Proof. by apply debounced_emit. Qed.

Lemma debounced_showPreview (w : world) :
  debounced w -> debounced (showPreview w).
Proof. unfold showPreview. destruct (selected w); by apply debounced_set_mgr. Qed.

Lemma debounced_assign (files : list File) (w : world) :
  debounced w -> debounced (assign_selectedFiles files w).
Proof. done. Qed.

Lemma debounced_set_store (st : list (list File)) (w : world) :
  debounced w -> debounced (set_store st w).
Proof. done. Qed.

Lemma debounced_set_tasks (ts : list (File * task)) (w : world) :
  debounced w -> debounced (set_tasks ts w).
Proof. done. Qed.

Lemma NoDup_snoc {A : Type} (l : list A) (x : A) :
  NoDup l -> x ∉ l -> NoDup (l ++ [x]).
Proof.
  intros Hl Hx. apply NoDup_app. split; [done|].
  split; [|apply NoDup_singleton].
  by intros y Hy ->%list_elem_of_singleton.
Qed.

(** A refresh clears the pending timer, if there is one, and sets a new
    one. *)
Lemma debounced_refresh (w : world) :
  debounced w -> debounced (debouncedGalleryRefresh w).
Proof.
  intros (Hset & Hclr & Hsub & Hlt & Hpend & Hlen).
  assert (timers w ∉ timeouts_set (log w)) as Hfresh.
  { intros Hin. apply Hlt in Hin. lia. }
  assert (timers w ∉ timeouts_cleared (log w)) as Hfresh'.
  { intros Hin. by apply Hfresh, Hsub. }
  assert (forall x, x ∈ timeouts_set (log w) ++ [timers w] ->
            (x < S (timers w))%nat) as Hlt'.
  { intros x [Hx| ->%list_elem_of_singleton]%elem_of_app;
      [apply Hlt in Hx|]; lia. }
  unfold debouncedGalleryRefresh, debounced.
  destruct (galleryLoadTimeout (mgr w)) as [timer|] eqn:Hg; simpl in *;
    rewrite ?timeouts_set_app, ?timeouts_cleared_app, ?gallery_loads_app;
    simpl; rewrite ?app_nil_r, ?length_app, ?Nat.add_0_r; simpl.
  - destruct (Hpend timer eq_refl) as [Hin Hout].
    split; [by apply NoDup_snoc|]. split; [by apply NoDup_snoc|].
    split.
    { intros x [Hx| ->%list_elem_of_singleton]%elem_of_app;
        apply elem_of_app; left; [by apply Hsub | done]. }
    split; [done|]. split; [|lia].
    intros x [= <-]. split; [apply elem_of_app; right; by left|].
    intros [Hx| Heq%list_elem_of_singleton]%elem_of_app; [done|].
    apply Hfresh. by rewrite Heq.
  - split; [by apply NoDup_snoc|]. split; [done|].
    split. { intros x Hx. apply elem_of_app. left. by apply Hsub. }
    split; [done|]. split; [|lia].
    intros x [= <-]. split; [apply elem_of_app; right; by left | done].
Qed.

(** The timer that expires starts one load and is pending no more. *)
Lemma debounced_galleryTimer (w : world) :
  debounced w -> debounced (galleryTimer w).
Proof.
  intros (Hset & Hclr & Hsub & Hlt & Hpend & Hlen).
  unfold galleryTimer, debounced.
  destruct (galleryLoadTimeout (mgr w)) as [timer|] eqn:Hg; [|by rewrite Hg].
  simpl in *.
  rewrite timeouts_set_app, timeouts_cleared_app, gallery_loads_app.
  simpl. rewrite !app_nil_r.
  change (gallery_loads [LoadMediaGallery]) with 1%nat.
  split; [done|]. split; [done|]. split; [done|]. split; [done|].
  split; [done|lia].
Qed.

Lemma debounced_finish (t : task) (w : world) :
  debounced w -> debounced (finish t w).
Proof.
  intros Hw. unfold finish.
  set (w1 := set_mgr (with_upload false (originalBtnText t) (mgr w)) w).
  assert (debounced w1) as H1 by by apply debounced_set_mgr.
  clearbody w1.
  assert (debounced
            match successCount t with
            | S _ =>
                showMessage (Uploaded (successCount t)) success
                  (set_mgr
                     (with_form no_details false
                        (mgr (debouncedGalleryRefresh
                                (showPreview
                                   (assign_selectedFiles []
                                      (emit [Console (Summary (Uploaded (successCount t)))]
                                         w1))))))
                     (debouncedGalleryRefresh
                        (showPreview
                           (assign_selectedFiles []
                              (emit [Console (Summary (Uploaded (successCount t)))]
                                 w1)))))
            | O => w1
            end) as H2.
  { destruct (successCount t); [done|].
    apply debounced_showMessage, debounced_set_mgr; [done|].
    apply debounced_refresh, debounced_showPreview, debounced_assign.
    by apply debounced_emit. }
  destruct (errorCount t); [done|].
  apply debounced_showMessage. by apply debounced_emit.
Qed.

Lemma debounced_advance (t : task) (w : world) :
  debounced w -> debounced (advance t w).
Proof.
  intros Hw. unfold advance.
  destruct (deref (store w) (iterated t) !! nextIndex t) as [f|];
    [|by apply debounced_finish].
  apply debounced_set_tasks. by apply debounced_emit.
Qed.

Lemma debounced_step (w : world) (e : event) :
  debounced w -> debounced (step toLowerCase w e).
Proof.
  intros Hw. destruct e as [files|index|d| |n o| |]; unfold step.
  - unfold handleFileSelect.
    destruct (List.filter (allowedFile toLowerCase) files) as [|v valid];
      [by apply debounced_showMessage|].
    match goal with
    | |- debounced match selected ?x with _ => _ end =>
        assert (debounced x) as Hx; [|by destruct (selected x);
                                        [|apply debounced_showPreview]]
    end.
    destruct (List.filter (fun f => maxSize <? size f) (v :: valid));
      apply debounced_assign; [done|by apply debounced_showMessage].
  - unfold removeFile. by apply debounced_showPreview, debounced_set_store.
  - by apply debounced_set_mgr.
  - unfold handleUpload. destruct (selected w);
      [by apply debounced_showMessage|].
    destruct (uploadInProgress (mgr w)); [by apply debounced_emit|].
    by apply debounced_advance, debounced_emit.
  - unfold resume. destruct (tasks w !! n) as [[f t]|]; [|done].
    pose proof (settle_quiet f o t) as (Hq & _).
    destruct (settle f o t) as [t' effs] eqn:Hsettle.
    apply debounced_advance, debounced_emit; try done.
    all: destruct o as [m|ok m|ok result]; simpl in Hsettle;
      repeat case_match; by simplify_eq.
  - by apply debounced_refresh.
  - by apply debounced_galleryTimer.
Qed.

(** X9. In every state that the manager reaches, each timer that
    [debouncedGalleryRefresh] has set is accounted for: it was cleared by a
    later refresh, or it expired and started one load of the gallery, or it
    is the one timer that is still pending, the timer that
    [galleryLoadTimeout] holds.  So there is never more than one pending
    timer, and no more loads than refreshes. *)
Theorem debouncedGalleryRefresh_accounts_for_timers (label : jsstring)
  (events : list event) :
  let w := run toLowerCase (constructed label) events in
  debounced w
  /\ (gallery_loads (log w) <= length (timeouts_set (log w)))%nat
  /\ (length (timeouts_set (log w))
      <= length (timeouts_cleared (log w)) + gallery_loads (log w) + 1)%nat.
Proof.
  intros w.
  assert (debounced w) as Hw.
  { unfold w, run.
    assert (debounced (constructed label)) as H0.
    { unfold debounced. simpl. repeat split; try done; try constructor.
      all: by intros ? ?%elem_of_nil. }
    revert H0. generalize (constructed label).
    induction events as [|e events IH]; intros w0 H0; [done|].
    simpl. by apply IH, debounced_step. }
  split; [done|].
  destruct Hw as (_ & _ & _ & _ & _ & Hlen).
  destruct (galleryLoadTimeout (mgr w)); simpl in Hlen; lia.
Qed.

Lemma debouncedGalleryRefresh_counts (w : world) :
  gallery_loads (log (debouncedGalleryRefresh w)) = gallery_loads (log w)
  /\ length (timeouts_set (log (debouncedGalleryRefresh w)))
     = S (length (timeouts_set (log w)))
  /\ exists timer, galleryLoadTimeout (mgr (debouncedGalleryRefresh w)) = Some timer.
Proof.
  unfold debouncedGalleryRefresh.
  destruct (galleryLoadTimeout (mgr w)); simpl;
    rewrite ?gallery_loads_app, ?timeouts_set_app, ?length_app; simpl;
    rewrite ?gallery_loads_app, ?timeouts_set_app, ?length_app; simpl.
  all: split; [unfold gallery_loads; simpl; lia|]; split; [lia|eauto].
Qed.

(** X10. A burst of refreshes is answered by one load of the gallery: after
    one or more calls of [debouncedGalleryRefresh] in a row, with [k + 1]
    timers set, the timer that expires starts one load, no timer is
    pending then, and an expiry of a timer that was cleared starts
    nothing. *)
Theorem debouncedGalleryRefresh_burst (w : world) (k : nat) :
  let burst := Nat.iter (S k) debouncedGalleryRefresh w in
  gallery_loads (log burst) = gallery_loads (log w)
  /\ length (timeouts_set (log burst)) = (length (timeouts_set (log w)) + S k)%nat
  /\ (exists timer, galleryLoadTimeout (mgr burst) = Some timer)
  /\ gallery_loads (log (galleryTimer burst)) = S (gallery_loads (log w))
  /\ galleryLoadTimeout (mgr (galleryTimer burst)) = None
  /\ galleryTimer (galleryTimer burst) = galleryTimer burst.
Proof.
  intros burst.
  assert (forall n,
            gallery_loads (log (Nat.iter n debouncedGalleryRefresh w))
            = gallery_loads (log w)
            /\ length (timeouts_set (log (Nat.iter n debouncedGalleryRefresh w)))
               = (length (timeouts_set (log w)) + n)%nat) as Hiter.
  { induction n as [|n [Hl Hs]]; [by rewrite Nat.add_0_r|].
    change (Nat.iter (S n) debouncedGalleryRefresh w)
      with (debouncedGalleryRefresh (Nat.iter n debouncedGalleryRefresh w)).
    destruct (debouncedGalleryRefresh_counts
                (Nat.iter n debouncedGalleryRefresh w)) as (-> & -> & _).
    split; [done|lia]. }
  destruct (Hiter (S k)) as [Hl Hs]. fold burst in Hl, Hs.
  assert (exists timer, galleryLoadTimeout (mgr burst) = Some timer)
    as [timer Ht].
  { apply (debouncedGalleryRefresh_counts (Nat.iter k debouncedGalleryRefresh w)). }
  split; [done|]. split; [done|]. split; [eauto|].
  clearbody burst.
  assert (galleryTimer burst
          = set_mgr (with_timeout None (mgr burst)) (emit [LoadMediaGallery] burst))
    as ->.
  { unfold galleryTimer. by rewrite Ht. }
  split.
  { simpl. rewrite gallery_loads_app, Hl. unfold gallery_loads. simpl. lia. }
  done.
Qed.

End Debouncing.

(** *** The preview, and the end of a batch *)

Section Previewing.

Import Media.

Variable toLowerCase : jsstring -> jsstring.

Lemma preview_in_step_showPreview (w : world) : preview_in_step (showPreview w).
Proof.
  unfold preview_in_step, showPreview.
  destruct (selected w) as [|f files] eqn:Hs; [by left|right].
  by rewrite <- Hs.
Qed.

Lemma preview_in_step_emit (effs : list effect) (w : world) :
  preview_in_step w -> preview_in_step (emit effs w).
Proof. done. Qed.

Lemma preview_in_step_refresh (w : world) :
  preview_in_step w -> preview_in_step (debouncedGalleryRefresh w).
Proof.
  unfold preview_in_step, debouncedGalleryRefresh, selected.
  by destruct (galleryLoadTimeout (mgr w)).
Qed.

Lemma debouncedGalleryRefresh_mgr (w : world) :
  exists timer effs,
    mgr (debouncedGalleryRefresh w) = with_timeout (Some timer) (mgr w)
    /\ store (debouncedGalleryRefresh w) = store w
    /\ tasks (debouncedGalleryRefresh w) = tasks w
    /\ log (debouncedGalleryRefresh w) = log w ++ effs.
Proof.
  unfold debouncedGalleryRefresh.
  destruct (galleryLoadTimeout (mgr w)) as [timer|]; simpl.
  - eexists _, _. repeat split. by rewrite <- app_assoc.
  - eexists _, _. by repeat split.
Qed.

(** The manager when [handleUpload] returns. *)
Lemma finish_view (t : task) (w : world) :
  uploadInProgress (mgr (finish t w)) = false
  /\ uploadBtn_disabled (mgr (finish t w)) = false
  /\ uploadBtn_innerHTML (mgr (finish t w)) = originalBtnText t
  /\ tasks (finish t w) = tasks w
  /\ match successCount t with
     | S _ =>
         selected (finish t w) = []
         /\ preview (mgr (finish t w)) = []
         /\ uploadForm_display (mgr (finish t w)) = false
         /\ form (mgr (finish t w)) = no_details
         /\ (exists timer, galleryLoadTimeout (mgr (finish t w)) = Some timer)
         /\ ShowMessage (Uploaded (successCount t)) success ∈ log (finish t w)
     | O =>
         selected (finish t w) = selected w
         /\ preview (mgr (finish t w)) = preview (mgr w)
         /\ uploadForm_display (mgr (finish t w)) = uploadForm_display (mgr w)
         /\ form (mgr (finish t w)) = form (mgr w)
         /\ galleryLoadTimeout (mgr (finish t w)) = galleryLoadTimeout (mgr w)
     end
  /\ match errorCount t with
     | S _ =>
         ShowMessage (FailedToUpload (errorCount t) (errors t)) error
         ∈ log (finish t w)
     | O => True
     end.
Proof.
  unfold finish.
  set (w1 := set_mgr (with_upload false (originalBtnText t) (mgr w)) w).
  destruct (successCount t) as [|n] eqn:Hn.
  - destruct (errorCount t) as [|k]; simpl; repeat split; try done.
    rewrite ?elem_of_app, ?elem_of_cons. eauto 10.
  - set (w2 := assign_selectedFiles []
                 (emit [Console (Summary (Uploaded (S n)))] w1)).
    assert (selected w2 = []) as Hsel by apply selected_assign.
    assert (showPreview w2 = set_mgr (with_preview [] false (mgr w2)) w2) as ->.
    { unfold showPreview. by rewrite Hsel. }
    destruct (debouncedGalleryRefresh_mgr
                (set_mgr (with_preview [] false (mgr w2)) w2))
      as (timer & effs & Hm & Hst & Hts & Hlog).
    revert Hm Hst Hts Hlog.
    generalize (debouncedGalleryRefresh
                  (set_mgr (with_preview [] false (mgr w2)) w2)).
    intros w3 Hm Hst Hts Hlog.
    destruct (errorCount t) as [|k]; simpl; rewrite ?Hm, ?Hts; simpl;
      (split; [done|]); (split; [done|]); (split; [done|]); (split; [done|]).
    + split; [|done]. split.
      { unfold selected, deref. simpl. rewrite ?Hm, Hst. simpl.
        by rewrite lookup_app_r, Nat.sub_diag by done. }
      split; [done|]. split; [done|]. split; [done|]. split; [by eauto|].
      apply elem_of_app. right. by left.
    + split.
      * split.
        { unfold selected, deref. simpl. rewrite ?Hm, Hst. simpl.
          by rewrite lookup_app_r, Nat.sub_diag by done. }
        split; [done|]. split; [done|]. split; [done|]. split; [by eauto|].
        rewrite !elem_of_app, !elem_of_cons. eauto 10.
      * rewrite !elem_of_app, !elem_of_cons. eauto 10.
Qed.

Lemma preview_in_step_finish (t : task) (w : world) :
  preview_in_step w -> preview_in_step (finish t w).
Proof.
  destruct (finish_view t w) as (_ & _ & _ & _ & Hv & _).
  unfold preview_in_step.
  destruct (successCount t); [|by left; apply Hv].
  destruct Hv as (-> & -> & -> & _). done.
Qed.

Lemma preview_in_step_advance (t : task) (w : world) :
  preview_in_step w -> preview_in_step (advance t w).
Proof.
  unfold advance.
  destruct (deref (store w) (iterated t) !! nextIndex t); [done|].
  apply preview_in_step_finish.
Qed.

Lemma preview_in_step_step (w : world) (e : event) :
  preview_in_step w -> preview_in_step (step toLowerCase w e).
Proof.
  intros Hw. destruct e as [files|index|d| |n o| |]; unfold step.
  - unfold handleFileSelect.
    destruct (List.filter (allowedFile toLowerCase) files) as [|v valid];
      [done|].
    match goal with
    | |- preview_in_step match selected ?x with _ => _ end =>
        destruct (selected x) eqn:Hs;
          [by left | apply preview_in_step_showPreview]
    end.
  - apply preview_in_step_showPreview.
  - done.
  - unfold handleUpload. destruct (selected w) eqn:Hs; [done|].
    destruct (uploadInProgress (mgr w)); [done|].
    by apply preview_in_step_advance.
  - unfold resume. destruct (tasks w !! n) as [[f t]|]; [|done].
    destruct (settle f o t) as [t' effs].
    by apply preview_in_step_advance.
  - by apply preview_in_step_refresh.
  - unfold galleryTimer. by destruct (galleryLoadTimeout (mgr w)).
Qed.

(** X11. In every state that the manager reaches in which files are
    selected, the preview shows exactly the selected files, in their
    order, and the upload form is displayed: what the user sees is what a
    submit uploads. *)
Theorem showPreview_shows_selection (label : jsstring) (events : list event) :
  let w := run toLowerCase (constructed label) events in
  selected w = []
  \/ (preview (mgr w) = selected w /\ uploadForm_display (mgr w) = true).
Proof.
  intros w. change (preview_in_step w). unfold w, run.
  assert (preview_in_step (constructed label)) as H0 by by left.
  revert H0. generalize (constructed label).
  induction events as [|e events IH]; intros w0 H0; [done|].
  simpl. by apply IH, preview_in_step_step.
Qed.

Lemma settle_originalBtnText (f : File) (o : outcome) (t : task) :
  originalBtnText (settle f o t).1 = originalBtnText t.
Proof.
  pose proof (settle_tally f o t) as H.
  destruct (accepts o); [by rewrite H | by destruct H as [r ->]].
Qed.

(** The loop while nothing but the settlements of its uploads happens. *)
Lemma settlements_loop (outcomes : list outcome) :
  forall (w : world) (f : File) (t : task) (k : nat) (files : list File),
    tasks w = [(f, t)] ->
    store w !! iterated t = Some files ->
    nextIndex t = S k ->
    files !! k = Some f ->
    (length outcomes = length files - k)%nat ->
    exists t' w'',
      run toLowerCase w (settlements outcomes) = finish t' w''
      /\ mgr w'' = mgr w
      /\ store w'' = store w
      /\ tasks w'' = []
      /\ originalBtnText t' = originalBtnText t
      /\ successCount t'
         = (successCount t + length (List.filter accepts outcomes))%nat
      /\ (successCount t' + errorCount t'
          = successCount t + errorCount t + length outcomes)%nat
      /\ (length (errors t) = errorCount t ->
          length (errors t') = errorCount t').
Proof.
  induction outcomes as [|o outcomes IH];
    intros w f t k files Ht Hs Hk Hf Hlen.
  { apply lookup_lt_Some in Hf. simpl in Hlen. lia. }
  change (run toLowerCase w (settlements (o :: outcomes)))
    with (run toLowerCase (resume 0 o w) (settlements outcomes)).
  unfold resume. rewrite Ht. simpl.
  pose proof (settle_counts f o t) as (Hsum & Herrs & Hsucc & _).
  pose proof (settle_originalBtnText f o t) as Hbtn.
  destruct (settle_quiet f o t) as (_ & Hi & Hx & _).
  destruct (settle f o t) as [t1 effs]. simpl in *.
  unfold advance, deref. simpl. rewrite Hi, Hx, Hk, Hs. simpl.
  destruct (files !! S k) as [f'|] eqn:Hnext.
  - match goal with
    | |- context [run _ ?x _] => set (w2 := x)
    end.
    destruct (IH w2 f' (stepped t1) (S k) files)
      as (t' & w'' & Hrun & Hm & Hst & Hts & Hb & Hsc & Hsm & Hle); try done.
    { simpl. by rewrite Hi. }
    { simpl. by rewrite Hx, Hk. }
    { apply lookup_lt_Some in Hnext. lia. }
    exists t', w''. simpl in *. rewrite Hrun, Hm, Hst, Hb, Hsc, Hbtn, Hsucc.
    split; [done|]. split; [done|]. split; [done|]. split; [done|].
    split; [done|]. split; [destruct (accepts o); simpl; lia|].
    split; [lia|auto].
  - apply lookup_ge_None in Hnext.
    destruct outcomes as [|o' outcomes]; [|simpl in Hlen; lia].
    eexists t1, _. split; [done|]. simpl. rewrite Hsucc.
    split; [done|]. split; [done|]. split; [done|]. split; [done|].
    split; [lia|]. split; [lia|done].
Qed.

(** X12. The end of a batch during which the user does nothing: the button
    is enabled again under the label that it had, and no call is under
    way.  When at least one upload was accepted the selection is emptied,
    with the files whose upload failed, the preview and the form are
    cleared and hidden, a refresh of the gallery is scheduled and the
    number of accepted uploads is reported; when none was accepted the
    selection, the preview and the entries of the form stay for another
    try.  Every failure is reported. *)
Theorem handleUpload_batch_outcome (w : world) (outcomes : list outcome) :
  uploadInProgress (mgr w) = false ->
  tasks w = [] ->
  selected w <> [] ->
  length outcomes = length (selected w) ->
  let w' := run toLowerCase w (Submit :: settlements outcomes) in
  let accepted := length (List.filter accepts outcomes) in
  uploadInProgress (mgr w') = false
  /\ tasks w' = []
  /\ uploadBtn_disabled (mgr w') = false
  /\ uploadBtn_innerHTML (mgr w') = uploadBtn_innerHTML (mgr w)
  /\ match accepted with
     | S _ =>
         selected w' = []
         /\ preview (mgr w') = []
         /\ uploadForm_display (mgr w') = false
         /\ form (mgr w') = no_details
         /\ (exists timer, galleryLoadTimeout (mgr w') = Some timer)
         /\ ShowMessage (Uploaded accepted) success ∈ log w'
     | O =>
         selected w' = selected w
         /\ preview (mgr w') = preview (mgr w)
         /\ uploadForm_display (mgr w') = uploadForm_display (mgr w)
         /\ form (mgr w') = form (mgr w)
         /\ galleryLoadTimeout (mgr w') = galleryLoadTimeout (mgr w)
     end
  /\ ((accepted < length outcomes)%nat ->
      exists errors,
        length errors = (length outcomes - accepted)%nat
        /\ ShowMessage (FailedToUpload (length outcomes - accepted) errors) error
           ∈ log w').
Proof.
  intros Hu Ht Hsel Hlen w' accepted.
  assert (store w !! selectedFiles (mgr w) = Some (selected w)) as Hs.
  { unfold selected, deref in *.
    by destruct (store w !! selectedFiles (mgr w)). }
  destruct (selected w) as [|f0 files] eqn:Hfiles; [done|].
  assert (exists t' w'',
            w' = finish t' w''
            /\ mgr w'' = with_upload true uploadingLabel (mgr w)
            /\ store w'' = store w
            /\ tasks w'' = []
            /\ originalBtnText t' = uploadBtn_innerHTML (mgr w)
            /\ successCount t' = accepted
            /\ (successCount t' + errorCount t' = length outcomes)%nat
            /\ length (errors t') = errorCount t')
    as (t' & w'' & -> & Hm & Hst & Hts & Hb & Hsc & Hsum & Hle).
  { unfold w'.
    change (run toLowerCase w (Submit :: settlements outcomes))
      with (run toLowerCase (handleUpload w) (settlements outcomes)).
    unfold handleUpload. rewrite Hfiles, Hu.
    unfold advance, deref. simpl. rewrite Hs, Ht. simpl.
    match goal with
    | |- context [Media.run _ ?x _] => set (w1 := x)
    end.
    destruct (settlements_loop outcomes w1 f0 (stepped (started w)) 0
                (f0 :: files))
      as (t' & w'' & Hrun & Hm & Hst & Hts & Hb & Hsc & Hsum & Hle);
      try done.
    exists t', w''. simpl in *.
    split; [done|]. split; [done|]. split; [done|]. split; [done|].
    split; [done|]. split; [done|]. split; [done|]. by apply Hle. }
  destruct (finish_view t' w'') as (Hfu & Hfd & Hfl & Hft & Hv & He).
  rewrite Hfu, Hfd, Hfl, Hft, Hts, Hb.
  split; [done|]. split; [done|]. split; [done|]. split; [done|].
  rewrite Hsc in Hv. split.
  - destruct accepted.
    + destruct Hv as (-> & -> & -> & -> & ->). rewrite Hm.
      split; [|done]. unfold selected, deref. rewrite Hst, Hm. simpl.
      by rewrite Hs.
    + exact Hv.
  - intros Hless. exists (errors t').
    assert (errorCount t' = (length outcomes - accepted)%nat) as Herr by lia.
    rewrite <- Herr.
    destruct (errorCount t') eqn:Hk; [lia|]. split; done.
Qed.

End Previewing.

(** *** Loading the gallery *)

Section GalleryLoading.

Import Media.







End GalleryLoading.

(** *** The classes of the items, and the title of an image *)

Section GalleryItems.

Import Media.

Lemma beforeSlash_prefix (front rest : jsstring) :
  47 ∉ front -> beforeSlash (front ++ 47 :: rest) = front.
Proof.
  induction front as [|c front IH]; intros Hf; [done|].
  simpl. destruct (N.eqb_spec c 47) as [->|Hc].
  - exfalso. apply Hf. by left.
  - rewrite IH; [done|]. intros Hin. apply Hf. by right.
Qed.

(** The class that [renderMediaGallery] gives an item whose [file_type]
    is the type [front/rest]. *)
Lemma mediaKind_typed (fields : list (jsstring * value)) (front rest : jsstring) :
  47 ∉ front -> front <> [] ->
  lookup_field (lit "file_type") fields = Some (VStr (front ++ 47 :: rest)) ->
  (startsWith front (lit "image") = true -> mediaKind (VObj fields) = Some image)
  /\ (startsWith front (lit "image") = false ->
      startsWith front (lit "audio") = true ->
      mediaKind (VObj fields) = Some audio)
  /\ (startsWith front (lit "image") = false ->
      startsWith front (lit "audio") = false ->
      startsWith front (lit "video") = true ->
      mediaKind (VObj fields) = Some video)
  /\ (startsWith front (lit "image") = false ->
      startsWith front (lit "audio") = false ->
      startsWith front (lit "video") = false ->
      front ++ 47 :: rest = lit "application/pdf" ->
      mediaKind (VObj fields) = Some pdf).
Proof.
  intros Hf Hne Hl. unfold mediaKind, getProp. rewrite Hl.
  cbn [from_option id]. rewrite (beforeSlash_prefix front rest Hf).
  assert (truthy (VStr front) = true) as ->.
  { simpl. by rewrite bool_decide_eq_false_2. }
  split; [by intros ->|]. split; [by intros -> ->|].
  split; [by intros -> -> ->|].
  intros -> -> -> ->.
  unfold strictEqStr. by rewrite bool_decide_eq_true_2.
Qed.

(** X15. A file is shown in the gallery under the class that its preview
    had: when the server returns the type of the file as [file_type], an
    item whose preview was an image, an audio file, a video or a PDF is
    rendered by [renderMediaGallery] as the same; and every file that
    [handleFileSelect] accepts for its type has one of these four
    classes. *)
Theorem mediaKind_agrees_with_preview (f : File)
  (fields : list (jsstring * value)) :
  lookup_field (lit "file_type") fields = Some (VStr (type f)) ->
  (previewKind f <> document -> mediaKind (VObj fields) = Some (previewKind f))
  /\ (type f ∈ allowedTypes -> previewKind f <> document).
Proof.
  intros Hl. split.
  - unfold previewKind.
    destruct (startsWith (type f) (lit "image/")) eqn:Hi.
    { intros _. apply startsWith_spec in Hi as [rest Hr].
      rewrite Hr in Hl.
      change (lit "image/" ++ rest) with (lit "image" ++ 47 :: rest) in Hl.
      eapply (mediaKind_typed fields (lit "image") rest); try done.
      vm_compute. set_solver. }
    destruct (startsWith (type f) (lit "audio/")) eqn:Ha.
    { intros _. apply startsWith_spec in Ha as [rest Hr].
      rewrite Hr in Hl.
      change (lit "audio/" ++ rest) with (lit "audio" ++ 47 :: rest) in Hl.
      eapply (mediaKind_typed fields (lit "audio") rest); try done.
      vm_compute. set_solver. }
    destruct (startsWith (type f) (lit "video/")) eqn:Hv.
    { intros _. apply startsWith_spec in Hv as [rest Hr].
      rewrite Hr in Hl.
      change (lit "video/" ++ rest) with (lit "video" ++ 47 :: rest) in Hl.
      eapply (mediaKind_typed fields (lit "video") rest); try done.
      vm_compute. set_solver. }
    case_bool_decide as Hp; [|done]. intros _.
    rewrite Hp in Hl.
    change (lit "application/pdf") with (lit "application" ++ 47 :: lit "pdf") in Hl.
    eapply (mediaKind_typed fields (lit "application") (lit "pdf")); try done.
    vm_compute. set_solver.
  - intros Hin. unfold allowedTypes in Hin.
    apply list_elem_of_In in Hin. simpl in Hin.
    unfold previewKind.
    repeat (destruct Hin as [<-|Hin]; [by vm_compute|]). done.
Qed.

Lemma Forall_trimStart (P : N -> Prop) (s : jsstring) :
  Forall P s -> Forall P (trimStart s).
Proof.
  induction 1 as [|c s Hc Hs IH]; simpl; [constructor|].
  destruct (isWhiteSpace c); [done | by constructor].
Qed.

Lemma oneLine_trim (s : jsstring) : oneLine s -> oneLine (trim s).
Proof.
  unfold oneLine, stripNewlines. intros H.
  assert (forall t : jsstring,
            List.filter (fun c => negb ((c =? 10) || (c =? 13))) t = t
            <-> Forall (fun c => negb ((c =? 10) || (c =? 13)) = true) t) as Hf.
  { induction t as [|c t IH]; simpl; [by split; [constructor|]|].
    destruct (negb ((c =? 10) || (c =? 13))) eqn:Hc.
    - rewrite Forall_cons, <- IH. split; [by intros [= ->] | by intros [_ ->]].
    - split.
      + intros Heq. apply (f_equal length) in Heq. simpl in Heq.
        pose proof (List.filter_length_le
                      (fun c => negb ((c =? 10) || (c =? 13))) t). lia.
      + intros [Hx _]%Forall_cons. congruence. }
  apply Hf. apply Hf in H. unfold trim.
  by apply Forall_rev, Forall_trimStart, Forall_rev, Forall_trimStart.
Qed.

(** X16. Editing a title and giving it up leaves the title alone: after
    [enableTitleEditing], whatever is typed, [cancelTitleEditing] shows the
    title as it was, puts the original title back into the input and
    hides the input and its buttons. *)
Theorem cancelTitleEditing_restores (it : title_editor) (values : list jsstring) :
  let it' :=
    cancelTitleEditing
      (fold_left (fun i value => typeTitle value i) values
                 (enableTitleEditing it)) in
  title_display it' = title_display it
  /\ title_original it' = title_original it
  /\ media_id it' = media_id it
  /\ title_edit it' = stripNewlines (title_original it)
  /\ title_display_style it' = css_block
  /\ title_edit_style it' = css_none
  /\ save_title_style it' = css_none
  /\ cancel_title_style it' = css_none.
Proof.
  intros it'.
  assert (forall i,
            title_display (fold_left (fun i value => typeTitle value i) values i)
            = title_display i
            /\ title_original (fold_left (fun i value => typeTitle value i) values i)
               = title_original i
            /\ media_id (fold_left (fun i value => typeTitle value i) values i)
               = media_id i) as Hkeep.
  { induction values as [|v values IH]; intros i; [done|].
    simpl. by destruct (IH (typeTitle v i)) as (-> & -> & ->). }
  destruct (Hkeep (enableTitleEditing it)) as (Hd & Ho & Hi).
  unfold it'. simpl. rewrite Hd, Ho, Hi. done.
Qed.

Lemma saveTitle_resume_cases (newTitle : jsstring) (o : outcome)
  (it : title_editor) :
  if response_ok o then
    saveTitle_resume newTitle o it
    = (cancelTitleEditing
         {| media_id := media_id it; title_display := newTitle;
            title_edit := title_edit it; title_original := newTitle;
            title_display_style := title_display_style it;
            title_edit_style := title_edit_style it;
            save_title_style := save_title_style it;
            cancel_title_style := cancel_title_style it |},
       [TitleMessage TitleUpdated success])
  else
    exists e,
      saveTitle_resume newTitle o it
      = (cancelTitleEditing it,
         [TitleConsoleError; TitleMessage (TitleFailed e) error]).
Proof.
  destruct o as [m|[|] m|[|] result]; unfold saveTitle_resume, response_ok;
    eauto.
  destruct (getProp result (lit "message")); eauto.
Qed.

(** X17. [saveTitle] sends a title only when it is not blank, and the
    displayed title changes only when the server has accepted it.  For an
    input that is blank when trimmed it shows an error and sends nothing.
    Otherwise it sends the trimmed value.  When the response arrives, with
    the item as it then is: for a status of success the displayed title
    and the original of the input become the title that was sent; when the
    request fails in any way the displayed title and the original stay
    and the original is put back into the input.  Either way the input
    and its buttons are hidden again, and the original of the input
    remains the displayed title when it was. *)
Theorem saveTitle_changes_title_on_success (it now : title_editor)
  (o : outcome) :
  match saveTitle_begin it with
  | (effs, None) =>
      trim (title_edit it) = []
      /\ effs = [TitleMessage TitleEmpty error]
  | (effs, Some newTitle) =>
      effs = [PutTitle (media_id it) newTitle]
      /\ newTitle = trim (title_edit it)
      /\ newTitle <> []
      /\ let r := saveTitle_resume newTitle o now in
         title_display_style r.1 = css_block
         /\ title_edit_style r.1 = css_none
         /\ save_title_style r.1 = css_none
         /\ cancel_title_style r.1 = css_none
         /\ media_id r.1 = media_id now
         /\ (title_original now = title_display now ->
             title_original r.1 = title_display r.1)
         /\ if response_ok o then
              title_display r.1 = newTitle
              /\ title_original r.1 = newTitle
              /\ title_edit r.1 = stripNewlines newTitle
              /\ (oneLine (title_edit it) -> title_edit r.1 = newTitle)
              /\ r.2 = [TitleMessage TitleUpdated success]
            else
              title_display r.1 = title_display now
              /\ title_original r.1 = title_original now
              /\ title_edit r.1 = stripNewlines (title_original now)
              /\ exists e,
                   r.2 = [TitleConsoleError; TitleMessage (TitleFailed e) error]
  end.
Proof.
  unfold saveTitle_begin.
  destruct (trim (title_edit it)) as [|c t] eqn:Ht; [done|].
  split; [done|]. split; [done|]. split; [done|].
  assert (oneLine (title_edit it) -> stripNewlines (c :: t) = c :: t) as Hone.
  { intros H. rewrite <- Ht. by apply oneLine_trim. }
  cbv zeta.
  pose proof (saveTitle_resume_cases (c :: t) o now) as Hr.
  destruct (response_ok o).
  - rewrite Hr. cbn -[stripNewlines]. by repeat split.
  - destruct Hr as [e ->]. cbn -[stripNewlines]. repeat split; eauto.
Qed.

End GalleryItems.

Section PreviewingExamples.

Import Media.

Lemma handleUpload_batch_outcome_witness :
  uploadInProgress (mgr three_selected) = false
  /\ tasks three_selected = []
  /\ selected three_selected <> []
  /\ length [stored; refused; stored] = length (selected three_selected)
  /\ uploadInProgress
       (mgr (run toLowerCase_ascii three_selected
               (Submit :: settlements [stored; refused; stored])))
     = false
  /\ uploadBtn_innerHTML
       (mgr (run toLowerCase_ascii three_selected
               (Submit :: settlements [stored; refused; stored])))
     = uploadBtn_innerHTML (mgr three_selected).
Proof.
  assert (selected three_selected <> []) as Hsel by (vm_compute; discriminate).
  split; [reflexivity|]. split; [reflexivity|]. split; [exact Hsel|].
  split; [reflexivity|].
  destruct (handleUpload_batch_outcome toLowerCase_ascii three_selected
              [stored; refused; stored] eq_refl eq_refl Hsel eq_refl)
    as (Hu & _ & _ & Hl & _).
  split; [exact Hu | exact Hl].
Defined.

Lemma mediaKind_agrees_with_preview_witness :
  lookup_field (lit "file_type") example_item = Some (VStr (type example_photo))
  /\ mediaKind (VObj example_item) = Some image.
Proof.
  split; [reflexivity|].
  destruct (mediaKind_agrees_with_preview example_photo example_item eq_refl)
    as [Hkind _].
  apply Hkind. vm_compute. discriminate.
Defined.

End PreviewingExamples.

(** ** Reordering linked media *)

Section Reordering.

Import Linker.

(** Two neighbours exchanged, seen from the front of the list. *)
Lemma exchanged_adjacent (i : nat) (l : list media) :
  (S i < length l)%nat ->
  exists front x y back,
    l = front ++ x :: y :: back /\ length front = i
    /\ exchanged l i (S i) = front ++ y :: x :: back.
Proof.
  revert l. induction i as [|i IH]; intros l Hl.
  - destruct l as [|x [|y back]]; simpl in Hl; try lia.
    by exists [], x, y, back.
  - destruct l as [|a l]; simpl in Hl; [lia|].
    destruct (IH l ltac:(lia)) as (front & x & y & back & -> & Hf & He).
    exists (a :: front), x, y, back. split; [done|]. split; [simpl; lia|].
    unfold exchanged in *. simpl.
    destruct ((front ++ x :: y :: back) !! i),
             ((front ++ x :: y :: back) !! S i); simpl in *; congruence.
Qed.

Lemma exchanged_permutation (i : nat) (l : list media) :
  exchanged l i (S i) ≡ₚ l.
Proof.
  destruct (decide (S i < length l)%nat) as [Hl|Hl].
  - destruct (exchanged_adjacent i l Hl) as (front & x & y & back & -> & _ & ->).
    apply Permutation_app_head, perm_swap.
  - unfold exchanged. destruct (l !! i); [|done].
    by rewrite (proj2 (lookup_ge_None l (S i))) by lia.
Qed.

(** The entries at the two positions change places and the others stay. *)
Lemma exchanged_lookup (i : nat) (l : list media) :
  (S i < length l)%nat ->
  exchanged l i (S i) !! i = l !! S i
  /\ exchanged l i (S i) !! S i = l !! i
  /\ forall k, k <> i -> k <> S i -> exchanged l i (S i) !! k = l !! k.
Proof.
  intros Hl. unfold exchanged.
  destruct (lookup_lt_is_Some_2 l i ltac:(lia)) as [x Hx].
  destruct (lookup_lt_is_Some_2 l (S i) Hl) as [y Hy].
  rewrite Hx, Hy. split; [|split].
  - rewrite list_lookup_insert_ne by lia.
    by rewrite list_lookup_insert_eq by lia.
  - by rewrite list_lookup_insert_eq by (rewrite length_insert; lia).
  - intros k Hi Hj. by rewrite !list_lookup_insert_ne by lia.
Qed.

Lemma ids_items (l : list media) :
  ids (Item <$> l) = Some ((fun m => Some (id m)) <$> l).
Proof.
  induction l as [|m l IH]; [done|].
  change (ids (Item <$> m :: l))
    with (cons (Some (id m)) <$> ids (Item <$> l)).
  by rewrite IH.
Qed.

Lemma ids_undefined (a : list cell) : Undefined ∈ a -> ids a = None.
Proof.
  induction a as [|c a IH]; [by intros ?%elem_of_nil|].
  rewrite elem_of_cons. intros [<- | Hin]; [done|].
  destruct c; simpl; [|done|]; by rewrite IH.
Qed.

Lemma swap_items (i : nat) (l : list media) :
  (S i < length l)%nat ->
  swap (Item <$> l) i (S i) = Item <$> exchanged l i (S i).
Proof.
  intros Hl. unfold swap, get, set, exchanged.
  destruct (lookup_lt_is_Some_2 l i ltac:(lia)) as [x Hx].
  destruct (lookup_lt_is_Some_2 l (S i) Hl) as [y Hy].
  rewrite !list_lookup_fmap, Hx, Hy. simpl.
  rewrite length_fmap.
  rewrite (proj2 (Nat.ltb_lt i (length l))) by lia.
  rewrite length_insert, length_fmap.
  rewrite (proj2 (Nat.ltb_lt (S i) (length l))) by lia.
  by rewrite !list_fmap_insert.
Qed.

Lemma length_set (a : list cell) (i : nat) (c : cell) :
  length (set a i c) = (length a `max` S i)%nat.
Proof.
  unfold set. destruct (Nat.ltb_spec i (length a)).
  - rewrite length_insert. lia.
  - rewrite !length_app, length_replicate. simpl. lia.
Qed.

Lemma set_written (a : list cell) (i : nat) (c : cell) : c ∈ set a i c.
Proof.
  unfold set. destruct (Nat.ltb_spec i (length a)).
  - apply list_elem_of_lookup. exists i. by apply list_lookup_insert_eq.
  - rewrite !elem_of_app, list_elem_of_singleton. auto.
Qed.

(** A swap that reaches past the end stores [undefined] in the array. *)
Lemma swap_beyond (i : nat) (l : list media) :
  (length l <= S i)%nat -> Undefined ∈ swap (Item <$> l) i (S i).
Proof.
  intros Hl. unfold swap.
  assert (get (Item <$> l) (S i) = Undefined) as ->.
  { unfold get. by rewrite list_lookup_fmap, (proj2 (lookup_ge_None l (S i))). }
  pose proof (set_written (Item <$> l) i Undefined) as Hin.
  pose proof (length_set (Item <$> l) i Undefined) as Hlen.
  rewrite length_fmap in Hlen.
  revert Hin Hlen. generalize (set (Item <$> l) i Undefined). intros a Ha Hlen.
  unfold set. rewrite (proj2 (Nat.ltb_ge (S i) (length a))) by lia.
  rewrite elem_of_app. by left.
Qed.

Lemma confirms_success (ok : bool) (data : value) :
  confirms (Json ok data)
  = match getProp data (lit "success") with
    | Some v => truthy v
    | None => false
    end.
Proof. by destruct data. Qed.

(** The order that [handleReorder] posts and the state that it leaves, for
    an array of media records. *)
Lemma handleReorder_items (onUpdate : bool) (l l' : list media) (o : outcome) :
  posts (handleReorder onUpdate (Item <$> l) (Item <$> l') o).2
  = [(fun m => Some (id m)) <$> l']
  /\ (handleReorder onUpdate (Item <$> l) (Item <$> l') o).1
     = Item <$> (if confirms o then l' else l).
Proof.
  unfold handleReorder. rewrite ids_items.
  destruct o as [m|ok m|ok data]; [done..|].
  rewrite confirms_success.
  destruct (getProp data (lit "success")) as [v|]; [|done].
  destruct (truthy v); [|done]. by destruct onUpdate.
Qed.

Lemma handleReorder_undefined (onUpdate : bool) (current newOrder : list cell)
  (o : outcome) :
  Undefined ∈ newOrder ->
  handleReorder onUpdate current newOrder o = (current, [ConsoleError]).
Proof. intros H. unfold handleReorder. by rewrite (ids_undefined _ H). Qed.

(** The swap of [moveUp] and [moveDown] at the positions [i] and [i + 1]. *)
Lemma reorder_neighbours (onUpdate : bool) (l : list media) (i : nat)
  (o : outcome) :
  let r := handleReorder onUpdate (Item <$> l) (swap (Item <$> l) i (S i)) o in
  (exists l', r.1 = Item <$> l' /\ l' ≡ₚ l
              /\ (l' = l \/ l' = exchanged l i (S i)))
  /\ ((S i < length l)%nat ->
      posts r.2 = [(fun m => Some (id m)) <$> exchanged l i (S i)]
      /\ r.1 = Item <$> (if confirms o then exchanged l i (S i) else l))
  /\ ((length l <= S i)%nat -> r = (Item <$> l, [ConsoleError])).
Proof.
  intros r. destruct (decide (S i < length l)%nat) as [Hl|Hl].
  - unfold r. rewrite (swap_items i l Hl).
    destruct (handleReorder_items onUpdate l (exchanged l i (S i)) o)
      as [Hp Hs].
    split; [|split; [done|lia]].
    rewrite Hs. destruct (confirms o).
    + exists (exchanged l i (S i)). split; [done|].
      split; [apply exchanged_permutation | by right].
    + exists l. split; [done|]. split; [done | by left].
  - assert (r = (Item <$> l, [ConsoleError])) as ->.
    { apply handleReorder_undefined, swap_beyond. lia. }
    split; [|split; [lia|done]].
    exists l. split; [done|]. split; [done | by left].
Qed.

(** C5, amended. [moveUp] and [moveDown] leave a permutation of the list of
    linked media, whatever the index and the answer of the server: the
    list as it was, or the list with two neighbours exchanged. For an index
    with a neighbour on the side in question the order that is posted is
    the list with the entries at [index - 1] and [index] (for [moveUp]) or
    at [index] and [index + 1] (for [moveDown]) exchanged and all others in
    place; it becomes the list when the server confirms, and the list
    stays as it was when it does not. [moveUp] of the first and [moveDown]
    of the last entry return at once: no request, the list as it was. *)
Theorem moveUp_moveDown_permute (onUpdate : bool) (linkedMedia : list media)
  (index : nat) (o : outcome) :
  let up := moveUp onUpdate linkedMedia index o in
  let down := moveDown onUpdate linkedMedia index o in
  (exists l', up.1 = Item <$> l' /\ l' ≡ₚ linkedMedia
              /\ (l' = linkedMedia
                  \/ l' = exchanged linkedMedia (index - 1) index))
  /\ (exists l', down.1 = Item <$> l' /\ l' ≡ₚ linkedMedia
                 /\ (l' = linkedMedia
                     \/ l' = exchanged linkedMedia index (S index)))
  /\ ((0 < index < length linkedMedia)%nat ->
      posts up.2
      = [(fun m => Some (id m)) <$> exchanged linkedMedia (index - 1) index]
      /\ up.1 = Item <$> (if confirms o
                          then exchanged linkedMedia (index - 1) index
                          else linkedMedia)
      /\ exchanged linkedMedia (index - 1) index !! (index - 1)%nat
         = linkedMedia !! index
      /\ exchanged linkedMedia (index - 1) index !! index
         = linkedMedia !! (index - 1)%nat
      /\ forall k, k <> (index - 1)%nat -> k <> index ->
           exchanged linkedMedia (index - 1) index !! k = linkedMedia !! k)
  /\ ((S index < length linkedMedia)%nat ->
      posts down.2
      = [(fun m => Some (id m)) <$> exchanged linkedMedia index (S index)]
      /\ down.1 = Item <$> (if confirms o
                            then exchanged linkedMedia index (S index)
                            else linkedMedia)
      /\ exchanged linkedMedia index (S index) !! index
         = linkedMedia !! S index
      /\ exchanged linkedMedia index (S index) !! S index
         = linkedMedia !! index
      /\ forall k, k <> index -> k <> S index ->
           exchanged linkedMedia index (S index) !! k = linkedMedia !! k)
  /\ moveUp onUpdate linkedMedia 0 o = (Item <$> linkedMedia, [])
  /\ (S index = length linkedMedia -> down = (Item <$> linkedMedia, [])).
Proof.
  intros up down.
  split; [|split; [|split; [|split; [|split; [done|]]]]].
  - unfold up, moveUp. destruct index as [|before].
    + exists linkedMedia. split; [done|]. split; [done | by left].
    + replace (S before - 1)%nat with before by lia.
      apply (reorder_neighbours onUpdate linkedMedia before o).
  - unfold down, moveDown. case_bool_decide.
    + exists linkedMedia. split; [done|]. split; [done | by left].
    + apply (reorder_neighbours onUpdate linkedMedia index o).
  - intros [Hpos Hlt]. unfold up, moveUp.
    destruct index as [|before]; [lia|].
    replace (S before - 1)%nat with before by lia.
    destruct (reorder_neighbours onUpdate linkedMedia before o)
      as (_ & Hin & _).
    destruct (Hin Hlt) as [Hp Hs].
    destruct (exchanged_lookup before linkedMedia Hlt) as (? & ? & ?).
    done.
  - intros Hlt. unfold down, moveDown.
    rewrite bool_decide_eq_false_2 by lia.
    destruct (reorder_neighbours onUpdate linkedMedia index o)
      as (_ & Hin & _).
    destruct (Hin Hlt) as [Hp Hs].
    destruct (exchanged_lookup index linkedMedia Hlt) as (? & ? & ?).
    done.
  - intros Hlast. unfold down, moveDown.
    by rewrite bool_decide_eq_true_2 by lia.
Qed.

(** C5 as it is worded fails when the server does not confirm the new
    order: [moveUp] of the second of two entries posts the exchanged order
    and leaves the list as it was, the entries not exchanged. *)
Lemma moveUp_declined_counterexample :
  (moveUp true [beach; garden] 1 declined).1 = Item <$> [beach; garden]
  /\ posts (moveUp true [beach; garden] 1 declined).2 = [[Some 9%Z; Some 4%Z]]
  /\ ~ ((moveUp true [beach; garden] 1 declined).1
        = Item <$> exchanged [beach; garden] 0 1).
Proof. split; [done|]. split; [done|]. by vm_compute. Qed.

End Reordering.

Section ReorderingBack.

Import Linker.

(** Exchanging the same two neighbours twice gives the list back. *)
Lemma exchanged_twice (i : nat) (l : list media) :
  (S i < length l)%nat ->
  exchanged (exchanged l i (S i)) i (S i) = l.
Proof.
  intros Hl.
  destruct (exchanged_adjacent i l Hl) as (front & x & y & back & -> & Hf & ->).
  destruct (exchanged_adjacent i (front ++ y :: x :: back))
    as (front' & x' & y' & back' & Heq & Hf' & ->).
  { rewrite length_app in *. simpl in *. lia. }
  apply app_inj_1 in Heq as [<- Heq]; [|lia].
  by injection Heq as <- <- <-.
Qed.

Lemma length_exchanged (i j : nat) (l : list media) :
  length (exchanged l i j) = length l.
Proof.
  unfold exchanged. destruct (l !! i), (l !! j); try done.
  by rewrite !length_insert.
Qed.

(** X14. The arrows undo each other: when the server confirms both orders,
    [moveUp] of an entry followed by [moveDown] of the same entry, which
    is then one place higher, gives the list of linked media back, and so
    does [moveDown] followed by [moveUp]. *)
Theorem moveUp_moveDown_round_trip (onUpdate : bool) (linkedMedia : list media)
  (index : nat) (o o' : outcome) :
  confirms o = true ->
  confirms o' = true ->
  ((0 < index < length linkedMedia)%nat ->
   exists moved,
     (moveUp onUpdate linkedMedia index o).1 = Item <$> moved
     /\ moved !! (index - 1)%nat = linkedMedia !! index
     /\ (moveDown onUpdate moved (index - 1) o').1 = Item <$> linkedMedia)
  /\ ((S index < length linkedMedia)%nat ->
      exists moved,
        (moveDown onUpdate linkedMedia index o).1 = Item <$> moved
        /\ moved !! S index = linkedMedia !! index
        /\ (moveUp onUpdate moved (S index) o').1 = Item <$> linkedMedia).
Proof.
  intros Ho Ho'. split.
  - intros [Hpos Hlt]. destruct index as [|before]; [lia|].
    replace (S before - 1)%nat with before by lia.
    exists (exchanged linkedMedia before (S before)).
    destruct (reorder_neighbours onUpdate linkedMedia before o) as (_ & Hin & _).
    destruct (Hin Hlt) as [_ Hs]. rewrite Ho in Hs.
    destruct (exchanged_lookup before linkedMedia Hlt) as (Hb & _ & _).
    split; [done|]. split; [done|].
    unfold moveDown. rewrite length_exchanged.
    rewrite bool_decide_eq_false_2 by lia.
    destruct (reorder_neighbours onUpdate
                (exchanged linkedMedia before (S before)) before o')
      as (_ & Hin' & _).
    rewrite length_exchanged in Hin'. destruct (Hin' Hlt) as [_ Hs'].
    by rewrite Hs', Ho', exchanged_twice.
  - intros Hlt.
    exists (exchanged linkedMedia index (S index)).
    destruct (exchanged_lookup index linkedMedia Hlt) as (_ & Hb & _).
    unfold moveDown at 1. rewrite bool_decide_eq_false_2 by lia.
    destruct (reorder_neighbours onUpdate linkedMedia index o) as (_ & Hin & _).
    destruct (Hin Hlt) as [_ Hs]. rewrite Ho in Hs.
    split; [done|]. split; [done|].
    unfold moveUp.
    destruct (reorder_neighbours onUpdate
                (exchanged linkedMedia index (S index)) index o')
      as (_ & Hin' & _).
    rewrite length_exchanged in Hin'. destruct (Hin' Hlt) as [_ Hs'].
    by rewrite Hs', Ho', exchanged_twice.
Qed.

End ReorderingBack.

Section ReorderingBackExamples.

Import Linker.

Lemma moveUp_moveDown_round_trip_witness :
  confirms confirmed = true
  /\ (0 < 1 < length [beach; garden])%nat
  /\ exists moved,
       (moveUp true [beach; garden] 1 confirmed).1 = Item <$> moved
       /\ moved !! (1 - 1)%nat = [beach; garden] !! 1%nat
       /\ (moveDown true moved (1 - 1) confirmed).1 = Item <$> [beach; garden].
Proof.
  split; [reflexivity|].
  assert (0 < 1 < length [beach; garden])%nat as Hi by (simpl; lia).
  split; [exact Hi|].
  exact (proj1 (moveUp_moveDown_round_trip true [beach; garden] 1 confirmed
                  confirmed eq_refl eq_refl) Hi).
Defined.

End ReorderingBackExamples.

(** ** Editing a chapter of the biography *)

Section Editing.

Import ExportJs.

Lemma uint_units_inj (d e : Decimal.uint) :
  uint_units d = uint_units e -> d = e.
Proof.
  revert e. induction d as [|d IH|d IH|d IH|d IH|d IH|d IH|d IH|d IH|d IH|d IH];
    intros [|e|e|e|e|e|e|e|e|e|e] H; simpl in H; try done;
    injection H as H; by rewrite (IH e H).
Qed.

Lemma decimal_inj (n n' : N) : decimal n = decimal n' -> n = n'.
Proof.
  intros H%uint_units_inj. by apply DecimalN.Unsigned.to_uint_inj.
Qed.

(** Two chapters have the same id only when they are the same chapter. *)
Lemma chapterId_inj (m m' : model) (i i' : nat) :
  chapterId m i = chapterId m' i' -> m = m' /\ i = i'.
Proof.
  unfold chapterId. intros H.
  destruct m, m'; try (apply (f_equal (take 1)) in H; by vm_compute in H).
  all: split; [done|].
  all: apply app_inv_head, app_inv_head, decimal_inj in H; lia.
Qed.

Lemma chapterId_ne (m m' : model) (i i' : nat) :
  (m, i) <> (m', i') -> chapterId m i <> chapterId m' i'.
Proof. intros Hne H%chapterId_inj. destruct H as [-> ->]. done. Qed.

(** The parser leaves a text without CR and U+0000 as it is. *)
Lemma parsedText_plain (s : jsstring) : plainText s -> parsedText s = s.
Proof.
  unfold parsedText.
  induction 1 as [|c s [Hcr Hnul] _ IH]; [done|].
  cbn [normalizeNewlines].
  rewrite (proj2 (N.eqb_neq c 13) Hcr). cbn [List.filter].
  rewrite (proj2 (N.eqb_neq c 0) Hnul). cbn [negb]. by rewrite IH.
Qed.

Lemma plainText_uint_units (d : Decimal.uint) : plainText (uint_units d).
Proof.
  induction d; cbn [uint_units]; [by apply Forall_nil|..];
    by apply Forall_cons.
Qed.

(** The title that a chapter without a title is given is such a text. *)
Lemma parsedText_fallback (n : nat) :
  parsedText (lit "Chapter " ++ decimal (N.of_nat n))
  = lit "Chapter " ++ decimal (N.of_nat n).
Proof.
  apply parsedText_plain, Forall_app. split; [|apply plainText_uint_units].
  by repeat (apply Forall_cons; split; [done|]).
Qed.

Lemma chapters_of_set_chapters (m m' : model) (l : list chapter_preview)
  (b : biography) :
  chapters_of m' (set_chapters m l b)
  = if decide (m' = m) then l else chapters_of m' b.
Proof. by destruct m, m'. Qed.

Lemma chapters_of_set_originalTexts (m : model) (t : gmap jsstring jsstring)
  (b : biography) :
  chapters_of m (set_originalTexts t b) = chapters_of m b.
Proof. by destruct m. Qed.

Lemma chapters_of_set_hasUnsavedEdits (m : model) (u : bool) (b : biography) :
  chapters_of m (set_hasUnsavedEdits u b) = chapters_of m b.
Proof. by destruct m. Qed.

Lemma originalTexts_set_chapters (m : model) (l : list chapter_preview)
  (b : biography) :
  originalTexts (set_chapters m l b) = originalTexts b.
Proof. done. Qed.

#[local] Ltac bio_simpl :=
  repeat first
    [ rewrite chapters_of_set_chapters
    | rewrite chapters_of_set_originalTexts
    | rewrite chapters_of_set_hasUnsavedEdits
    | rewrite originalTexts_set_chapters
    | progress unfold checkUnsavedEdits
    | progress cbn [originalTexts set_originalTexts set_hasUnsavedEdits] ].

(** The text that a chapter shows after the element of another chapter, or
    of this one, was replaced. *)
Lemma shown_text_replaced (m m' : model) (i i' : nat) (el : chapter_preview)
  (b b' : biography) :
  (forall k, chapters_of k b' = chapters_of k b) ->
  shown_text m' i' (set_chapters m (<[i := el]> (chapters_of m b)) b')
  = if decide ((m', i') = (m, i)) then
      match chapters_of m b !! i, narrativeEl el with
      | Some _, Text t => Some t
      | _, _ => None
      end
    else shown_text m' i' b.
Proof.
  intros Hsame. unfold shown_text. rewrite chapters_of_set_chapters.
  destruct (decide (m' = m)) as [->|Hm].
  - destruct (decide (i' = i)) as [->|Hi].
    + rewrite decide_True by done.
      destruct (chapters_of m b !! i) as [old|] eqn:Hold.
      * rewrite list_lookup_insert_eq by (by eapply lookup_lt_Some). done.
      * rewrite list_insert_ge by (by apply lookup_ge_None). by rewrite Hold.
    + rewrite decide_False by congruence.
      by rewrite list_lookup_insert_ne by done.
  - rewrite decide_False by congruence. by rewrite Hsame.
Qed.

Lemma texts_agree_editChapter (m : model) (i : nat) (b : biography) :
  texts_agree b -> texts_agree (editChapter m i b).
Proof.
  intros Hb. unfold editChapter.
  destruct (chapters_of m b !! i) as [el|] eqn:Hel; [|done].
  intros m' i' t held. rewrite shown_text_replaced, Hel
    by (intros k; apply chapters_of_set_originalTexts).
  destruct (decide ((m', i') = (m, i))) as [|Hne]; [done|].
  bio_simpl. intros Ht Hheld. apply (Hb m' i' t held Ht).
  destruct (originalTexts b !! chapterId m i) as [[|c s]|]; try done.
  all: by rewrite lookup_insert_ne in Hheld by (by apply chapterId_ne).
Qed.

Lemma shown_text_set_hasUnsavedEdits (m : model) (i : nat) (u : bool)
  (b : biography) :
  shown_text m i (set_hasUnsavedEdits u b) = shown_text m i b.
Proof. unfold shown_text. by rewrite chapters_of_set_hasUnsavedEdits. Qed.

Lemma shown_text_set_originalTexts (m : model) (i : nat)
  (t : gmap jsstring jsstring) (b : biography) :
  shown_text m i (set_originalTexts t b) = shown_text m i b.
Proof. unfold shown_text. by rewrite chapters_of_set_originalTexts. Qed.

Lemma texts_agree_textareaInput (m : model) (i : nat) (value : jsstring)
  (b : biography) :
  texts_agree b -> texts_agree (textareaInput m i value b).
Proof.
  intros Hb. unfold textareaInput.
  destruct (chapters_of m b !! i) as [el|] eqn:Hel; [|done].
  destruct (narrativeEl el) eqn:Hn; [done|].
  intros m' i' t held.
  rewrite shown_text_set_hasUnsavedEdits, shown_text_replaced, Hel by done.
  destruct (decide ((m', i') = (m, i))); [done|]. apply Hb.
Qed.

Lemma texts_agree_saveChapterEdit (m : model) (i : nat) (b : biography) :
  texts_agree b -> texts_agree (saveChapterEdit m i b).
Proof.
  intros Hb. unfold saveChapterEdit.
  destruct (chapters_of m b !! i) as [el|] eqn:Hel; [|done].
  destruct (narrativeEl el) eqn:Hn; [done|].
  intros m' i' t held.
  rewrite shown_text_set_originalTexts, shown_text_replaced, Hel by done.
  cbn [originalTexts set_originalTexts].
  destruct (decide ((m', i') = (m, i))) as [[= -> ->]|Hne].
  - rewrite lookup_insert_eq. simpl. intros [= <-] [= <-]. by left.
  - rewrite lookup_insert_ne by (by apply chapterId_ne). apply Hb.
Qed.

Lemma texts_agree_cancelChapterEdit (m : model) (i : nat) (b : biography) :
  texts_agree b -> texts_agree (cancelChapterEdit m i b).
Proof.
  intros Hb. unfold cancelChapterEdit, checkUnsavedEdits.
  destruct (chapters_of m b !! i) as [el|] eqn:Hel; [|done].
  intros m' i' t held.
  rewrite shown_text_set_hasUnsavedEdits, shown_text_replaced, Hel by done.
  cbn [originalTexts set_hasUnsavedEdits].
  rewrite originalTexts_set_chapters.
  destruct (decide ((m', i') = (m, i))) as [[= -> ->]|Hne]; [|apply Hb].
  simpl. intros [= <-] ->. by left.
Qed.

(** The entries of [originalTexts] after the loop of [displayVersion]. *)
Lemma recordTexts_lookup (m m' : model) (cs : list chapter) :
  forall (index j : nat) (texts : gmap jsstring jsstring),
    recordTexts m index cs texts !! chapterId m' j
    = match (if decide (m' = m /\ index <= j)%nat
             then cs !! (j - index)%nat else None) with
      | Some c => Some (default [] (narrative c))
      | None => texts !! chapterId m' j
      end.
Proof.
  induction cs as [|c rest IH]; intros index j texts; simpl.
  - by case_decide.
  - rewrite IH.
    destruct (decide (m' = m /\ index <= j)%nat) as [[-> Hle]|Hno].
    + destruct (decide (j = index)) as [->|Hne].
      * rewrite decide_False by lia.
        by rewrite lookup_insert_eq, Nat.sub_diag.
      * rewrite decide_True by (split; [done|lia]).
        replace (j - index)%nat with (S (j - S index)) by lia. simpl.
        destruct (rest !! (j - S index)%nat); [done|].
        by rewrite lookup_insert_ne by (apply chapterId_ne; congruence).
    + rewrite decide_False by (intros [? ?]; apply Hno; split; [done|lia]).
      rewrite lookup_insert_ne; [done|].
      apply chapterId_ne. intros [= -> ->]. apply Hno. split; [done|lia].
Qed.

Lemma previews_lookup (cs : list chapter) :
  forall (index j : nat),
    narrativeEl <$> previews index cs !! j
    = (fun c => Text (parsedText (default [] (narrative c)))) <$> cs !! j.
Proof.
  induction cs as [|c rest IH]; intros index j; [done|].
  destruct j; [done|]. simpl. apply IH.
Qed.

Lemma texts_agree_displayVersion (m : model) (cs : list chapter)
  (b : biography) :
  texts_agree b -> texts_agree (displayVersion m cs b).
Proof.
  intros Hb m' i t held. unfold displayVersion.
  destruct cs as [|c0 rest]; unfold shown_text;
    rewrite chapters_of_set_chapters.
  - destruct (decide (m' = m)); [done|]. apply Hb.
  - rewrite chapters_of_set_originalTexts. cbn [originalTexts set_chapters].
    cbn [originalTexts set_originalTexts].
    rewrite recordTexts_lookup, Nat.sub_0_r.
    destruct (decide (m' = m)) as [->|Hm].
    + rewrite decide_True by (split; [done|lia]).
      rewrite previews_lookup.
      destruct ((c0 :: rest) !! i) as [c|]; simpl; [|done].
      intros [= <-] [= <-]. by right.
    + rewrite decide_False by (by intros [? _]). apply Hb.
Qed.

Lemma texts_agree_no_chapters (b : biography) :
  deepseek_chapters b = [] -> claude_chapters b = [] -> texts_agree b.
Proof.
  intros Hd Hc m i t held. unfold shown_text.
  destruct m; simpl; by rewrite ?Hd, ?Hc.
Qed.

Lemma texts_agree_displayOne (m : model) (v : option version) (b : biography) :
  texts_agree b -> texts_agree (displayOne m v b).
Proof.
  intros Hb. unfold displayOne.
  destruct v as [[[[|c e]|] cs]|]; try done;
    by apply texts_agree_displayVersion.
Qed.

Lemma texts_agree_perform (b : biography) (a : action) :
  texts_agree b -> texts_agree (perform b a).
Proof.
  intros Hb. destruct a as [|data|m i|m i value|m i|m i|confirmed]; simpl.
  - by apply texts_agree_no_chapters.
  - unfold displayBiographyPreview.
    destruct (data_deepseek data), (data_claude data);
      repeat apply texts_agree_displayOne;
      by apply texts_agree_no_chapters.
  - by apply texts_agree_editChapter.
  - by apply texts_agree_textareaInput.
  - by apply texts_agree_saveChapterEdit.
  - by apply texts_agree_cancelChapterEdit.
  - unfold closeBiographyPreview.
    destruct (hasUnsavedEdits b && negb confirmed); [done|].
    intros m i t held _. simpl. by rewrite lookup_empty.
Qed.

Lemma texts_agree_reachable (b : biography) : reachable b -> texts_agree b.
Proof.
  intros [actions ->].
  assert (texts_agree loaded) as Hl by (by apply texts_agree_no_chapters).
  revert Hl. generalize loaded.
  induction actions as [|a actions IH]; intros b Hb; [done|].
  simpl. by apply IH, texts_agree_perform.
Qed.

(** Typing into the [textarea] keeps the chapter in its place and the map
    as it is. *)
Lemma typing_frame (m : model) (i : nat) (values : list jsstring) :
  forall b,
    is_Some (chapters_of m b !! i) ->
    is_Some (chapters_of m
               (fold_left (fun b' value => textareaInput m i value b') values b)
             !! i)
    /\ originalTexts
         (fold_left (fun b' value => textareaInput m i value b') values b)
       = originalTexts b.
Proof.
  induction values as [|value values IH]; intros b Hb; [done|].
  simpl.
  assert (is_Some (chapters_of m (textareaInput m i value b) !! i)
          /\ originalTexts (textareaInput m i value b) = originalTexts b)
    as [Hs Ho].
  { unfold textareaInput. destruct Hb as [el Hel]. rewrite Hel.
    destruct (narrativeEl el); [by eauto|].
    rewrite chapters_of_set_hasUnsavedEdits, chapters_of_set_chapters.
    rewrite decide_True by done. split; [|done].
    apply lookup_lt_is_Some. rewrite length_insert.
    by eapply lookup_lt_Some. }
  destruct (IH _ Hs) as [Hs' Ho']. split; [done|]. by rewrite Ho'.
Qed.

(** C6, amended. For a chapter of either version that shows its text, in a
    state that the preview reaches, an [editChapter], any changes of the
    [textarea] and a [cancelChapterEdit] leave the chapter showing the
    text that [originalTexts] held for its id when the editing began.  The
    text that the chapter showed before is this text, or this text as the
    parser read it from the generated markup, with CR LF and CR for line
    feeds and without U+0000; so that the narrative is as it was whenever
    the text held has neither CR nor U+0000. *)
Theorem edit_then_cancel_restores (b : biography) (m : model)
  (chapterIndex : nat) (values : list jsstring) (t held : jsstring) :
  reachable b ->
  shown_text m chapterIndex b = Some t ->
  originalTexts b !! chapterId m chapterIndex = Some held ->
  shown_text m chapterIndex (edit_then_cancel m chapterIndex values b)
  = Some held
  /\ (t = held \/ t = parsedText held)
  /\ (plainText held ->
      shown_text m chapterIndex (edit_then_cancel m chapterIndex values b)
      = shown_text m chapterIndex b).
Proof.
  intros Hb%texts_agree_reachable Ht Hheld.
  pose proof (Hb m chapterIndex t held Ht Hheld) as Hagree. clear Hb.
  assert (shown_text m chapterIndex (edit_then_cancel m chapterIndex values b)
          = Some held) as Hrestored.
  { unfold edit_then_cancel.
    assert (exists el, chapters_of m b !! chapterIndex = Some el
                       /\ narrativeEl el = Text t) as (el & Hel & Hn).
    { unfold shown_text in Ht.
      destruct (chapters_of m b !! chapterIndex) as [el|]; [|done].
      exists el. split; [done|]. simpl in Ht.
      by destruct (narrativeEl el); simplify_eq. }
    set (b1 := editChapter m chapterIndex b).
    assert (is_Some (chapters_of m b1 !! chapterIndex)
            /\ originalTexts b1 !! chapterId m chapterIndex = Some held)
      as [Hs1 Ho1].
    { unfold b1, editChapter. rewrite Hel, Hn, Hheld.
      rewrite chapters_of_set_chapters, decide_True by done.
      rewrite originalTexts_set_chapters. cbn [originalTexts set_originalTexts].
      split.
      - apply lookup_lt_is_Some. rewrite length_insert.
        by eapply lookup_lt_Some.
      - destruct held as [|c held]; [|done].
        rewrite lookup_insert_eq. cbn [textContent].
        by destruct Hagree as [->| ->]. }
    destruct (typing_frame m chapterIndex values b1 Hs1) as [[el2 Hel2] Ho2].
    unfold cancelChapterEdit, checkUnsavedEdits. rewrite Hel2, Ho2, Ho1.
    rewrite shown_text_set_hasUnsavedEdits, shown_text_replaced, Hel2 by done.
    by rewrite decide_True. }
  split; [exact Hrestored|]. split; [exact Hagree|].
  intros Hplain. rewrite Hrestored, Ht.
  destruct Hagree as [->| ->]; [done|]. by rewrite parsedText_plain.
Qed.

(** C6 as it is worded fails for a narrative with a line break of the form
    CR LF: the parser reads the markup of [displayVersion] with a line
    feed in its place, which the chapter shows, while [originalTexts]
    holds the narrative itself, which [cancelChapterEdit] then shows. *)
Lemma edit_then_cancel_line_break_counterexample :
  reachable line_break_preview
  /\ originalTexts line_break_preview !! chapterId deepseek 0
     = Some [97; 13; 10; 98]
  /\ shown_text deepseek 0 line_break_preview = Some [97; 10; 98]
  /\ shown_text deepseek 0 (edit_then_cancel deepseek 0 [] line_break_preview)
     = Some [97; 13; 10; 98]
  /\ shown_text deepseek 0 (edit_then_cancel deepseek 0 [] line_break_preview)
     <> shown_text deepseek 0 line_break_preview.
Proof.
  split; [by exists [Generate; Display line_break_data]|].
  split; [by vm_compute|]. split; [by vm_compute|]. split; [by vm_compute|].
  by vm_compute.
Qed.

End Editing.

Section EditingExamples.

Import ExportJs.

Lemma edit_then_cancel_restores_witness :
  reachable example_preview
  /\ shown_text deepseek 0 example_preview = Some (lit "Born in 1950 in Leeds.")
  /\ originalTexts example_preview !! chapterId deepseek 0
     = Some (lit "Born in 1950 in Leeds.")
  /\ shown_text deepseek 0
       (edit_then_cancel deepseek 0 [lit "Born"; lit "Born in 1951"]
          example_preview)
     = Some (lit "Born in 1950 in Leeds.").
Proof.
  assert (reachable example_preview) as Hr
    by (by exists [Generate; Display example_data]).
  assert (shown_text deepseek 0 example_preview
          = Some (lit "Born in 1950 in Leeds.")) as Ht by (by vm_compute).
  assert (originalTexts example_preview !! chapterId deepseek 0
          = Some (lit "Born in 1950 in Leeds.")) as Hheld by (by vm_compute).
  split; [exact Hr|]. split; [exact Ht|]. split; [exact Hheld|].
  exact (proj1 (edit_then_cancel_restores example_preview deepseek 0
                  [lit "Born"; lit "Born in 1951"]
                  (lit "Born in 1950 in Leeds.") (lit "Born in 1950 in Leeds.")
                  Hr Ht Hheld)).
Defined.

End EditingExamples.

(** ** Saving a version of the biography *)

Section Selecting.

Import ExportJs.

Lemma nonBlank_trim (s : jsstring) : trim s <> [] <-> nonBlank s.
Proof.
  unfold nonBlank. rewrite trim_nil_iff. split.
  - intros H. apply not_Forall_Exists in H; [|apply _].
    eapply Exists_impl; [exact H|].
    intros c Hc. by apply not_true_iff_false.
  - intros (c & Hin & Hc)%Exists_exists HF.
    eapply Forall_forall in HF; [|exact Hin]. congruence.
Qed.

Lemma forallb_Forall {A : Type} (f : A -> bool) (l : list A) :
  forallb f l = true <-> Forall (fun x => f x = true) l.
Proof.
  induction l as [|x l IH]; simpl; [by split; [constructor|]|].
  rewrite andb_true_iff, IH, Forall_cons. done.
Qed.

Lemma nonBlankString_spec (v : value) :
  nonBlankString v = true <-> exists s, v = VStr s /\ nonBlank s.
Proof.
  destruct v as [| |b|z|s|l|fields]; simpl;
    try (split; [done | by intros (s' & ? & _)]).
  rewrite negb_true_iff, bool_decide_eq_false, nonBlank_trim.
  split; [by eauto | by intros (s' & [= <-] & ?)].
Qed.

Lemma validChapter_spec (chapter : value) :
  validChapter chapter = true
  <-> exists fields t n,
        chapter = VObj fields
        /\ lookup_field (lit "title") fields = Some (VStr t)
        /\ lookup_field (lit "narrative") fields = Some (VStr n)
        /\ nonBlank t /\ nonBlank n.
Proof.
  unfold validChapter. rewrite !andb_true_iff, !nonBlankString_spec. split.
  - intros [[Ht (t & Hti & Hnt)] (n & Hna & Hnn)].
    destruct chapter as [| |b|z|s|l|fields]; try done.
    exists fields, t, n. simpl in Hti, Hna.
    destruct (lookup_field (lit "title") fields) as [vt|]; [|done].
    destruct (lookup_field (lit "narrative") fields) as [vn|]; [|done].
    simpl in *. by subst.
  - intros (fields & t & n & -> & Hti & Hna & Hnt & Hnn). simpl.
    rewrite Hti, Hna. simpl. eauto 10.
Qed.

(** X2. [validateChapters] accepts exactly the arrays of which every
    element is an object with a [title] and a [narrative] that are strings
    with a character other than white space; it accepts the empty array
    and refuses everything that is not an array. *)
Theorem validateChapters_complete (chapters : value) :
  validateChapters chapters = true
  <-> exists l,
        chapters = VArr l
        /\ Forall (fun chapter =>
                     exists fields t n,
                       chapter = VObj fields
                       /\ lookup_field (lit "title") fields = Some (VStr t)
                       /\ lookup_field (lit "narrative") fields = Some (VStr n)
                       /\ nonBlank t /\ nonBlank n) l.
Proof.
  destruct chapters as [| |b|z|s|l|fields]; simpl;
    try (split; [done | by intros (l' & ? & _)]).
  rewrite forallb_Forall. split.
  - intros H. exists l. split; [done|].
    eapply Forall_impl; [exact H|]. intros c. by rewrite validChapter_spec.
  - intros (l' & [= <-] & H).
    eapply Forall_impl; [exact H|]. intros c. by rewrite validChapter_spec.
Qed.

Lemma validateChapters_collected (chapters : list saved_chapter) :
  validateChapters (VArr (chapterValue <$> chapters)) = true
  <-> Forall (fun c => nonBlank (saved_title c) /\ nonBlank (saved_narrative c))
             chapters.
Proof.
  simpl. rewrite forallb_Forall, Forall_fmap.
  apply Forall_iff. intros c. unfold compose.
  unfold validChapter, chapterValue. simpl.
  rewrite !andb_true_iff, !negb_true_iff, !bool_decide_eq_false, !nonBlank_trim.
  naive_solver.
Qed.

Lemma length_collect (index : nat) (els : list chapter_preview) :
  length (collect index els) = length els.
Proof.
  revert index. induction els as [|el els IH]; intros index; [done|].
  simpl. by rewrite IH.
Qed.

Lemma selectVersion_begin_collects (m : model) (confirmed : bool)
  (b : biography) (chapters : list saved_chapter) :
  (selectVersion_begin m confirmed b).2 = Some chapters ->
  chapters = collect 0 (chapters_of m b).
Proof.
  unfold selectVersion_begin.
  destruct (hasUnsavedEdits b && negb confirmed); [done|].
  destruct (chapters_of m b) as [|el els]; [done|].
  destruct (validateChapters _); [|done].
  by intros [= <-].
Qed.

(** X3. [selectVersion] posts the chapters of a version only in full: when
    it sends its request there is one chapter for each chapter shown, at
    least one, and each has a title and a narrative with a character other
    than white space; the request is the only thing it does then; and
    when there are unsaved edits the user has agreed.  In every other
    case it sends nothing. *)
Theorem selectVersion_posts_complete_chapters (m : model) (confirmed : bool)
  (b : biography) :
  let r := selectVersion_begin m confirmed b in
  match r.2 with
  | Some chapters =>
      r.1 = [PostSaveEdits chapters m]
      /\ chapters = collect 0 (chapters_of m b)
      /\ length chapters = length (chapters_of m b)
      /\ chapters <> []
      /\ Forall (fun c => nonBlank (saved_title c) /\ nonBlank (saved_narrative c))
                chapters
      /\ (hasUnsavedEdits b = true -> confirmed = true)
  | None =>
      r.1 = [] \/ exists a, r.1 = [SelectAlert a]
  end.
Proof.
  unfold selectVersion_begin.
  destruct (hasUnsavedEdits b && negb confirmed) eqn:Hg; [by left|].
  destruct (chapters_of m b) as [|el els] eqn:Hels; [right; eauto|].
  destruct (validateChapters _) eqn:Hv; [|right; eauto].
  apply validateChapters_collected in Hv.
  cbn [fst snd]. split; [done|]. split; [done|].
  split; [by rewrite length_collect|]. split; [done|]. split; [done|].
  intros Hu. rewrite Hu in Hg. by destruct confirmed.
Qed.

Lemma heading_or (h fallback : jsstring) :
  h <> [] -> match h with [] => fallback | _ :: _ => h end = h.
Proof. by destruct h. Qed.

Lemma chapter_fallback (n : nat) :
  lit "Chapter " ++ decimal (N.of_nat n) <> [].
Proof. discriminate. Qed.

Lemma collect_previews (index : nat) (cs : list chapter) :
  collect index (previews index cs) = displayed index cs.
Proof.
  revert index. induction cs as [|c cs IH]; intros index; [done|].
  cbn [collect previews displayed heading narrativeEl textContent].
  rewrite IH. f_equal. f_equal.
  destruct (title c) as [[|x t]|]; cbn [default from_option id].
  - by rewrite parsedText_fallback.
  - by destruct (parsedText (x :: t)).
  - by rewrite parsedText_fallback.
Qed.

(** Chapters of plain texts are shown as they were generated. *)
Lemma displayed_plain (index : nat) (cs : list chapter) :
  Forall (fun c => plainText (default [] (title c))
                   /\ plainText (default [] (narrative c))) cs ->
  displayed index cs = generated index cs.
Proof.
  intros H. revert index. induction H as [|c cs [Ht Hn] _ IH]; intros index;
    [done|].
  cbn [displayed generated]. rewrite IH, !parsedText_plain by done.
  by destruct (title c) as [[|x t]|].
Qed.

Lemma nonBlank_app_l (s t : jsstring) : nonBlank s -> nonBlank (s ++ t).
Proof. intros H. apply Exists_app. by left. Qed.

Lemma displayed_complete (index : nat) (cs : list chapter) :
  Forall (fun c => nonBlank (parsedText (default [] (narrative c)))
                   /\ forall t, title c = Some t ->
                                parsedText t = [] \/ nonBlank (parsedText t)) cs ->
  Forall (fun c => nonBlank (saved_title c) /\ nonBlank (saved_narrative c))
         (displayed index cs).
Proof.
  intros H. revert index. induction H as [|c cs [Hn Ht] _ IH]; intros index;
    [constructor|].
  cbn [displayed]. constructor; [|apply IH].
  cbn [saved_title saved_narrative]. split; [|done].
  assert (nonBlank (lit "Chapter " ++ decimal (N.of_nat (S index)))) as Hf.
  { apply nonBlank_app_l. by apply Exists_cons_hd. }
  destruct (title c) as [t|]; [|done]. cbn [default from_option id].
  destruct (Ht t eq_refl) as [->|Hnb]; [done|].
  by destruct (parsedText t).
Qed.

(** X4. What is posted is what was generated, as the parser read it.  For
    chapters of the server's answer whose narratives, as the parser reads
    them, have a character other than white space, and whose titles have
    one unless nothing is left of them, [selectVersion] on the version as
    [displayVersion] shows it posts these chapters, in their order, each
    with its narrative and its title as parsed, with CR LF and CR for line
    feeds and without U+0000, or with the title [Chapter n] when it has
    none.  For chapters without CR and U+0000 these are the narratives
    and titles as they were generated. *)
Theorem selectVersion_posts_displayed (m : model) (confirmed : bool)
  (cs : list chapter) (b : biography) :
  cs <> [] ->
  Forall (fun c => nonBlank (parsedText (default [] (narrative c)))
                   /\ forall t, title c = Some t ->
                                parsedText t = [] \/ nonBlank (parsedText t)) cs ->
  (hasUnsavedEdits b = true -> confirmed = true) ->
  selectVersion_begin m confirmed (displayVersion m cs b)
  = ([PostSaveEdits (displayed 0 cs) m], Some (displayed 0 cs))
  /\ (Forall (fun c => plainText (default [] (title c))
                       /\ plainText (default [] (narrative c))) cs ->
      displayed 0 cs = generated 0 cs).
Proof.
  intros Hcs Hvalid Hconf. split; [|apply displayed_plain].
  destruct cs as [|c cs]; [done|].
  unfold selectVersion_begin.
  assert (hasUnsavedEdits (displayVersion m (c :: cs) b) = hasUnsavedEdits b)
    as -> by by destruct m.
  assert (chapters_of m (displayVersion m (c :: cs) b) = previews 0 (c :: cs))
    as -> by by destruct m.
  assert (hasUnsavedEdits b && negb confirmed = false) as ->.
  { destruct (hasUnsavedEdits b); [|done]. by rewrite Hconf. }
  rewrite collect_previews.
  rewrite (proj2 (validateChapters_collected (displayed 0 (c :: cs))))
    by by apply displayed_complete.
  done.
Qed.

Lemma collect_lookup (els : list chapter_preview) :
  forall index i el,
    els !! i = Some el ->
    collect index els !! i
    = Some {| saved_title :=
                match heading el with
                | [] => lit "Chapter " ++ decimal (N.of_nat (S (index + i)))
                | _ :: _ => heading el
                end;
              saved_narrative := textContent (narrativeEl el) |}.
Proof.
  induction els as [|e els IH]; intros index [|i] el H; try done.
  - injection H as ->. simpl. by rewrite Nat.add_0_r.
  - simpl. rewrite (IH (S index) i el H).
    by replace (S index + i)%nat with (index + S i)%nat by lia.
Qed.

(** X5. A saved edit is what is posted: after [saveChapterEdit] of a
    chapter that is being edited, [selectVersion] collects for this
    chapter the value of the [textarea], under the title of the chapter,
    and for the other chapters what it collected before; when the value
    has no character other than white space it posts nothing and says
    that some chapters are empty. *)
Theorem saveChapterEdit_then_selectVersion (m : model) (i : nat)
  (b : biography) (el : chapter_preview) (text value count : jsstring) :
  chapters_of m b !! i = Some el ->
  narrativeEl el = EditContainer text value count ->
  let b' := saveChapterEdit m i b in
  collect 0 (chapters_of m b') !! i
  = Some {| saved_title :=
              match heading el with
              | [] => lit "Chapter " ++ decimal (N.of_nat (S i))
              | _ :: _ => heading el
              end;
            saved_narrative := value |}
  /\ (forall k, k <> i ->
        collect 0 (chapters_of m b') !! k = collect 0 (chapters_of m b) !! k)
  /\ (forall confirmed chapters,
        (selectVersion_begin m confirmed b').2 = Some chapters ->
        saved_narrative <$> chapters !! i = Some value)
  /\ (trim value = [] ->
      selectVersion_begin m true b' = ([SelectAlert SomeChaptersEmpty], None)).
Proof.
  intros Hel Hn b'.
  assert (chapters_of m b' = <[i := shown el value]> (chapters_of m b)) as Hb'.
  { unfold b', saveChapterEdit. rewrite Hel, Hn. by destruct m. }
  assert (collect 0 (chapters_of m b') !! i
          = Some {| saved_title :=
                      match heading el with
                      | [] => lit "Chapter " ++ decimal (N.of_nat (S i))
                      | _ :: _ => heading el
                      end;
                    saved_narrative := value |}) as Hi.
  { rewrite Hb'.
    apply (collect_lookup _ 0 i (shown el value)).
    apply list_lookup_insert_eq. by eapply lookup_lt_Some. }
  split; [done|]. split; [|split].
  - intros k Hk. rewrite Hb'.
    destruct (chapters_of m b !! k) as [e|] eqn:He.
    + rewrite (collect_lookup _ 0 k e), (collect_lookup _ 0 k e He); [done|].
      by rewrite list_lookup_insert_ne.
    + rewrite !(proj2 (lookup_ge_None _ _)); [done|..];
        rewrite length_collect, ?length_insert; by apply lookup_ge_None.
  - intros confirmed chapters Hsel.
    apply selectVersion_begin_collects in Hsel as ->. by rewrite Hi.
  - intros Hblank. unfold selectVersion_begin.
    assert (hasUnsavedEdits b' && negb true = false) as -> by apply andb_false_r.
    destruct (validateChapters
                (VArr (chapterValue <$> collect 0 (chapters_of m b')))) eqn:Hv.
    + apply validateChapters_collected in Hv.
      apply list_elem_of_lookup_2 in Hi.
      eapply Forall_forall in Hv; [|exact Hi].
      destruct Hv as [_ Hv]. simpl in Hv. by apply nonBlank_trim in Hv.
    + by destruct (chapters_of m b').
Qed.

(** X18. The selection is recorded only when the server has stored it.
    When the response of [selectVersion] reports success, the posted
    chapters and the model are recorded, the flag of unsaved edits is
    cleared without a message, the displayed chapters stay, and
    [closeBiographyPreview] then closes the modal without asking.  In
    every other case the biography and the selection are what they were
    and the only thing shown is the alert of the [catch] clause. *)
Theorem selectVersion_records_only_on_success (m : model)
  (chapters : list saved_chapter) (o : outcome) (actions : bool)
  (b : biography) (s : selection) :
  let r := selectVersion_resume m chapters o actions b s in
  if Capture.success_response o then
    selectedChapters r.1.2 = Some chapters
    /\ currentModel r.1.2 = Some m
    /\ (actions = true -> selectedBiographyChapters r.1.2 = Some chapters)
    /\ hasUnsavedEdits r.1.1 = false
    /\ deepseek_chapters r.1.1 = deepseek_chapters b
    /\ claude_chapters r.1.1 = claude_chapters b
    /\ originalTexts r.1.1 = originalTexts b
    /\ r.2 = []
    /\ forall confirmed,
         modal (closeBiographyPreview confirmed r.1.1) = DisplayNone
  else
    r.1.1 = b /\ r.1.2 = s
    /\ exists e, r.2 = [SelectConsoleError; SelectAlert (ErrorSaving e)].
Proof.
  cbv zeta. unfold selectVersion_resume, selectVersion_catch.
  destruct o as [message|ok message|ok data]; cbn [Capture.success_response];
    try (by repeat split; eauto).
  destruct data as [| |flag|z|str|items|fields];
    cbn [Capture.success_response getProp]; try (by repeat split; eauto).
  destruct (strictEqStr (default VUndefined (lookup_field (lit "status") fields))
                        (lit "success")).
  - cbn [fst snd selectedChapters currentModel selectedBiographyChapters
         hasUnsavedEdits deepseek_chapters claude_chapters originalTexts].
    repeat split; try done.
    by intros ->.
  - by repeat split; eauto.
Qed.

End Selecting.

Section SelectingExamples.

Import ExportJs.

Lemma selectVersion_posts_displayed_witness :
  example_chapters <> []
  /\ Forall (fun c => nonBlank (parsedText (default [] (narrative c)))
                      /\ forall t, title c = Some t ->
                                   parsedText t = [] \/ nonBlank (parsedText t))
            example_chapters
  /\ (hasUnsavedEdits loaded = true -> false = true)
  /\ selectVersion_begin claude false (displayVersion claude example_chapters loaded)
     = ([PostSaveEdits (displayed 0 example_chapters) claude],
        Some (displayed 0 example_chapters)).
Proof.
  assert (example_chapters <> []) as Hne by discriminate.
  assert (Forall (fun c => nonBlank (parsedText (default [] (narrative c)))
                           /\ forall t, title c = Some t ->
                                        parsedText t = []
                                        \/ nonBlank (parsedText t))
                 example_chapters) as Hall.
  { unfold example_chapters.
    apply Forall_cons. split.
    { split.
      - change (nonBlank (lit "Born in 1950 in Leeds.")).
        by apply Exists_cons_hd.
      - intros t [= <-]. right.
        change (nonBlank (lit "Early years")). by apply Exists_cons_hd. }
    apply Forall_cons. split; [|by apply Forall_nil].
    split; [|by intros t [=]].
    change (nonBlank (lit "The band played on.")). by apply Exists_cons_hd. }
  assert (hasUnsavedEdits loaded = true -> false = true) as Hu by (simpl; done).
  split; [exact Hne|]. split; [exact Hall|]. split; [exact Hu|].
  exact (proj1 (selectVersion_posts_displayed claude false example_chapters
                  loaded Hne Hall Hu)).
Defined.

Lemma saveChapterEdit_then_selectVersion_witness :
  chapters_of deepseek example_editing !! 0%nat = Some example_edited
  /\ narrativeEl example_edited
     = EditContainer (lit "Born in 1950 in Leeds.") (lit "Born in Leeds.")
                     (characters (lit "Born in Leeds."))
  /\ collect 0 (chapters_of deepseek (saveChapterEdit deepseek 0 example_editing))
     !! 0%nat
     = Some {| saved_title := lit "Early years";
               saved_narrative := lit "Born in Leeds." |}.
Proof.
  assert (chapters_of deepseek example_editing !! 0%nat = Some example_edited)
    as Hel by reflexivity.
  split; [exact Hel|]. split; [reflexivity|].
  exact (proj1 (saveChapterEdit_then_selectVersion deepseek 0 example_editing
                  example_edited _ _ _ Hel eq_refl)).
Defined.

End SelectingExamples.

(** ** The join table *)

Section Linking.

Import Schema.

Lemma filter_sublist {A : Type} (f : A -> bool) (l : list A) :
  List.filter f l `sublist_of` l.
Proof.
  induction l as [|x l IH]; [done|]. simpl.
  destruct (f x); by constructor.
Qed.

Lemma unique_pairs_filter (f : row -> bool) (d : database) :
  unique_pairs d -> unique_pairs (with_rows (List.filter f (memory_media d)) d).
Proof.
  unfold unique_pairs. simpl. intros Hu.
  eapply sublist_NoDup; [exact Hu|]. apply fmap_sublist, filter_sublist.
Qed.

Lemma consistent_link (memory medium : Z) (d d' : database) :
  consistent d -> link memory medium d = Some d' -> consistent d'.
Proof.
  intros [Hu Hr]. unfold link. case_decide as Hok; [|done].
  intros [= <-]. destruct Hok as (Hm & Hx & Hnew). split.
  - unfold unique_pairs. simpl. rewrite fmap_app.
    apply NoDup_app. split; [done|]. split.
    + intros p Hp ->%list_elem_of_singleton. done.
    + apply NoDup_singleton.
  - intros r. simpl. rewrite elem_of_app, list_elem_of_singleton.
    intros [Hin| ->]; [by apply Hr | done].
Qed.

Lemma consistent_execute (d : database) (s : statement) :
  consistent d -> consistent (execute d s).
Proof.
  intros Hd.
  destruct s as [memory|medium|memory medium|memory medium|memory order
                |memory|medium]; simpl.
  - destruct Hd as [Hu Hr]. split; [done|].
    intros r Hin. destruct (Hr r Hin). simpl. set_solver.
  - destruct Hd as [Hu Hr]. split; [done|].
    intros r Hin. destruct (Hr r Hin). simpl. set_solver.
  - destruct (link memory medium d) as [d'|] eqn:Hl; [|done].
    by eapply consistent_link.
  - destruct Hd as [Hu Hr]. split; [by apply unique_pairs_filter|].
    intros r [Hin _]%list_elem_of_In%filter_In. simpl.
    by apply Hr, list_elem_of_In.
  - destruct Hd as [Hu Hr]. unfold reorder. split.
    + unfold unique_pairs. simpl. rewrite <- list_fmap_compose.
      erewrite list_fmap_ext; [exact Hu|].
      intros i r _. simpl. case_bool_decide; [|done].
      by destruct (list_find _ order) as [[? ?]|].
    + intros r. simpl. intros (r0 & -> & Hin)%list_elem_of_fmap.
      destruct (Hr r0 Hin). case_bool_decide; [|done].
      by destruct (list_find _ order) as [[? ?]|].
  - destruct Hd as [Hu Hr]. split.
    + exact (unique_pairs_filter _ d Hu).
    + intros r [Hin Hne]%list_elem_of_In%filter_In. simpl.
      apply list_elem_of_In, Hr in Hin as [? ?].
      apply negb_true_iff, bool_decide_eq_false in Hne. set_solver.
  - destruct Hd as [Hu Hr]. split.
    + exact (unique_pairs_filter _ d Hu).
    + intros r [Hin Hne]%list_elem_of_In%filter_In. simpl.
      apply list_elem_of_In, Hr in Hin as [? ?].
      apply negb_true_iff, bool_decide_eq_false in Hne. set_solver.
Qed.

Lemma consistent_run (statements : list statement) (d : database) :
  consistent d -> consistent (fold_left execute statements d).
Proof.
  revert d. induction statements as [|s statements IH]; intros d Hd; [done|].
  simpl. by apply IH, consistent_execute.
Qed.

(** C1. In every state of the database that the statements of the
    application lead to from the migration, a pair of a memory and a media
    item is in at most one row of [memory_media], and every row refers to a
    memory and to a media item that exist; every statement keeps it so;
    the deletion of a memory or of a media item removes exactly the rows
    that refer to it; a link that would repeat a pair or refer to a
    missing parent is refused; and the selection grid of [MediaLinker]
    asks for a link only of a media item that is not linked yet. *)
Theorem memory_media_consistent (statements : list statement) :
  let d := fold_left execute statements migrated in
  unique_pairs d
  /\ references_exist d
  /\ (forall s, consistent (execute d s))
  /\ (forall memory r,
        r ∈ memory_media (delete_memory memory d)
        <-> r ∈ memory_media d /\ memory_id r <> memory)
  /\ (forall medium r,
        r ∈ memory_media (delete_media medium d)
        <-> r ∈ memory_media d /\ media_id r <> medium)
  /\ (forall memory medium,
        is_Some (link memory medium d)
        <-> memory ∈ memories d /\ medium ∈ media d
            /\ forall r, r ∈ memory_media d -> pair_of r <> (memory, medium))
  /\ (forall linkedMedia tile medium,
        Linker.clickTile linkedMedia tile = Some medium ->
        forall l, l ∈ linkedMedia -> Linker.id l <> medium).
Proof.
  intros d.
  assert (consistent d) as Hd.
  { apply consistent_run. split; [apply NoDup_nil_2 | by intros r ?%elem_of_nil]. }
  split; [apply Hd|]. split; [apply Hd|].
  split; [intros s; by apply consistent_execute|].
  split; [|split; [|split]].
  - intros memory r. simpl.
    rewrite list_elem_of_In, filter_In, <- list_elem_of_In.
    by rewrite negb_true_iff, bool_decide_eq_false.
  - intros medium r. simpl.
    rewrite list_elem_of_In, filter_In, <- list_elem_of_In.
    by rewrite negb_true_iff, bool_decide_eq_false.
  - intros memory medium. unfold link.
    assert ((memory, medium) ∉ pair_of <$> memory_media d
            <-> forall r, r ∈ memory_media d -> pair_of r <> (memory, medium))
      as Hfresh.
    { rewrite list_elem_of_fmap. split.
      - intros Hno r Hin Heq. apply Hno. eauto.
      - intros Hno (r & Heq & Hin). by apply (Hno r Hin). }
    case_decide as Hok; rewrite <- Hfresh; split; try done.
  - intros linkedMedia tile medium. unfold Linker.clickTile, Linker.isLinked.
    destruct (existsb _ linkedMedia) eqn:He; [done|].
    intros [= <-] l Hl Heq.
    assert (existsb (fun l0 => bool_decide (Linker.id l0 = Linker.id tile))
                    linkedMedia = true) as Ht; [|congruence].
    apply existsb_exists. exists l.
    split; [by apply list_elem_of_In | by apply bool_decide_eq_true].
Qed.

End Linking.

(** ** The PDF exports *)

Section Exporting.

Import ExportJs.

(** Without a global [timeoutId] the [catch] clause changes nothing. *)
Lemma export_resume_unbound (k : document_kind) (r : response) :
  let unbound := export_resume false k r in
  let bound := export_resume true k r in
  is_failure_banner (banner unbound) = false
  /\ (promise unbound = ReferenceError
      <-> is_failure_banner (banner bound) = true)
  /\ (promise unbound = ReferenceError <-> banner unbound = Spinner k)
  /\ (promise unbound = Fulfilled -> unbound = bound)
  /\ promise bound = Fulfilled.
Proof.
  cbv zeta. unfold export_resume, export_catch.
  destruct r as [abort| |abort|body|abort]; cbn [banner promise is_failure_banner].
  - destruct abort; by repeat split.
  - by repeat split.
  - destruct abort; by repeat split.
  - destruct (getProp body (lit "message")); cbn [banner promise is_failure_banner];
      by repeat split.
  - destruct abort; by repeat split.
Qed.

(** X19. A failed export is not reported.  The [catch] clauses of
    [generatePDF] and [generateFamilyAlbum] use [timeoutId], which is
    declared inside the [try] block; on a page without a global binding
    of this name neither function ever shows the banner of a timeout or
    of a failure.  In exactly the cases in which the clause would have
    shown one (a rejected request, the abort after five minutes among
    them, or a body that cannot be read) the promise of the call is
    rejected with a [ReferenceError] and the status keeps the spinner;
    in the other cases the binding makes no difference. *)
Theorem generatePDF_failure_is_never_reported (type : jsstring) (r : response) :
  let unbound := generatePDF_resume false type r in
  let bound := generatePDF_resume true type r in
  let album_unbound := generateFamilyAlbum_resume false r in
  let album_bound := generateFamilyAlbum_resume true r in
  (is_failure_banner (banner unbound) = false
   /\ (promise unbound = ReferenceError
       <-> is_failure_banner (banner bound) = true)
   /\ (promise unbound = ReferenceError
       <-> banner unbound = (generatePDF_begin type).1)
   /\ (promise unbound = Fulfilled -> unbound = bound))
  /\ (is_failure_banner (banner album_unbound) = false
      /\ (promise album_unbound = ReferenceError
          <-> is_failure_banner (banner album_bound) = true)
      /\ (promise album_unbound = ReferenceError
          <-> banner album_unbound = generateFamilyAlbum_begin.1)
      /\ (promise album_unbound = Fulfilled -> album_unbound = album_bound)).
Proof.
  cbv zeta. unfold generatePDF_resume, generateFamilyAlbum_resume.
  change (generatePDF_begin type).1 with (Spinner (pdf_kind type)).
  change generateFamilyAlbum_begin.1 with (Spinner Album).
  destruct (export_resume_unbound (pdf_kind type) r) as (H1 & H2 & H3 & H4 & _).
  destruct (export_resume_unbound Album r) as (A1 & A2 & A3 & A4 & _).
  by repeat split; try apply H2; try apply H3; try apply A2; try apply A3.
Qed.

End Exporting.

(** ** Saving the profile *)

Section Profiles.

Import Profile.

(** X20. [saveProfile] sends a profile only when it is complete, and
    answers a refusal with silence.  When the trimmed name, the date of
    birth or the role is empty it asks for the required fields and sends
    nothing; otherwise it posts the trimmed name with the three other
    values as they are.  When the server reports success the heading is
    set, the main interface is shown and the user is welcomed; a
    response with any other status has no effect at all, neither an
    alert nor a line in the console; and for a request or a body that
    fails the failure is logged and reported, the interface staying as
    it is. *)
Theorem saveProfile_sends_complete_profile (f : profile_form) (o : outcome) :
  match saveProfile_begin f with
  | (effs, None) =>
      (trim (user_name f) = [] \/ birth_date f = [] \/ family_role f = [])
      /\ effs = [ProfileAlert FillRequired]
  | (effs, Some name) =>
      name = trim (user_name f) /\ name <> []
      /\ birth_date f <> [] /\ family_role f <> []
      /\ effs = [PostProfile (profile_body name f)]
      /\ getProp (profile_body name f) (lit "name") = Some (VStr name)
      /\ let after := saveProfile_resume name o in
         if Capture.success_response o then
           after = [SetHeading (lit "The Circle: " ++ name ++ lit "'s Stories");
                    ShowMainInterface; ProfileAlert (Welcome name)]
         else
           match o with
           | Json _ (VUndefined | VNull) | FetchRejected _ | JsonRejected _ _ =>
               after = [ProfileConsoleError; ProfileAlert FailedToSaveProfile]
           | Json _ _ => after = []
           end
  end.
Proof.
  unfold saveProfile_begin.
  destruct (trim (user_name f)) as [|c name] eqn:Hn; [by split; [left|]|].
  destruct (birth_date f) as [|d date] eqn:Hd; [by split; [right; left|]|].
  destruct (family_role f) as [|e role] eqn:Hr; [by split; [right; right|]|].
  do 6 (split; [done|]). cbv zeta. unfold saveProfile_resume.
  destruct o as [message|ok message|ok data]; cbn [Capture.success_response];
    try done.
  destruct data as [| |flag|z|str|items|fields];
    cbn [Capture.success_response getProp]; try done.
  destruct (strictEqStr (default VUndefined (lookup_field (lit "status") fields))
                        (lit "success")); done.
Qed.

End Profiles.

(** ** The timer of a recording *)

Section Recording.

Import Voice.

(** A number below sixty is shown with two digits. *)
Lemma padStart_seconds (seconds : N) :
  seconds < 60 ->
  padStart 2 48 (decimal seconds) = [48 + seconds / 10; 48 + seconds mod 10].
Proof.
  intros Hs.
  assert (forallb
            (fun n => bool_decide
                        (padStart 2 48 (decimal (N.of_nat n))
                         = [48 + N.of_nat n / 10; 48 + N.of_nat n mod 10]))
            (seq 0 60) = true) as Hall by (vm_compute; reflexivity).
  apply forallb_Forall in Hall. rewrite Forall_forall in Hall.
  assert (N.to_nat seconds ∈ seq 0 60) as Hin by (apply elem_of_seq; lia).
  specialize (Hall _ Hin). rewrite N2Nat.id in Hall.
  by apply bool_decide_eq_true in Hall.
Qed.

(** The text after [elapsed] whole seconds. *)
Lemma timerText_elapsed (start now : Z) :
  (start <= now)%Z ->
  let elapsed := Z.to_N ((now - start) / 1000) in
  timerText start now
  = decimal (elapsed / 60) ++ [58; 48 + (elapsed mod 60) / 10;
                               48 + (elapsed mod 60) mod 10].
Proof.
  intros Hle elapsed. unfold timerText.
  assert (0 <= (now - start) / 1000)%Z as He by (apply Z.div_pos; lia).
  assert ((now - start) / 1000 = Z.of_N elapsed)%Z as -> by (unfold elapsed; lia).
  assert (Z.of_N elapsed / 60 = Z.of_N (elapsed / 60))%Z as ->
    by (rewrite N2Z.inj_div; done).
  assert (Z.rem (Z.of_N elapsed) 60 = Z.of_N (elapsed mod 60))%Z as ->.
  { rewrite Z.rem_mod_nonneg by lia. by rewrite N2Z.inj_mod. }
  assert (forall n : N, numberToString (Z.of_N n) = decimal n) as Hn.
  { intros [|q]; [done|]. unfold numberToString. simpl Z.of_N.
    by rewrite <- positive_N_Z, N2Z.id. }
  rewrite !Hn, padStart_seconds by (apply N.mod_lt; lia). done.
Qed.

(** X21. The timer of a recording counts whole seconds.  From the start
    of the recording on the text is the number of whole minutes, a
    colon, and the seconds of the minute with exactly two digits; and
    two moments show the same text exactly when the same number of whole
    seconds has passed. *)
Theorem timerText_counts_seconds (start now now' : Z) :
  (start <= now)%Z -> (start <= now')%Z ->
  (exists tens units : N,
     timerText start now
     = decimal (Z.to_N ((now - start) / 60000)) ++ [58; 48 + tens; 48 + units]
     /\ tens < 6 /\ units < 10
     /\ (Z.of_N (10 * tens + units) = ((now - start) / 1000) mod 60)%Z)
  /\ (timerText start now = timerText start now'
      <-> ((now - start) / 1000 = (now' - start) / 1000)%Z).
Proof.
  intros Hle Hle'.
  pose proof (timerText_elapsed start now Hle) as Ht.
  pose proof (timerText_elapsed start now' Hle') as Ht'.
  cbv zeta in Ht, Ht'.
  assert (0 <= (now - start) / 1000)%Z as He by (apply Z.div_pos; lia).
  assert (0 <= (now' - start) / 1000)%Z as He' by (apply Z.div_pos; lia).
  set (e := Z.to_N ((now - start) / 1000)) in *.
  set (e' := Z.to_N ((now' - start) / 1000)) in *.
  split.
  - exists ((e mod 60) / 10), ((e mod 60) mod 10).
    assert (e mod 60 < 60) as Hs by (apply N.mod_lt; lia).
    split; [|split; [|split]].
    + rewrite Ht. do 2 f_equal.
      assert ((now - start) / 60000 = (now - start) / 1000 / 60)%Z as ->
        by (rewrite Z.div_div by lia; done).
      unfold e. rewrite <- (Z2N.inj_div _ 60) by lia. done.
    + apply N.Div0.div_lt_upper_bound; lia.
    + apply N.mod_lt; lia.
    + rewrite <- N.div_mod by lia. rewrite N2Z.inj_mod. unfold e.
      by rewrite Z2N.id.
  - rewrite Ht, Ht'. split.
    + intros Heq. apply app_inj_2 in Heq as [Hm Hs]; [|done].
      apply decimal_inj in Hm.
      injection Hs as Htens Hunits.
      assert (e mod 60 = e' mod 60) as Hmod.
      { rewrite (N.div_mod (e mod 60) 10), (N.div_mod (e' mod 60) 10) by lia.
        lia. }
      assert (e = e') as Hee.
      { rewrite (N.div_mod e 60), (N.div_mod e' 60) by lia. lia. }
      unfold e, e' in Hee. lia.
    + intros Heq. unfold e, e'. by rewrite Heq.
Qed.

End Recording.

Section RecordingExamples.

Import Voice.

(** Two minutes and five seconds, at the start and at the end of the
    second. *)
Lemma timerText_counts_seconds_witness :
  (1700000000000 <= 1700000125000)%Z
  /\ (1700000000000 <= 1700000125999)%Z
  /\ timerText 1700000000000 1700000125000 = lit "2:05"
  /\ timerText 1700000000000 1700000125000
     = timerText 1700000000000 1700000125999.
Proof.
  assert (1700000000000 <= 1700000125000)%Z as Hle by lia.
  assert (1700000000000 <= 1700000125999)%Z as Hle' by lia.
  split; [exact Hle|]. split; [exact Hle'|]. split; [reflexivity|].
  destruct (timerText_counts_seconds 1700000000000 1700000125000
              1700000125999 Hle Hle') as [_ Hsame].
  apply Hsame. reflexivity.
Defined.

End RecordingExamples.
